(** * CTIW compiler: lexer, parser and code generator

    A shallow embedding of [src/lib/parser/lexer.ts], [src/lib/parser/parser.ts]
    and [src/lib/parser/codegen.ts], followed by the properties of the
    specification that concern them.

    Conventions of the embedding.
    - A JavaScript string is a [string]; its code units are the 8-bit
      characters of [ascii] (code units above 255 are outside the model).
    - An index or a counter is a [nat]; [indexOf] returning -1 is [None].
    - A class with mutable fields is a record, a method is a function from the
      record to the updated record.
    - An array is a [list]; [push] appends at the end.
    - An object used as a map with [Object.entries] is an association list of
      its own keys in insertion order.  An assignment to the key [__proto__]
      stores nothing ([setProperty]).  A lookup by a name that every object
      inherits from [Object.prototype] (constructor, toString, ...) finds the
      inherited member in JavaScript; the lookups in the generator's tables
      ([lookupOr]) see own keys only, so that for those names the embedding
      and the code differ: the statement about unmapped kinds excludes them
      ([Object_prototype_keys]).  Integer-like keys, which JavaScript
      orders first, are outside the model.
    - The values of [ElementProperties] are strings, as in every Document the
      parser builds. *)

From stdpp Require Import base list strings.
From Stdlib Require Import Ascii Lia DecimalString.

(** ** JavaScript string primitives used by the sources *)

Module JS.

Definition code (c : ascii) : nat := nat_of_ascii c.

Definition LF : ascii := ascii_of_nat 10.
Definition CR : ascii := ascii_of_nat 13.
Definition TAB : ascii := ascii_of_nat 9.
Definition NUL : ascii := ascii_of_nat 0.
Definition DQUOTE : ascii := ascii_of_nat 34.

(** The characters [String.prototype.trim] strips (WhiteSpace and
    LineTerminator), restricted to 8-bit code units. *)
Definition isWhiteSpace (c : ascii) : bool :=
  let n := code c in
  ((9 <=? n) && (n <=? 13)) || (n =? 32) || (n =? 160).

Fixpoint trimStart (s : string) : string :=
  match s with
  | EmptyString => EmptyString
  | String c s' => if isWhiteSpace c then trimStart s' else s
  end.

Fixpoint trimEnd (s : string) : string :=
  match s with
  | EmptyString => EmptyString
  | String c s' =>
      match trimEnd s' with
      | EmptyString => if isWhiteSpace c then EmptyString else String c EmptyString
      | t => String c t
      end
  end.

Definition trim (s : string) : string := trimEnd (trimStart s).

(** [s.slice(n)] *)
Fixpoint drop (n : nat) (s : string) : string :=
  match n, s with
  | O, _ => s
  | S n', String _ s' => drop n' s'
  | S _, EmptyString => EmptyString
  end.

(** [s.slice(0, n)] *)
Fixpoint take (n : nat) (s : string) : string :=
  match n, s with
  | O, _ => EmptyString
  | S n', String c s' => String c (take n' s')
  | S _, EmptyString => EmptyString
  end.

(** [s.slice(0, -1)] *)
Definition dropLast (s : string) : string := take (String.length s - 1) s.

(** [s.indexOf(c)] for a one-character needle; [None] stands for -1. *)
Fixpoint indexOf (c : ascii) (s : string) : option nat :=
  match s with
  | EmptyString => None
  | String d s' => if Ascii.eqb d c then Some 0 else option_map S (indexOf c s')
  end.

Definition startsWith (p s : string) : bool := String.prefix p s.

Fixpoint includes (p s : string) : bool :=
  String.prefix p s ||
  match s with
  | EmptyString => false
  | String _ s' => includes p s'
  end.

Fixpoint endsWithChar (c : ascii) (s : string) : bool :=
  match s with
  | EmptyString => false
  | String d EmptyString => Ascii.eqb d c
  | String _ s' => endsWithChar c s'
  end.

(** [s.split(sep)] for a one-character separator: never the empty list. *)
Fixpoint split (sep : ascii) (s : string) : list string :=
  match s with
  | EmptyString => [EmptyString]
  | String c s' =>
      if Ascii.eqb c sep then EmptyString :: split sep s'
      else match split sep s' with
           | h :: t => String c h :: t
           | [] => [String c EmptyString]
           end
  end.

(** [toLowerCase] on 8-bit code units: A-Z and the Latin-1 capitals. *)
Definition lowerChar (c : ascii) : ascii :=
  let n := code c in
  if ((65 <=? n) && (n <=? 90))
     || ((192 <=? n) && (n <=? 222) && negb (n =? 215))
  then ascii_of_nat (n + 32) else c.

Fixpoint toLowerCase (s : string) : string :=
  match s with
  | EmptyString => EmptyString
  | String c s' => String (lowerChar c) (toLowerCase s')
  end.

Fixpoint all (p : ascii -> bool) (s : string) : bool :=
  match s with
  | EmptyString => true
  | String c s' => p c && all p s'
  end.

(** The longest prefix whose characters satisfy [p]: the loops
    [while (i < s.length && p(s[i])) i++]. *)
Fixpoint span (p : ascii -> bool) (s : string) : nat :=
  match s with
  | EmptyString => 0
  | String c s' => if p c then S (span p s') else 0
  end.

Definition head (s : string) : option ascii :=
  match s with
  | EmptyString => None
  | String c _ => Some c
  end.

(** [array.join(sep)] *)
Fixpoint join (sep : string) (l : list string) : string :=
  match l with
  | [] => EmptyString
  | [x] => x
  | x :: t => x +:+ sep +:+ join sep t
  end.

Definition truthy (s : string) : bool := negb (String.eqb s EmptyString).

End JS.

(** ** The lexer ([src/lib/parser/lexer.ts]) *)

Module Lexer.
Import JS.

Inductive TokenType : Type :=
| CTIW_START | CTIW_END | DOUBLE_EQUALS
| EQUALS | COLON | DOT | LPAREN | RPAREN
| IDENTIFIER | NUMBER | HEX_COLOR | STRING
| NEWLINE | EOF.

#[global] Instance TokenType_eq_dec : EqDecision TokenType.
Proof. solve_decision. Defined.

Record Token : Type := mkToken
  { type : TokenType; value : string; line : nat; column : nat }.

Record LexerError : Type := mkLexerError
  { message : string; err_line : nat; err_column : nat }.

(** The fields of [class Lexer]. *)
Record Lexer : Type := mkLexer
  { source : string;
    pos : nat;
    cur_line : nat;
    cur_column : nat;
    tokens : list Token;
    errors : list LexerError;
    inValueContext : bool;
    atStatementStart : bool }.

(** [new Lexer(source)] *)
Definition new (src : string) : Lexer :=
  {| source := src; pos := 0; cur_line := 1; cur_column := 1;
     tokens := []; errors := [];
     inValueContext := false; atStatementStart := true |}.

(** The part of the source from the current position on. *)
Definition remaining (lx : Lexer) : string := drop (pos lx) (source lx).

Definition isAtEndInternal (lx : Lexer) : bool :=
  String.length (source lx) <=? pos lx.

Definition current (lx : Lexer) : ascii :=
  match head (remaining lx) with Some c => c | None => NUL end.

Definition lookAhead (n : nat) (lx : Lexer) : ascii :=
  match head (drop (pos lx + n) (source lx)) with Some c => c | None => NUL end.

(** [n] calls of [advance]: position and column both move. *)
Definition advanceBy (n : nat) (lx : Lexer) : Lexer :=
  {| source := source lx; pos := pos lx + n;
     cur_line := cur_line lx; cur_column := cur_column lx + n;
     tokens := tokens lx; errors := errors lx;
     inValueContext := inValueContext lx;
     atStatementStart := atStatementStart lx |}.

Definition advance (lx : Lexer) : Lexer := advanceBy 1 lx.

Definition match_ (expected : string) (lx : Lexer) : bool :=
  String.prefix expected (remaining lx).

Definition consume (str : string) (lx : Lexer) : Lexer :=
  advanceBy (String.length str) lx.

Definition addToken (ty : TokenType) (v : string) (startColumn : nat)
    (lx : Lexer) : Lexer :=
  {| source := source lx; pos := pos lx;
     cur_line := cur_line lx; cur_column := cur_column lx;
     tokens := tokens lx ++ [mkToken ty v (cur_line lx) startColumn];
     errors := errors lx;
     inValueContext := inValueContext lx;
     atStatementStart := atStatementStart lx |}.

Definition addError (msg : string) (lx : Lexer) : Lexer :=
  {| source := source lx; pos := pos lx;
     cur_line := cur_line lx; cur_column := cur_column lx;
     tokens := tokens lx;
     errors := errors lx ++ [mkLexerError msg (cur_line lx) (cur_column lx)];
     inValueContext := inValueContext lx;
     atStatementStart := atStatementStart lx |}.

Definition setInValueContext (b : bool) (lx : Lexer) : Lexer :=
  {| source := source lx; pos := pos lx;
     cur_line := cur_line lx; cur_column := cur_column lx;
     tokens := tokens lx; errors := errors lx;
     inValueContext := b;
     atStatementStart := atStatementStart lx |}.

Definition setAtStatementStart (b : bool) (lx : Lexer) : Lexer :=
  {| source := source lx; pos := pos lx;
     cur_line := cur_line lx; cur_column := cur_column lx;
     tokens := tokens lx; errors := errors lx;
     inValueContext := inValueContext lx;
     atStatementStart := b |}.

(** The [NEWLINE] case: [this.line++; this.column = 1]. *)
Definition newLine (lx : Lexer) : Lexer :=
  {| source := source lx; pos := pos lx;
     cur_line := cur_line lx + 1; cur_column := 1;
     tokens := tokens lx; errors := errors lx;
     inValueContext := inValueContext lx;
     atStatementStart := atStatementStart lx |}.

Definition isAlpha (c : ascii) : bool :=
  let n := code c in
  ((97 <=? n) && (n <=? 122)) || ((65 <=? n) && (n <=? 90)).

Definition isDigit (c : ascii) : bool :=
  let n := code c in (48 <=? n) && (n <=? 57).

Definition isHexDigit (c : ascii) : bool :=
  let n := code c in
  isDigit c || ((97 <=? n) && (n <=? 102)) || ((65 <=? n) && (n <=? 70)).

Definition isAlphaNumericOrHyphen (c : ascii) : bool :=
  isAlpha c || isDigit c || Ascii.eqb c "-" || Ascii.eqb c "_".

(** A space or a tab: the only characters the lookahead loops skip. *)
Definition isSpaceOrTab (c : ascii) : bool :=
  Ascii.eqb c " " || Ascii.eqb c TAB.

Definition isValidHexColor (str : string) : bool :=
  (String.length str =? 6) && all isHexDigit str.

(** The number of characters [skipWhitespace] advances over. *)
Fixpoint skipWhitespace_count (rest : string) : nat :=
  match rest with
  | EmptyString => 0
  | String c rest' =>
      if isSpaceOrTab c then S (skipWhitespace_count rest')
      else if Ascii.eqb c CR && bool_decide (head rest' = Some LF)
           then S (skipWhitespace_count rest')
      else 0
  end.

Definition skipWhitespace (lx : Lexer) : Lexer :=
  advanceBy (skipWhitespace_count (remaining lx)) lx.

Definition updateValueContext (lx : Lexer) : Lexer :=
  let enter := setAtStatementStart false (setInValueContext true lx) in
  let leave := setAtStatementStart false (setInValueContext false lx) in
  match rev (tokens lx) with
  | curr :: prev :: prevPrev :: before =>
      if bool_decide (type curr = EQUALS)
         && bool_decide (type prev = IDENTIFIER)
         && bool_decide (type prevPrev = EQUALS)
      then
        match before with
        | [] => enter
        | beforeOpening :: _ =>
            if bool_decide (type beforeOpening = NEWLINE)
               || bool_decide (type beforeOpening = DOT)
               || bool_decide (type beforeOpening = CTIW_START)
            then enter else leave
        end
      else leave
  | _ => leave
  end.

(** The content check shared by both lookaheads: after an identifier's
    [=], skip spaces and tabs; something other than [=], a newline or the
    end of the source must follow. *)
Definition contentAfterEquals (afterEq : string) : bool :=
  match drop (span isSpaceOrTab afterEq) afterEq with
  | EmptyString => false
  | String c _ => negb (Ascii.eqb c "=") && negb (Ascii.eqb c LF)
  end.

(** [looksLikeAttribute], on the text from the current position on. *)
Definition looksLikeAttributeAt (rest : string) : bool :=
  match drop (span isAlphaNumericOrHyphen rest) rest with
  | EmptyString => false
  | String next afterNext =>
      if Ascii.eqb next ":" then true
      else if Ascii.eqb next "=" then contentAfterEquals afterNext
      else false
  end.

Definition looksLikeAttribute (lx : Lexer) : bool :=
  looksLikeAttributeAt (remaining lx).

(** The last loop of [shouldScanString]: an [=] before the end of the line. *)
Fixpoint closingEqualsOnLine (rest : string) : bool :=
  match rest with
  | EmptyString => false
  | String c rest' =>
      if Ascii.eqb c "=" then true
      else if Ascii.eqb c LF then false
      else closingEqualsOnLine rest'
  end.

Definition shouldScanString (lx : Lexer) : bool :=
  if negb (inValueContext lx) then false
  else
    let char := current lx in
    if Ascii.eqb char "=" then false
    else if Ascii.eqb char LF then false
    else if isAlpha char then negb (looksLikeAttribute lx)
    else closingEqualsOnLine (remaining lx).

(** The lookahead of [scanString] at a space or tab; [afterSpace] is the
    text that follows that character. *)
Definition attributeFollows (afterSpace : string) : bool :=
  let atJ := drop (span isSpaceOrTab afterSpace) afterSpace in
  match atJ with
  | EmptyString => false
  | String cj _ =>
      if isAlpha cj then
        match drop (span isAlphaNumericOrHyphen atJ) atJ with
        | EmptyString => false
        | String ck afterK =>
            if Ascii.eqb ck ":" then true
            else if Ascii.eqb ck "=" then contentAfterEquals afterK
            else false
        end
      else false
  end.

(** The characters the loop of [scanString] appends to [value]. *)
Fixpoint scanString_value (rest : string) : string :=
  match rest with
  | EmptyString => EmptyString
  | String char rest' =>
      if Ascii.eqb char LF then EmptyString
      else if Ascii.eqb char "=" then EmptyString
      else if isSpaceOrTab char && attributeFollows rest' then EmptyString
      else String char (scanString_value rest')
  end.

Definition scanString (startColumn : nat) (lx : Lexer) : Lexer :=
  let raw := scanString_value (remaining lx) in
  let lx1 := advanceBy (String.length raw) lx in
  let v := trim raw in
  let lx2 := if 0 <? String.length v then addToken STRING v startColumn lx1 else lx1 in
  setInValueContext false lx2.

Definition scanIdentifierOrHexColor (startColumn : nat) (lx : Lexer) : Lexer :=
  let n := span isAlphaNumericOrHyphen (remaining lx) in
  let v := take n (remaining lx) in
  let lx1 := advanceBy n lx in
  let lx2 :=
    if (String.length v =? 6) && isValidHexColor v
    then addToken HEX_COLOR v startColumn lx1
    else addToken IDENTIFIER v startColumn lx1 in
  setInValueContext false lx2.

Definition scanNumberOrHexColor (startColumn : nat) (lx : Lexer) : Lexer :=
  let n := span isHexDigit (remaining lx) in
  let v := take n (remaining lx) in
  let lx1 := advanceBy n lx in
  let lx2 :=
    if (String.length v =? 6) && isValidHexColor v
    then addToken HEX_COLOR v startColumn lx1
    else addToken NUMBER v startColumn lx1 in
  setInValueContext false lx2.

Definition unknownCharMessage (char : ascii) : string :=
  "Oops! I found a character I don't understand: '" +:+ String char EmptyString
  +:+ "'. Try using letters, numbers, dots, or equals signs!".

Definition scanToken (lx0 : Lexer) : Lexer :=
  let lx := skipWhitespace lx0 in
  if isAtEndInternal lx then lx
  else
    let startColumn := cur_column lx in
    let char := current lx in
    if match_ "==CTIW==" lx then
      let lx1 := consume "==CTIW==" lx in
      let hasStart := existsb (fun t => bool_decide (type t = CTIW_START)) (tokens lx1) in
      let lx2 := addToken (if hasStart then CTIW_END else CTIW_START)
                          "==CTIW==" startColumn lx1 in
      setAtStatementStart false (setInValueContext false lx2)
    else if match_ "==" lx && negb (match_ "==CTIW==" lx) then
      let lx1 := consume "==" lx in
      let lx2 := addToken DOUBLE_EQUALS "==" startColumn lx1 in
      setAtStatementStart false (setInValueContext false lx2)
    else if Ascii.eqb char "=" then
      updateValueContext (addToken EQUALS "=" startColumn (advance lx))
    else if Ascii.eqb char ":" then
      setAtStatementStart false
        (setInValueContext false (addToken COLON ":" startColumn (advance lx)))
    else if Ascii.eqb char "." then
      setInValueContext false (addToken DOT "." startColumn (advance lx))
    else if Ascii.eqb char "(" then
      setAtStatementStart false
        (setInValueContext false (addToken LPAREN "(" startColumn (advance lx)))
    else if Ascii.eqb char ")" then
      setAtStatementStart false
        (setInValueContext false (addToken RPAREN ")" startColumn (advance lx)))
    else if Ascii.eqb char LF then
      setAtStatementStart true
        (setInValueContext false
           (newLine (addToken NEWLINE (String LF EmptyString) startColumn (advance lx))))
    else if shouldScanString lx then scanString startColumn lx
    else if isAlpha char then scanIdentifierOrHexColor startColumn lx
    else if isDigit char then scanNumberOrHexColor startColumn lx
    else advance (addError (unknownCharMessage char) lx).

(** The loop [while (!this.isAtEndInternal()) this.scanToken()].  Every call
    of [scanToken] away from the end moves the position, so the length of
    the source is enough fuel (see [scanAll_reaches_end] below). *)
Fixpoint scanAll (fuel : nat) (lx : Lexer) : Lexer :=
  if isAtEndInternal lx then lx
  else match fuel with
       | O => lx
       | S fuel' => scanAll fuel' (scanToken lx)
       end.

(** The method [tokenize]: reset, scan, push [EOF]. *)
Definition Lexer_tokenize (lx : Lexer) : Lexer :=
  let lx0 := new (source lx) in
  let lx1 := scanAll (String.length (source lx0)) lx0 in
  addToken EOF EmptyString (cur_column lx1) lx1.

Definition getErrors (lx : Lexer) : list LexerError := errors lx.

(** The exported helper [tokenize]. *)
Definition tokenize (src : string) : list Token * list LexerError :=
  let lexer := Lexer_tokenize (new src) in
  (tokens lexer, getErrors lexer).

(** *** Notions used to state the lexer's properties *)

(** What [tokenize] returns when the whole source is one token of type [ty]:
    that token at line 1, column 1, then [EOF], and no error. *)
Definition single (ty : TokenType) (w : string) : list Token * list LexerError :=
  ([mkToken ty w 1 1; mkToken EOF EmptyString 1 (1 + String.length w)], []).

Definition isAlphaNumeric (c : ascii) : bool := isAlpha c || isDigit c.

(** A text that begins with a letter. *)
Definition startsWithLetter (w : string) : bool :=
  match w with
  | EmptyString => false
  | String c _ => isAlpha c
  end.

(** The line [=text=Hello World=] ended by a carriage return and a newline,
    and the same line ended by a newline alone. *)
Definition crlfLine : string :=
  "=text=Hello World=" +:+ String CR (String LF EmptyString).

Definition lfLine : string :=
  "=text=Hello World=" +:+ String LF EmptyString.

(** The line [=text=Hello=], with a value of one word, ended in the two
    ways. *)
Definition crlfWord : string :=
  "=text=Hello=" +:+ String CR (String LF EmptyString).

Definition lfWord : string :=
  "=text=Hello=" +:+ String LF EmptyString.

(** The type and the value of every token. *)
Definition shapes (ts : list Token) : list (TokenType * string) :=
  List.map (fun t => (type t, value t)) ts.

(** Case analysis on the eight bits of a character. *)
Ltac ascii_cases c := destruct c as [[|] [|] [|] [|] [|] [|] [|] [|]].

End Lexer.

(** ** What the sources take from outside

    JavaScript's [Number(...)], [isNaN], the printing of a number and its
    truthiness are built-ins over IEEE doubles; [ELEMENT_TYPES] and
    [isValidElementType] are constants of [ast.ts], which is not among the
    sources.  The embedding takes them as parameters: every property proved
    below holds whatever they are. *)

Class Externals : Type := mkExternals
  { JSNumber : Type;
    Number : string -> JSNumber;
    isNaN : JSNumber -> bool;
    numberToString : JSNumber -> string;
    numberTruthy : JSNumber -> bool;
    ELEMENT_TYPES : list string;
    isValidElementType : string -> bool }.

(** ** The syntax tree ([ast.ts], as the parser and the generator use it) *)

Module Ast.

(** Modelled from the spec: the source span every node carries, with the
    four arguments the parser gives [createLocation] of the missing
    [ast.ts]. *)
Record SourceLocation : Type := createLocation
  { startLine : nat; startColumn : nat; endLine : nat; endColumn : nat }.

(** [ElementProperties]: property names to values, in the order the names
    were first set.  The parser stores the values as the strings written in
    the source.  A Document built by hand may hold numbers as well; the
    generator reads them through [String(...)], except the src, alt and href
    of an img or a link, which it hands to [escapeHTML] as they are.  Such
    Documents are outside the model. *)
Definition ElementProperties : Type := list (string * string).

(** [props[key]], among the own keys.  The sources read the properties by
    the names id, src, alt and href, none of which an object inherits. *)
Fixpoint getProperty (key : string) (props : ElementProperties) : option string :=
  match props with
  | [] => None
  | (k, v) :: rest => if String.eqb k key then Some v else getProperty key rest
  end.

(** The own property [key] set to [v]: a key already present keeps its
    place. *)
Fixpoint setOwnProperty (key v : string) (props : ElementProperties)
    : ElementProperties :=
  match props with
  | [] => [(key, v)]
  | (k, w) :: rest =>
      if String.eqb k key then (k, v) :: rest else (k, w) :: setOwnProperty key v rest
  end.

(** [props[key] = v] on an object literal.  [__proto__] is the accessor
    every object inherits from [Object.prototype]: its setter ignores a
    value that is no object, so assigning a string to it stores nothing. *)
Definition setProperty (key v : string) (props : ElementProperties) : ElementProperties :=
  if String.eqb key "__proto__" then props else setOwnProperty key v props.

Section WithExternals.
Context `{Externals}.

(** The value of a document-level property: [string | number]. *)
Inductive PropertyValue : Type :=
| VString (s : string)
| VNumber (n : JSNumber).

(** [String(value)] *)
Definition valueToString (v : PropertyValue) : string :=
  match v with VString s => s | VNumber n => numberToString n end.

(** [Number(value)] *)
Definition valueToNumber (v : PropertyValue) : JSNumber :=
  match v with VString s => Number s | VNumber n => n end.

(** Modelled from the spec: the nodes of section 3 (the declarations of
    [ast.ts] are missing).  A Property carries a name and a value; an
    Element its kind, properties, children, content and nesting depth; a
    Special its kind; an ErrorNode a message and the offending text. *)
#[warnings="-register-all"]
Inductive CTIWNode : Type :=
| Property (name : string) (value : PropertyValue) (location : SourceLocation)
| Element (elementType : string) (properties : ElementProperties)
    (children : list CTIWNode) (content : option string) (indent : nat)
    (location : SourceLocation)
| Special (specialType : string) (location : SourceLocation)
| ErrorNode (message raw : string) (location : SourceLocation).

(** Modelled from the spec: the metadata record of a Document, each field
    unset ([None]) until a declaration sets it, and the Document with its
    children, as the parser gives them to [createDocument]. *)
Record DocumentMetadata : Type := mkMetadata
  { title : option string;
    language : option string;
    fontSize : option JSNumber }.

Record DocumentNode : Type := createDocument
  { doc_children : list CTIWNode;
    metadata : DocumentMetadata;
    doc_location : SourceLocation }.

Definition isElementNode (n : CTIWNode) : bool :=
  match n with Element _ _ _ _ _ _ => true | _ => false end.

Definition isSpecialNode (n : CTIWNode) : bool :=
  match n with Special _ _ => true | _ => false end.

Definition nodeLocation (n : CTIWNode) : SourceLocation :=
  match n with
  | Property _ _ l => l
  | Element _ _ _ _ _ l => l
  | Special _ l => l
  | ErrorNode _ _ l => l
  end.

Definition nodeChildren (n : CTIWNode) : list CTIWNode :=
  match n with
  | Element _ _ ch _ _ _ => ch
  | _ => []
  end.

End WithExternals.

End Ast.

(** ** The parser ([src/lib/parser/parser.ts])

    The parser builds the tree by mutation: an element object is pushed on its
    parent's [children] array after the parent was itself attached, and the
    container stack holds references to objects already in the tree.  The
    embedding keeps those objects in a store, [heap], addressed by allocation
    order; [body], [children] and the stack frames hold addresses, and the
    tree is read off the store when [parse] returns. *)

Module Parser.
Import JS Ast.

Record ParseError : Type := mkParseError
  { message : string; line : nat }.

(** Document-level properties (go in metadata, not body). *)
Definition DOC_PROPERTIES : list string := ["language"; "font-size"].

Definition DOC_PROPERTIES_has (name : string) : bool :=
  existsb (String.eqb name) DOC_PROPERTIES.

(** [parseIndentation]: [(indent, content)] of a raw line. *)
Definition parseIndentation (line : string) : nat * string :=
  let spaceTrimmed := trimStart line in
  let dots := span (fun c => Ascii.eqb c ".") spaceTrimmed in
  let indent := dots / 2 in
  let content := trim (drop dots spaceTrimmed) in
  (indent, content).

(** [tokenizeElementLine]: the parts between spaces, trimmed, blanks
    dropped.  [current] is the part being collected. *)
Fixpoint tokenizeElementLine_from (current line : string) : list string :=
  match line with
  | EmptyString =>
      if truthy (trim current) then [trim current] else []
  | String char line' =>
      if Ascii.eqb char " " then
        (if truthy (trim current) then [trim current] else [])
        ++ tokenizeElementLine_from EmptyString line'
      else tokenizeElementLine_from (current +:+ String char EmptyString) line'
  end.

Definition tokenizeElementLine (line : string) : list string :=
  tokenizeElementLine_from EmptyString line.

(** [parseAttribute]: [id:name] or [color=FF0000]; [None] is [null]. *)
Definition parseAttribute (part0 : string) : option string * string :=
  let part := if endsWithChar "=" part0 then dropLast part0 else part0 in
  if includes ":" part then
    match split ":" part with
    | name :: value :: _ => (Some (trim name), trim value)
    | _ => (None, EmptyString)
    end
  else if includes "=" part then
    match split "=" part with
    | name :: value :: _ => (Some (trim name), trim value)
    | _ => (None, EmptyString)
    end
  else (None, EmptyString).

(** The loop [for (const part of propParts)] of [parseElement]. *)
Fixpoint addAttributes (propParts : list string) (properties : ElementProperties)
    : ElementProperties :=
  match propParts with
  | [] => properties
  | part :: rest =>
      match parseAttribute part with
      | (Some propName, propValue) =>
          if truthy propName
          then addAttributes rest (setProperty propName propValue properties)
          else addAttributes rest properties
      | (None, _) => addAttributes rest properties
      end
  end.

(** The search for the end of the content in [parseElement]: the first [=]
    that ends the text or is followed by a space. *)
Fixpoint findContentEnd (remaining : string) : option nat :=
  match remaining with
  | EmptyString => None
  | String c rest =>
      if Ascii.eqb c "=" &&
         match rest with
         | EmptyString => true
         | String d _ => Ascii.eqb d " "
         end
      then Some 0
      else option_map S (findContentEnd rest)
  end.

(** The number of lines the loop of [skipEmptyLines] steps over. *)
Fixpoint blankPrefix (rest : list string) : nat :=
  match rest with
  | [] => 0
  | l :: rest' => if String.eqb (trim l) EmptyString then S (blankPrefix rest') else 0
  end.

Section WithExternals.
Context `{Externals}.

(** A node object as [parseStatement] creates it; [children] holds the
    addresses of the objects pushed on it. *)
Inductive NodeObj : Type :=
| PropertyObj (name : string) (value : PropertyValue) (location : SourceLocation)
| ElementObj (elementType : string) (properties : ElementProperties)
    (children : list nat) (content : option string) (indent : nat)
    (location : SourceLocation)
| SpecialObj (specialType : string) (location : SourceLocation).

(** Modelled from the spec: [createElement] of the missing [ast.ts]; the
    parser passes no children, and an Element starts with none. *)
Definition createElement (elementType : string) (properties : ElementProperties)
    (content : option string) (indent : nat) (location : SourceLocation) : NodeObj :=
  ElementObj elementType properties [] content indent location.

(** Modelled from the spec: [createSpecial] and [createProperty] of the
    missing [ast.ts], which keep what they are given. *)
Definition createSpecial (specialType : string) (location : SourceLocation) : NodeObj :=
  SpecialObj specialType location.

Definition createProperty (name : string) (value : PropertyValue)
    (location : SourceLocation) : NodeObj :=
  PropertyObj name value location.

(** The fields of [class Parser], and the store of node objects. *)
Record Parser : Type := mkParser
  { lines : list string;
    currentLine : nat;
    errors : list ParseError;
    metadata : DocumentMetadata;
    body : list nat;
    heap : list NodeObj }.

(** [new Parser(source)] *)
Definition new (src : string) : Parser :=
  {| lines := split LF src; currentLine := 0; errors := [];
     metadata := mkMetadata None None None; body := []; heap := [] |}.

Definition setCurrentLine (n : nat) (p : Parser) : Parser :=
  {| lines := lines p; currentLine := n; errors := errors p;
     metadata := metadata p; body := body p; heap := heap p |}.

Definition setMetadata (m : DocumentMetadata) (p : Parser) : Parser :=
  {| lines := lines p; currentLine := currentLine p; errors := errors p;
     metadata := m; body := body p; heap := heap p |}.

(** [addError(message, line)] *)
Definition addErrorAt (msg : string) (l : nat) (p : Parser) : Parser :=
  {| lines := lines p; currentLine := currentLine p;
     errors := errors p ++ [mkParseError msg l];
     metadata := metadata p; body := body p; heap := heap p |}.

(** [addError(message)]: the line defaults to [currentLine + 1]. *)
Definition addError (msg : string) (p : Parser) : Parser :=
  addErrorAt msg (currentLine p + 1) p.

Definition skipEmptyLines (p : Parser) : Parser :=
  setCurrentLine
    (currentLine p + blankPrefix (List.skipn (currentLine p) (lines p))) p.

(** [parseHeader] and [parseFooter]: the expected marker differs. *)
Definition parseMarker (marker : string) (p0 : Parser) : bool * Parser :=
  let p := skipEmptyLines p0 in
  match lines p !! currentLine p with
  | None => (false, p)
  | Some l =>
      if String.eqb (trim l) marker
      then (true, setCurrentLine (currentLine p + 1) p)
      else (false, p)
  end.

Definition parseHeader (p : Parser) : bool * Parser := parseMarker "=CTIW=" p.
Definition parseFooter (p : Parser) : bool * Parser := parseMarker "==CTIW==" p.

(** The test of [/^=\((\w+)\)=$/]: the captured word, if the line matches. *)
Definition isWordChar (c : ascii) : bool :=
  Lexer.isAlpha c || Lexer.isDigit c || Ascii.eqb c "_".

Definition matchSpecial (line : string) : option string :=
  match line with
  | String c1 (String c2 rest) =>
      if Ascii.eqb c1 "=" && Ascii.eqb c2 "(" then
        let n := span isWordChar rest in
        if (0 <? n) && String.eqb (drop n rest) ")=" then Some (take n rest) else None
      else None
  | _ => None
  end.

Definition parseSpecialElement (line : string) (lineNumber : nat) (p : Parser)
    : option NodeObj * Parser :=
  match matchSpecial line with
  | Some w =>
      if String.eqb (toLowerCase w) "time"
      then (Some (createSpecial "time"
                    (createLocation lineNumber 1 lineNumber (String.length line))), p)
      else (None, addErrorAt "I don't know this special element" lineNumber p)
  | None => (None, addErrorAt "I don't know this special element" lineNumber p)
  end.

(** The value of a declaration: up to the first [=], trimmed. *)
Definition valueBeforeEquals (remaining : string) : string :=
  match indexOf "=" remaining with
  | Some valueEnd => trim (take valueEnd remaining)
  | None => trim remaining
  end.

Definition parseDocProperty (name remaining : string) (lineNumber : nat) : NodeObj :=
  let value := valueBeforeEquals remaining in
  let numVal := Number value in
  let value' :=
    if negb (isNaN numVal) && negb (String.eqb value EmptyString)
    then VNumber numVal else VString value in
  createProperty name value'
    (createLocation lineNumber 1 lineNumber (String.length remaining)).

Definition parseElement (elementType remaining : string) (lineNumber : nat) : NodeObj :=
  if String.eqb remaining EmptyString then
    createElement elementType [] None 0 (createLocation lineNumber 1 lineNumber 1)
  else if startsWith " " remaining then
    let propsStr := trim remaining in
    let properties :=
      if truthy propsStr then addAttributes (tokenizeElementLine propsStr) [] else [] in
    createElement elementType properties None 0
      (createLocation lineNumber 1 lineNumber (String.length remaining))
  else
    match findContentEnd remaining with
    | Some contentEnd =>
        let content := trim (take contentEnd remaining) in
        let propsStr := trim (drop (contentEnd + 1) remaining) in
        let properties :=
          if truthy propsStr then addAttributes (tokenizeElementLine propsStr) [] else [] in
        createElement elementType properties (Some content) 0
          (createLocation lineNumber 1 lineNumber (String.length remaining))
    | None =>
        createElement elementType [] (Some (trim remaining)) 0
          (createLocation lineNumber 1 lineNumber (String.length remaining))
    end.

Definition unknownNameMessage (name : string) : string :=
  "Hmm, I don't know what '" +:+ name +:+ "' is. Try: " +:+ join ", " ELEMENT_TYPES.

(** [!this.metadata.title]: unset, or set to the empty string. *)
Definition titleUnset (m : DocumentMetadata) : bool :=
  match title m with
  | None => true
  | Some t => negb (truthy t)
  end.

Definition parsePropertyOrElement (line : string) (lineNumber : nat) (p : Parser)
    : option NodeObj * Parser :=
  let rest := drop 1 line in
  match indexOf "=" rest with
  | None => (None, addErrorAt "Expected = after the name" lineNumber p)
  | Some nameEnd =>
      let name := toLowerCase (trim (take nameEnd rest)) in
      let remaining := drop (nameEnd + 1) rest in
      if DOC_PROPERTIES_has name then
        (Some (parseDocProperty name remaining lineNumber), p)
      else if String.eqb name "title" then
        let p' :=
          if titleUnset (metadata p)
          then setMetadata
                 (mkMetadata (Some (valueBeforeEquals remaining))
                    (language (metadata p)) (fontSize (metadata p))) p
          else p in
        (Some (parseElement "title" remaining lineNumber), p')
      else if isValidElementType name then
        (Some (parseElement name remaining lineNumber), p)
      else (None, addErrorAt (unknownNameMessage name) lineNumber p)
  end.

Definition parseStatement (line : string) (lineNumber : nat) (p : Parser)
    : option NodeObj * Parser :=
  if negb (startsWith "=" line) then
    (None, addErrorAt "Hmm, I don't understand this line. Lines should start with ="
             lineNumber p)
  else if startsWith "=(" line && includes ")=" line then
    parseSpecialElement line lineNumber p
  else parsePropertyOrElement line lineNumber p.

(** A frame of [containerStack]: the element, by address, and its indent.
    The top of the stack is the head of the list. *)
Record Frame : Type := mkFrame { element : nat; frame_indent : nat }.

Definition elementTypeAt (h : list NodeObj) (a : nat) : option string :=
  match h !! a with
  | Some (ElementObj ty _ _ _ _ _) => Some ty
  | _ => None
  end.

(** The inner [while] of [parseBody]: frames at the same or a deeper
    indent are popped unless their element is a divide. *)
Fixpoint popNonDivide (h : list NodeObj) (indent : nat) (stack : list Frame)
    : list Frame :=
  match stack with
  | [] => []
  | top :: below =>
      if indent <=? frame_indent top then
        if bool_decide (elementTypeAt h (element top) = Some "divide")
        then stack
        else popNonDivide h indent below
      else stack
  end.

(** [parent.children.push(child)] on the object at address [parent]. *)
Definition pushChild (child : nat) (o : NodeObj) : NodeObj :=
  match o with
  | ElementObj ty props ch content ind loc =>
      ElementObj ty props (ch ++ [child]) content ind loc
  | other => other
  end.

Definition isDivide (o : NodeObj) : bool :=
  match o with
  | ElementObj ty _ _ _ _ _ => String.eqb ty "divide"
  | _ => false
  end.

(** The branch of [parseBody] for a parsed Property: metadata only. *)
Definition storeProperty (name : string) (value : PropertyValue)
    (m : DocumentMetadata) : DocumentMetadata :=
  if String.eqb name "language" then
    mkMetadata (title m) (Some (valueToString value)) (fontSize m)
  else if String.eqb name "font-size" then
    mkMetadata (title m) (language m) (Some (valueToNumber value))
  else if String.eqb name "title" then
    mkMetadata (Some (valueToString value)) (language m) (fontSize m)
  else m.

(** The branch for a parsed Element or Special: the object gets the next
    address, is pushed on the innermost open container when there is one
    and [indent > 0] and on [body] otherwise, and opens a frame when it is
    a divide. *)
Definition attach (parsed : NodeObj) (indent : nat) (p : Parser) (stack : list Frame)
    : Parser * list Frame :=
  let addr := length (heap p) in
  let h1 := heap p ++ [parsed] in
  let p1 :=
    match stack with
    | top :: _ =>
        if 0 <? indent then
          {| lines := lines p; currentLine := currentLine p; errors := errors p;
             metadata := metadata p; body := body p;
             heap := alter (pushChild addr) (element top) h1 |}
        else
          {| lines := lines p; currentLine := currentLine p; errors := errors p;
             metadata := metadata p; body := body p ++ [addr]; heap := h1 |}
    | [] =>
        {| lines := lines p; currentLine := currentLine p; errors := errors p;
           metadata := metadata p; body := body p ++ [addr]; heap := h1 |}
    end in
  (p1, if isDivide parsed then mkFrame addr indent :: stack else stack).

(** One turn of the [while] of [parseBody] on the line [rawLine] at
    [currentLine]; [None] is the [break] at the footer. *)
Definition parseBody_step (rawLine : string) (p : Parser) (stack : list Frame)
    : option (Parser * list Frame) :=
  let trimmedLine := trim rawLine in
  if String.eqb trimmedLine "==CTIW==" then None
  else if String.eqb trimmedLine EmptyString then
    Some (setCurrentLine (currentLine p + 1) p, stack)
  else
    let '(indent, content) := parseIndentation rawLine in
    if String.eqb content "=divide=" && (0 <? length stack) then
      Some (setCurrentLine (currentLine p + 1) p, List.tail stack)
    else
      let '(parsed, p1) := parseStatement content (currentLine p + 1) p in
      let '(p2, stack2) :=
        match parsed with
        | None => (p1, stack)
        | Some node =>
            let stack1 := popNonDivide (heap p1) indent stack in
            match node with
            | PropertyObj name value _ =>
                (setMetadata (storeProperty name value (metadata p1)) p1, stack1)
            | _ => attach node indent p1 stack1
            end
        end in
      Some (setCurrentLine (currentLine p2 + 1) p2, stack2).

(** The [while] of [parseBody]; [rest] is [lines.slice(currentLine)], and
    every turn that does not break moves [currentLine] by one. *)
Fixpoint parseBody_loop (rest : list string) (p : Parser) (stack : list Frame)
    : Parser * list Frame :=
  match rest with
  | [] => (p, stack)
  | rawLine :: rest' =>
      match parseBody_step rawLine p stack with
      | None => (p, stack)
      | Some (p', stack') => parseBody_loop rest' p' stack'
      end
  end.

Definition parseBody (p : Parser) : Parser :=
  fst (parseBody_loop (List.skipn (currentLine p) (lines p)) p []).

(** The container stack when [parseBody] returns: the frames still open. *)
Definition openContainers (p : Parser) : list Frame :=
  snd (parseBody_loop (List.skipn (currentLine p) (lines p)) p []).

(** Reading the tree off the store.  The objects at addresses [base],
    [base + 1], ... are [objs]; a child is always allocated after its
    parent, so its tree is among those of the later objects. *)
Definition danglingNode : CTIWNode :=
  ErrorNode "dangling reference" EmptyString (createLocation 0 0 0 0).

Fixpoint reifyFrom (base : nat) (objs : list NodeObj) : list CTIWNode :=
  match objs with
  | [] => []
  | o :: rest =>
      let later := reifyFrom (S base) rest in
      let child (a : nat) : CTIWNode :=
        if base <? a then List.nth (a - S base) later danglingNode
        else danglingNode in
      match o with
      | PropertyObj name value loc => Ast.Property name value loc
      | ElementObj ty props ch content ind loc =>
          Element ty props (List.map child ch) content ind loc
      | SpecialObj ty loc => Special ty loc
      end :: later
  end.

Definition reify (h : list NodeObj) (a : nat) : CTIWNode :=
  List.nth a (reifyFrom 0 h) danglingNode.

Record ParseResult : Type := mkParseResult
  { document : DocumentNode; result_errors : list ParseError }.

(** The method [parse]. *)
Definition Parser_parse (p0 : Parser) : ParseResult * Parser :=
  let '(okHeader, p1) := parseHeader p0 in
  let p2 := if okHeader then p1
            else addError "Oops! Your CTIW code needs to start with =CTIW=" p1 in
  let p3 := parseBody p2 in
  let '(okFooter, p4) := parseFooter p3 in
  let p5 := if okFooter then p4
            else addError "Don't forget to end your code with ==CTIW==" p4 in
  (mkParseResult
     (createDocument (List.map (reify (heap p5)) (body p5)) (metadata p5)
        (createLocation 1 1 (length (lines p5)) 1))
     (errors p5),
   p5).

(** The exported [parse]: a new [Parser] for every call. *)
Definition parse (src : string) : ParseResult :=
  fst (Parser_parse (new src)).

End WithExternals.

End Parser.

(** ** The code generator ([src/lib/parser/codegen.ts]) *)

Module Codegen.
Import JS Ast.

(** A one-character string holding the double quote. *)
Definition q : string := String DQUOTE EmptyString.

Definition CSS_PROPERTY_MAP : list (string * string) :=
  [ ("color", "background-color"); ("in", "text-align"); ("size", "width");
    ("background", "background"); ("background-color", "background-color");
    ("border", "border"); ("border-radius", "border-radius");
    ("font-size", "font-size"); ("font-family", "font-family");
    ("font-weight", "font-weight"); ("text-align", "text-align");
    ("width", "width"); ("height", "height"); ("margin", "margin");
    ("margin-top", "margin-top"); ("margin-bottom", "margin-bottom");
    ("margin-left", "margin-left"); ("margin-right", "margin-right");
    ("padding", "padding"); ("padding-top", "padding-top");
    ("padding-bottom", "padding-bottom"); ("padding-left", "padding-left");
    ("padding-right", "padding-right"); ("display", "display"); ("flex", "flex");
    ("flex-direction", "flex-direction"); ("justify-content", "justify-content");
    ("align-items", "align-items"); ("gap", "gap"); ("grid", "grid");
    ("position", "position"); ("top", "top"); ("left", "left"); ("right", "right");
    ("bottom", "bottom"); ("z-index", "z-index"); ("opacity", "opacity");
    ("transform", "transform"); ("transition", "transition"); ("cursor", "cursor");
    ("overflow", "overflow"); ("box-shadow", "box-shadow");
    ("text-decoration", "text-decoration"); ("line-height", "line-height");
    ("letter-spacing", "letter-spacing"); ("max-width", "max-width");
    ("min-width", "min-width"); ("max-height", "max-height");
    ("min-height", "min-height") ].

Definition HTML_ATTRIBUTES : list string :=
  [ "id"; "class"; "href"; "src"; "alt"; "title"; "type"; "name"; "value";
    "placeholder"; "disabled"; "readonly"; "checked"; "selected";
    "target"; "rel"; "download"; "data"; "role"; "aria-label";
    "width"; "height";
    "autoplay"; "controls"; "loop"; "muted"; "poster";
    "action"; "method"; "enctype";
    "colspan"; "rowspan"; "scope";
    "min"; "max"; "step"; "pattern"; "required"; "maxlength"; "minlength";
    "for"; "tabindex"; "autofocus"; "autocomplete" ].

Definition SELF_CLOSING_ELEMENTS : list string :=
  [ "area"; "base"; "br"; "col"; "embed"; "hr"; "img"; "input";
    "link"; "meta"; "param"; "source"; "track"; "wbr" ].

Definition ELEMENT_TAG_MAP : list (string * string) :=
  [ ("title", "h1"); ("text", "p"); ("divide", "div"); ("line", "br");
    ("heading", "h2"); ("subheading", "h3") ].

Definition LANGUAGE_MAP : list (string * string) :=
  [ ("english", "en"); ("spanish", "es"); ("french", "fr"); ("german", "de");
    ("chinese", "zh"); ("japanese", "ja"); ("korean", "ko");
    ("portuguese", "pt"); ("italian", "it"); ("russian", "ru") ].

(** [set.has(x)] and [array.includes(x)] *)
Definition has (x : string) (l : list string) : bool := existsb (String.eqb x) l.

(** [table[key] || fallback] *)
Definition lookupOr (table : list (string * string)) (key fallback : string) : string :=
  match getProperty key table with
  | Some v => if truthy v then v else fallback
  | None => fallback
  end.

(** [text.replace(/c/g, by)] for a one-character pattern. *)
Fixpoint replaceAll (c : ascii) (by_ : string) (text : string) : string :=
  match text with
  | EmptyString => EmptyString
  | String d rest =>
      if Ascii.eqb d c then by_ +:+ replaceAll c by_ rest
      else String d (replaceAll c by_ rest)
  end.

Definition escapeHTML (text : string) : string :=
  replaceAll "'" "&#39;"
    (replaceAll DQUOTE "&quot;"
       (replaceAll ">" "&gt;"
          (replaceAll "<" "&lt;"
             (replaceAll "&" "&amp;" text)))).

Definition isHexColor (value : string) : bool :=
  (String.length value =? 6) && all Lexer.isHexDigit value.

Definition pixelProps : list string :=
  [ "font-size"; "width"; "height"; "margin"; "padding"; "gap";
    "top"; "left"; "right"; "bottom"; "border-radius"; "size";
    "margin-top"; "margin-bottom"; "margin-left"; "margin-right";
    "padding-top"; "padding-bottom"; "padding-left"; "padding-right";
    "max-width"; "min-width"; "max-height"; "min-height" ].

(** The test of [/^\d+$/]. *)
Definition allDigits (s : string) : bool :=
  (0 <? String.length s) && all Lexer.isDigit s.

(** The test of [/^[a-z][a-z0-9-]*$/i]. *)
Definition looksLikeCSSProperty (s : string) : bool :=
  match s with
  | EmptyString => false
  | String c rest =>
      Lexer.isAlpha c
      && all (fun d => Lexer.isAlpha d || Lexer.isDigit d || Ascii.eqb d "-") rest
  end.

Definition formatCSSValue (propName strValue : string) : string :=
  if (includes "color" propName || String.eqb propName "background")
     && isHexColor strValue
  then "#" +:+ strValue
  else if has propName pixelProps && allDigits strValue
  then strValue +:+ "px"
  else strValue.

(** The body of the [for] loops of [generateElementCSS] and
    [generateInlineStyles]: the declarations one property contributes. *)
Definition styleOf (key value : string) : list string :=
  if has key HTML_ATTRIBUTES then []
  else if String.eqb key "color" && isHexColor value then
    ["background-color: #" +:+ value]
  else if String.eqb key "outline" then
    if String.eqb value "visible" then ["border: 1px solid black"]
    else if String.eqb value "invisible" then ["border: none"]
    else []
  else if String.eqb key "in" then
    if String.eqb value "middle" || String.eqb value "center" then ["text-align: center"]
    else if String.eqb value "left" then ["text-align: left"]
    else if String.eqb value "right" then ["text-align: right"]
    else []
  else
    let cssProperty := lookupOr CSS_PROPERTY_MAP key key in
    if looksLikeCSSProperty cssProperty
    then [cssProperty +:+ ": " +:+ formatCSSValue key value]
    else [].

Definition stylesOf (props : ElementProperties) : list string :=
  List.concat (List.map (fun kv => styleOf (fst kv) (snd kv)) props).

(** [props.id], when it is truthy. *)
Definition idOf (props : ElementProperties) : option string :=
  match getProperty "id" props with
  | Some v => if truthy v then Some v else None
  | None => None
  end.

Definition generateElementCSS_props (props : ElementProperties) : string :=
  match idOf props with
  | None => EmptyString
  | Some id =>
      match stylesOf props with
      | [] => EmptyString
      | styles => "#" +:+ id +:+ " { " +:+ join "; " styles +:+ "; }"
      end
  end.

Definition generateAttributes (props : ElementProperties) : string :=
  let attrs :=
    List.concat
      (List.map
         (fun kv =>
            if has (fst kv) HTML_ATTRIBUTES
            then [fst kv +:+ "=" +:+ q +:+ escapeHTML (snd kv) +:+ q]
            else [])
         props) in
  match attrs with
  | [] => EmptyString
  | _ => " " +:+ join " " attrs
  end.

Definition generateInlineStyles (props : ElementProperties) : string :=
  match stylesOf props with
  | [] => EmptyString
  | styles => " style=" +:+ q +:+ join "; " styles +:+ q
  end.

Definition generateSpecialElement (specialType : string) : string :=
  if String.eqb specialType "time" then
    "<span class=" +:+ q +:+ "ctiw-time" +:+ q +:+ "></span>"
  else "<!-- Unknown special: " +:+ specialType +:+ " -->".

Definition generateTimeScript : string :=
  "
  <script>
    function updateTime() {
      const timeElements = document.querySelectorAll('.ctiw-time');
      const now = new Date().toLocaleTimeString();
      timeElements.forEach(el => el.textContent = now);
    }
    updateTime();
    setInterval(updateTime, 1000);
  </script>".

Definition newline : string := String LF EmptyString.

Section WithExternals.
Context `{Externals}.

Definition generateElementCSS (node : CTIWNode) : string :=
  match node with
  | Element _ props _ _ _ _ => generateElementCSS_props props
  | _ => EmptyString
  end.

(** The rules [processNode] pushes for a node and its descendants. *)
Fixpoint cssRulesOf (node : CTIWNode) : list string :=
  match node with
  | Element _ props children _ _ _ =>
      (let css := generateElementCSS_props props in
       if truthy css then [css] else [])
      ++ List.concat (List.map cssRulesOf children)
  | _ => []
  end.

Definition generateCSS (nodes : list CTIWNode) : string :=
  join (newline +:+ "    ") (List.concat (List.map cssRulesOf nodes)).

Definition isElementOrSpecial (n : CTIWNode) : bool :=
  isElementNode n || isSpecialNode n.

(** [generateElement]; the HTML of [validChildren] is collected over
    [children], keeping the nodes the filter keeps. *)
Fixpoint generateElement (node : CTIWNode) (indent : string) : string :=
  match node with
  | Special specialType _ => generateSpecialElement specialType
  | Element elementType props children elementContent _ _ =>
      let attrs := generateAttributes props in
      let inlineStyles :=
        match idOf props with
        | None => generateInlineStyles props
        | Some _ => EmptyString
        end in
      let content :=
        match elementContent with
        | Some c => if truthy c then escapeHTML c else EmptyString
        | None => EmptyString
        end in
      let placeholder :=
        if truthy content then " placeholder=" +:+ q +:+ content +:+ q
        else EmptyString in
      let idAttr :=
        match idOf props with
        | Some id => " id=" +:+ q +:+ id +:+ q
        | None => EmptyString
        end in
      if String.eqb elementType "password" then
        "<input type=" +:+ q +:+ "password" +:+ q
        +:+ idAttr +:+ placeholder +:+ inlineStyles +:+ ">"
      else if String.eqb elementType "input" then
        "<input type=" +:+ q +:+ "text" +:+ q
        +:+ idAttr +:+ placeholder +:+ inlineStyles +:+ ">"
      else if String.eqb elementType "img" then
        let src :=
          if truthy content then content
          else lookupOr props "src" EmptyString in
        let alt := lookupOr props "alt" EmptyString in
        "<img src=" +:+ q +:+ escapeHTML src +:+ q
        +:+ " alt=" +:+ q +:+ escapeHTML alt +:+ q
        +:+ idAttr +:+ inlineStyles +:+ ">"
      else if String.eqb elementType "link" then
        let href := lookupOr props "href" "#" in
        "<a href=" +:+ q +:+ escapeHTML href +:+ q
        +:+ idAttr +:+ inlineStyles +:+ ">" +:+ content +:+ "</a>"
      else
        let tag := lookupOr ELEMENT_TAG_MAP elementType elementType in
        if has tag SELF_CLOSING_ELEMENTS then
          "<" +:+ tag +:+ attrs +:+ inlineStyles +:+ ">"
        else
          let validChildren := List.filter isElementOrSpecial children in
          match validChildren with
          | [] =>
              "<" +:+ tag +:+ attrs +:+ inlineStyles +:+ ">" +:+ content
              +:+ "</" +:+ tag +:+ ">"
          | _ =>
              let childrenHTML :=
                join (newline +:+ indent +:+ "  ")
                  (List.concat
                     (List.map
                        (fun child =>
                           if isElementOrSpecial child
                           then [generateElement child (indent +:+ "  ")]
                           else [])
                        children)) in
              "<" +:+ tag +:+ attrs +:+ inlineStyles +:+ ">" +:+ newline
              +:+ indent +:+ "  " +:+ childrenHTML +:+ newline
              +:+ indent +:+ "</" +:+ tag +:+ ">"
          end
  | _ => EmptyString
  end.

Fixpoint hasTimeElement_node (node : CTIWNode) : bool :=
  match node with
  | Special specialType _ => String.eqb specialType "time"
  | Element _ _ children _ _ _ => existsb hasTimeElement_node children
  | _ => false
  end.

Definition hasTimeElement (nodes : list CTIWNode) : bool :=
  existsb hasTimeElement_node nodes.

Definition generateHTML (doc : DocumentNode) : string :=
  let meta := Ast.metadata doc in
  let pageTitle :=
    match title meta with
    | Some t => if truthy t then t else "CTIW Page"
    | None => "CTIW Page"
    end in
  let language :=
    match Ast.language meta with
    | Some l => if truthy l then lookupOr LANGUAGE_MAP (toLowerCase l) l else EmptyString
    | None => EmptyString
    end in
  let fontSize :=
    match Ast.fontSize meta with
    | Some n =>
        if numberTruthy n then "font-size: " +:+ numberToString n +:+ "px;"
        else EmptyString
    | None => EmptyString
    end in
  let bodyNodes := List.filter isElementOrSpecial (doc_children doc) in
  let elementCSS := generateCSS bodyNodes in
  let bodyContent :=
    join newline (List.map (fun node => "  " +:+ generateElement node "  ") bodyNodes) in
  let needsTimeScript := hasTimeElement bodyNodes in
  let langAttr :=
    if truthy language then " lang=" +:+ q +:+ language +:+ q else EmptyString in
  "<!DOCTYPE html>" +:+ newline
  +:+ "<html" +:+ langAttr +:+ ">" +:+ newline
  +:+ "<head>" +:+ newline
  +:+ "  <meta charset=" +:+ q +:+ "utf-8" +:+ q +:+ ">" +:+ newline
  +:+ "  <title>" +:+ escapeHTML pageTitle +:+ "</title>" +:+ newline
  +:+ "  <style>" +:+ newline
  +:+ "    body { font-family: sans-serif; padding: 20px;"
  +:+ (if truthy fontSize then " " +:+ fontSize else EmptyString) +:+ " }" +:+ newline
  +:+ "    " +:+ elementCSS +:+ newline
  +:+ "  </style>" +:+ newline
  +:+ "</head>" +:+ newline
  +:+ "<body>" +:+ newline
  +:+ bodyContent +:+ (if needsTimeScript then generateTimeScript else EmptyString)
  +:+ newline
  +:+ "</body>" +:+ newline
  +:+ "</html>".

End WithExternals.

End Codegen.

(** ** An instance of the externals, for running the sources on examples *)

Module Base.
Import JS.

Definition digitValue (c : ascii) : N := N.of_nat (code c - 48).

Fixpoint decimalValue (acc : N) (s : string) : N :=
  match s with
  | EmptyString => acc
  | String c s' => decimalValue (10 * acc + digitValue c)%N s'
  end.

(** [Number(text)] on the empty text and on unsigned decimal literals, where
    it is exact below 2^53; any other text reads as NaN ([None]) here.  The
    examples below hold no other number. *)
Definition decimalNumber (s : string) : option N :=
  if String.eqb s EmptyString then Some 0%N
  else if all Lexer.isDigit s then Some (decimalValue 0 s)
  else None.

Definition decimalToString (n : option N) : string :=
  match n with
  | Some v => NilZero.string_of_uint (N.to_uint v)
  | None => "NaN"
  end.

Definition decimalTruthy (n : option N) : bool :=
  match n with
  | Some v => negb (N.eqb v 0)
  | None => false
  end.

Definition decimalIsNaN (n : option N) : bool :=
  match n with
  | Some _ => false
  | None => true
  end.

(** Modelled from the spec: the element kinds of the base grammar, which
    section 3 and the glossary name, for [ELEMENT_TYPES] of the missing
    [ast.ts]. *)
Definition baseElementTypes : list string :=
  ["title"; "text"; "line"; "button"; "password"; "input"; "divide"; "img"; "link"].

Definition isBaseElementType (name : string) : bool :=
  existsb (String.eqb name) baseElementTypes.

Definition externals : Externals :=
  {| JSNumber := option N;
     Number := decimalNumber;
     isNaN := decimalIsNaN;
     numberToString := decimalToString;
     numberTruthy := decimalTruthy;
     ELEMENT_TYPES := baseElementTypes;
     isValidElementType := isBaseElementType |}.

(** The pipeline on the base grammar. *)
Definition parse (src : string) : @Parser.ParseResult externals :=
  @Parser.parse externals src.

Definition generateHTML (doc : @Ast.DocumentNode externals) : string :=
  @Codegen.generateHTML externals doc.

Definition compile (src : string) : string :=
  generateHTML (Parser.document (parse src)).

End Base.

(** ** Notions used to state the properties of the parser and the generator *)

Module Notions.
Import JS Ast Parser.

Section WithExternals.
Context `{Externals}.

(** A node and all the nodes below it. *)
Fixpoint allNodes (n : CTIWNode) : list CTIWNode :=
  n :: match n with
       | Element _ _ children _ _ _ => List.concat (List.map allNodes children)
       | _ => []
       end.

(** Every node of a document. *)
Definition documentNodes (d : DocumentNode) : list CTIWNode :=
  List.concat (List.map allNodes (doc_children d)).

Definition isDivideElement (n : CTIWNode) : bool :=
  match n with
  | Element ty _ _ _ _ _ => String.eqb ty "divide"
  | _ => false
  end.

Definition isTitleElement (n : CTIWNode) : bool :=
  match n with
  | Element ty _ _ _ _ _ => String.eqb ty "title"
  | _ => false
  end.

(** The indentation level of line [lineNumber] (counted from 1): the leading
    dots divided by two, as [parseIndentation] computes it. *)
Definition depthOfLine (ls : list string) (lineNumber : nat) : nat :=
  match ls !! (lineNumber - 1) with
  | Some l => fst (parseIndentation l)
  | None => 0
  end.

(** The nesting depth of a node of the document parsed from [src]: the
    indentation level of the line it was read from. *)
Definition nestingDepth (src : string) (n : CTIWNode) : nat :=
  depthOfLine (split LF src) (startLine (nodeLocation n)).

Definition objChildren (o : NodeObj) : list nat :=
  match o with
  | ElementObj _ _ ch _ _ _ => ch
  | _ => []
  end.

Definition objLocation (o : NodeObj) : SourceLocation :=
  match o with
  | PropertyObj _ _ l => l
  | ElementObj _ _ _ _ _ l => l
  | SpecialObj _ l => l
  end.

(** Every frame of the container stack refers to a divide element. *)
Definition stackAllDivide (h : list NodeObj) (stack : list Frame) : Prop :=
  Forall (fun f => elementTypeAt h (element f) = Some "divide") stack.

(** What [parseBody] maintains about the store: only divides have children;
    a child is allocated after its parent; a child was read from a line of
    positive indentation level; [body] holds allocated addresses. *)
Record heapInv (ls : list string) (h : list NodeObj) (bd : list nat) : Prop :=
  mkHeapInv
    { inv_children_divide :
        forall a o, h !! a = Some o -> objChildren o <> [] -> isDivide o = true;
      inv_forward :
        forall a o c, h !! a = Some o -> c ∈ objChildren o -> a < c < length h;
      inv_child_depth :
        forall a o c oc, h !! a = Some o -> c ∈ objChildren o -> h !! c = Some oc ->
                         0 < depthOfLine ls (startLine (objLocation oc));
      inv_body : Forall (fun a => a < length h) bd }.

(** What [parseStatement] returns: a node without children whose location
    starts at line [ln]; a Property only for a name of [DOC_PROPERTIES]. *)
Definition freshNode (ln : nat) (node : NodeObj) : Prop :=
  objChildren node = [] /\ startLine (objLocation node) = ln
  /\ match node with
     | PropertyObj name _ _ => DOC_PROPERTIES_has name = true
     | _ => True
     end.

(** The tree [t] was read off the object [o], its children being the trees
    [trees] hold at the addresses [o] lists. *)
Definition readOff (base : nat) (trees : list CTIWNode) (o : NodeObj) (t : CTIWNode)
    : Prop :=
  nodeLocation t = objLocation o
  /\ isDivideElement t = isDivide o
  /\ nodeChildren t
     = List.map (fun c => List.nth (c - base) trees danglingNode) (objChildren o).

(** The parser object [parse] ends with. *)
Definition finalParser (src : string) : Parser := snd (Parser_parse (new src)).

End WithExternals.


End Notions.

(** ** Example sources *)

Module Examples.
Import JS Ast Parser Notions.

(** A divide at indentation level 1 and a text at the same level. *)
Definition sameLevelSource : string :=
  "=CTIW=
..=divide= id:a=
..=text=hi=
==CTIW==".

Definition sameLevelText : @CTIWNode Base.externals :=
  Element "text" [] [] (Some "hi") 0 (createLocation 3 1 3 3).

Definition sameLevelDivide : @CTIWNode Base.externals :=
  Element "divide" [("id", "a")] [sameLevelText] None 0 (createLocation 2 1 2 6).

(** A divide that is opened and never closed, and a lone bare [=divide=]. *)
Definition unclosedSource : string :=
  "=CTIW=
=divide= id:a=
..=text=hi=
==CTIW==".

Definition loneDivideSource : string :=
  "=CTIW=
=divide=
==CTIW==".

End Examples.

(** ** Title declarations *)

Module Titles.
Import JS Ast Parser Notions.

(** A text without [=] and without a newline: what a declaration can hold
    between its markers. *)
Definition plainText (s : string) : bool :=
  all (fun c => negb (Ascii.eqb c "=") && negb (Ascii.eqb c LF)) s.


End Titles.

(** ** Notions and examples for the generator *)

Module GeneratorExamples.
Import JS Ast Parser Codegen Notions.

(** The kinds [generateElement] has a case of its own for. *)
Definition bespokeKinds : list string := ["password"; "input"; "img"; "link"].


Definition noLocation : SourceLocation := createLocation 1 1 1 1.

(** An id that closes the attribute and opens an element of its own. *)
Definition hostileId : string := q +:+ "><b>".

Definition hostileIdSource : string :=
  "=CTIW=" +:+ newline +:+ "=password= id:" +:+ hostileId +:+ "=" +:+ newline
  +:+ "==CTIW==".

Definition passwordWithId : @CTIWNode Base.externals :=
  Element "password" [("id", hostileId)] [] None 0 noLocation.

Definition textWithId : @CTIWNode Base.externals :=
  Element "text" [("id", hostileId)] [] None 0 noLocation.


End GeneratorExamples.

(** ** The cases of the repository's tests that are replayed below *)

Module TestCases.
Import JS Ast Parser Codegen Notions GeneratorExamples.

(** A character that is none of the markup characters [< > ' ] and the
    double quote. *)
Definition isNotMarkup (c : ascii) : bool :=
  negb (Ascii.eqb c "<") && negb (Ascii.eqb c ">")
  && negb (Ascii.eqb c DQUOTE) && negb (Ascii.eqb c "'").

(** The example of the language reference, section Compiles To. *)
Definition redBoxSource : string :=
  "=CTIW=
=title=Hello=
=divide= id:box= color=FF0000=
.. =text=Red box!=
=divide=
==CTIW==".

Definition element (kind : string) (props : ElementProperties)
    (children : list (@CTIWNode Base.externals)) (content : option string)
    : @CTIWNode Base.externals :=
  Element kind props children content 0 noLocation.

(** The complete example of the language reference. *)
Definition completeExample : string :=
  "=CTIW=
=title=My First Page=
=language=english=
=font-size=20=

=divide= id:header= outline=visible= color=BAF2Y9=
.. =title=Welcome!=
=divide=

=divide= id:main=
.. =text=Enter your password:=
.. =password=
.. =line=
.. =button=Login=
=divide=

=(time)=
==CTIW==".

End TestCases.

(** ** The token queue of the lexer ([nextToken], [peek], [isAtEnd]) *)

Module LexerStream.
Import JS Lexer.

Definition setTokens (ts : list Token) (lx : Lexer) : Lexer :=
  {| source := source lx; pos := pos lx;
     cur_line := cur_line lx; cur_column := cur_column lx;
     tokens := ts; errors := errors lx;
     inValueContext := inValueContext lx;
     atStatementStart := atStatementStart lx |}.

(** The guard the three methods begin with:
    [if (this.tokens.length === 0) this.tokenize()]. *)
Definition refill (lx : Lexer) : Lexer :=
  if length (tokens lx) =? 0 then Lexer_tokenize lx else lx.

(** [nextToken]: [None] is [null]; a token object is truthy, so
    [this.tokens.shift() || null] is the first token when there is one. *)
Definition nextToken (lx : Lexer) : option Token * Lexer :=
  let lx1 := refill lx in
  match tokens lx1 with
  | [] => (None, lx1)
  | t :: rest => (Some t, setTokens rest lx1)
  end.

Definition peek (lx : Lexer) : option Token * Lexer :=
  let lx1 := refill lx in
  (List.head (tokens lx1), lx1).

Definition isAtEnd (lx : Lexer) : bool * Lexer :=
  let lx1 := refill lx in
  (match tokens lx1 with
   | [] => true
   | [t] => bool_decide (type t = EOF)
   | _ => false
   end, lx1).

(** [n] calls of [nextToken] one after another: what they return, and the
    lexer they leave. *)
Fixpoint nextTokens (n : nat) (lx : Lexer) : list (option Token) * Lexer :=
  match n with
  | O => ([], lx)
  | S n' =>
      let '(t, lx1) := nextToken lx in
      let '(ts, lx2) := nextTokens n' lx1 in
      (t :: ts, lx2)
  end.

End LexerStream.

(** ** Notions used to state what a scan does *)

Module Scan.
Import JS Lexer.

(** The line and the column of the character that follows the text [s], for
    a reader at line [l], column [c] before it: a newline begins a line. *)
Fixpoint positionAfter (l c : nat) (s : string) : nat * nat :=
  match s with
  | EmptyString => (l, c)
  | String ch s' =>
      if Ascii.eqb ch LF then positionAfter (l + 1) 1 s'
      else positionAfter l (c + 1) s'
  end.

(** The position of the character at offset [k] of [src], counted from
    line 1, column 1. *)
Definition positionOf (src : string) (k : nat) : nat * nat :=
  positionAfter 1 1 (take k src).

Definition noNewline (s : string) : bool :=
  all (fun c => negb (Ascii.eqb c LF)) s.

(** A character [skipWhitespace] may step over. *)
Definition isSkipped (c : ascii) : bool := isSpaceOrTab c || Ascii.eqb c CR.

(** The characters that begin a token outside a value, and the blanks. *)
Definition recognised (c : ascii) : bool :=
  isAlpha c || isDigit c || isSpaceOrTab c
  || Ascii.eqb c "=" || Ascii.eqb c ":" || Ascii.eqb c "."
  || Ascii.eqb c "(" || Ascii.eqb c ")" || Ascii.eqb c LF.

Definition startsWithDigit (w : string) : bool :=
  match w with
  | EmptyString => false
  | String c _ => isDigit c
  end.

(** A character of the text of a value: anything but [=] and the newline. *)
Definition isValueChar (c : ascii) : bool :=
  negb (Ascii.eqb c "=") && negb (Ascii.eqb c LF).

(** The value [v] a token of type [ty] carries, against the text of the
    source it was read from. *)
Definition tokenShape (ty : TokenType) (v text : string) : bool :=
  match ty with
  | CTIW_START | CTIW_END => String.eqb text "==CTIW==" && String.eqb v text
  | DOUBLE_EQUALS => String.eqb text "==" && String.eqb v text
  | EQUALS => String.eqb text "=" && String.eqb v text
  | COLON => String.eqb text ":" && String.eqb v text
  | DOT => String.eqb text "." && String.eqb v text
  | LPAREN => String.eqb text "(" && String.eqb v text
  | RPAREN => String.eqb text ")" && String.eqb v text
  | NEWLINE => String.eqb text (String LF EmptyString) && String.eqb v text
  | IDENTIFIER =>
      String.eqb v text && startsWithLetter text
      && all isAlphaNumericOrHyphen text && negb (isValidHexColor text)
  | NUMBER =>
      String.eqb v text && startsWithDigit text
      && all isHexDigit text && negb (isValidHexColor text)
  | HEX_COLOR => String.eqb v text && isValidHexColor text
  | STRING => String.eqb v (trim text) && truthy v && all isValueChar text
  | EOF => String.eqb text EmptyString && String.eqb v EmptyString
  end.

(** The token [t] is found in [src]: at some offset the source goes on with
    the text the token was read from, and the token records the line and the
    column of that offset. *)
Definition tokenAt (src : string) (t : Token) : Prop :=
  exists k text rest,
    drop k src = text +:+ rest /\ k <= String.length src
    /\ positionOf src k = (line t, column t)
    /\ tokenShape (type t) (value t) text = true.

(** The error [e] is found in [src]: it records the position of a character
    that is not [recognised], and quotes it. *)
Definition errorAt (src : string) (e : LexerError) : Prop :=
  exists k c rest,
    drop k src = String c rest
    /\ positionOf src k = (err_line e, err_column e)
    /\ recognised c = false
    /\ message e = unknownCharMessage c.

Definition hasStart (ts : list Token) : bool :=
  existsb (fun t => bool_decide (type t = CTIW_START)) ts.

(** The document markers of a token list are in order: [CTIW_START] is the
    first marker and occurs once, every later marker is [CTIW_END].  [seen]
    tells whether a marker came before. *)
Fixpoint markersOk (seen : bool) (ts : list Token) : bool :=
  match ts with
  | [] => true
  | t :: rest =>
      match type t with
      | CTIW_START => negb seen && markersOk true rest
      | CTIW_END => seen && markersOk seen rest
      | _ => markersOk seen rest
      end
  end.

(** The fields of the lexer a scan reads and writes, its two flags apart:
    the source, the position, the line and the column, the tokens and the
    errors. *)
Definition core (lx : Lexer)
    : string * nat * (nat * nat) * list Token * list LexerError :=
  (source lx, pos lx, (cur_line lx, cur_column lx), tokens lx, errors lx).

(** What a call of [scanToken] adds after reading [text] at line [l],
    column [col], the tokens so far being [toks]: nothing (the end of the
    source, or a value of blanks only), one token, or one error for a
    character that is not [recognised]. *)
Definition scanEffect (toks : list Token) (l col : nat) (text : string)
    (added : list Token) (errs : list LexerError) : Prop :=
  (added = [] /\ errs = [])
  \/ (exists ty v,
        added = [mkToken ty v l col] /\ errs = []
        /\ tokenShape ty v text = true /\ ty <> EOF
        /\ (ty = CTIW_START -> hasStart toks = false)
        /\ (ty = CTIW_END -> hasStart toks = true))
  \/ (exists c,
        text = String c EmptyString /\ recognised c = false
        /\ added = [] /\ errs = [mkLexerError (unknownCharMessage c) l col]).

(** What the loop of [tokenize] maintains. *)
Record scanInv (src : string) (lx : Lexer) : Prop := mkScanInv
  { inv_source : source lx = src;
    inv_pos : pos lx <= String.length src;
    inv_position : positionOf src (pos lx) = (cur_line lx, cur_column lx);
    inv_tokens : Forall (tokenAt src) (tokens lx);
    inv_errors : Forall (errorAt src) (errors lx);
    inv_markers : markersOk false (tokens lx) = true;
    inv_no_eof : Forall (fun t => type t <> EOF) (tokens lx) }.

End Scan.

(** ** Notions used to state what the parser reads from a line *)

Module Lines.
Import JS Ast Parser Notions.

(** [n] dots. *)
Fixpoint dots (n : nat) : string :=
  match n with
  | O => EmptyString
  | S n' => String "." (dots n')
  end.

Definition without (c : ascii) (s : string) : bool :=
  all (fun d => negb (Ascii.eqb d c)) s.

(** A text that holds neither [:] nor [=]. *)
Definition isBareWord (s : string) : bool := without ":" s && without "=" s.

(** [part] without the [=] that closes it, when it has one: the first step
    of [parseAttribute]. *)
Definition stripClosing (part : string) : string :=
  if endsWithChar "=" part then dropLast part else part.

(** A part of an element line: not empty, without a space, trimmed. *)
Definition isPart (part : string) : Prop :=
  part <> EmptyString /\ without " " part = true /\ trim part = part.

(** A property as [parseElement] stores it: the name not empty, name and
    value trimmed. *)
Definition isStoredProperty (kv : string * string) : Prop :=
  fst kv <> EmptyString /\ trim (fst kv) = fst kv /\ trim (snd kv) = snd kv.

(** The line of a special element: [=(word)=]. *)
Definition specialLine (word : string) : string := "=(" +:+ word +:+ ")=".

(** The line of a declaration: [=name=text=]. *)
Definition declaration (name text : string) : string :=
  "=" +:+ name +:+ "=" +:+ text +:+ "=".

Section WithExternals.
Context `{Externals}.

(** The value [parseDocProperty] gives a declaration of the text [text]: the
    number it reads as, when it reads as one and is not empty. *)
Definition declaredValue (text : string) : PropertyValue :=
  if negb (isNaN (Number text)) && negb (String.eqb text EmptyString)
  then VNumber (Number text) else VString text.

(** The parser after a declaration that leaves the metadata [m]: one line
    further, nothing else changed. *)
Definition afterDeclaration (m : DocumentMetadata) (p : Parser) : Parser :=
  {| lines := lines p; currentLine := currentLine p + 1; errors := errors p;
     Parser.metadata := m; body := body p; heap := heap p |}.

End WithExternals.

End Lines.

(** ** Notions used to state what a parsed tree looks like *)

Module Tree.
Import JS Ast Parser Notions Lines.

(** Strictly increasing, and never decreasing, lists of numbers. *)
Fixpoint increasing (l : list nat) : bool :=
  match l with
  | a :: rest =>
      match rest with
      | b :: _ => (a <? b) && increasing rest
      | [] => true
      end
  | [] => true
  end.

Fixpoint nondecreasing (l : list nat) : bool :=
  match l with
  | a :: rest =>
      match rest with
      | b :: _ => (a <=? b) && nondecreasing rest
      | [] => true
      end
  | [] => true
  end.

(** A location [parseStatement] gives a node: one line, from column 1. *)
Definition isLineLocation (loc : SourceLocation) : Prop :=
  startColumn loc = 1 /\ endLine loc = startLine loc.

Section WithExternals.
Context `{Externals}.

Definition objLine (o : NodeObj) : nat := startLine (objLocation o).

Definition nodeLine (n : CTIWNode) : nat := startLine (nodeLocation n).

(** The line of the object at the address [a] of the store [h]. *)
Definition lineAt (h : list NodeObj) (a : nat) : nat :=
  match h !! a with
  | Some o => objLine o
  | None => 0
  end.

(** An object [parseBody] puts in the store: an Element of the kind title
    or of a kind [isValidElementType] accepts, with the nesting depth 0 and
    properties as [parseElement] stores them, or the Special [time]. *)
Definition isParsedObj (o : NodeObj) : Prop :=
  match o with
  | ElementObj ty props _ _ ind loc =>
      (ty = "title" \/ isValidElementType ty = true) /\ ind = 0
      /\ isLineLocation loc
      /\ NoDup (List.map fst props) /\ Forall isStoredProperty props
  | SpecialObj ty loc => ty = "time" /\ isLineLocation loc
  | PropertyObj _ _ _ => False
  end.

(** The same of a node of the tree. *)
Definition isParsedNode (n : CTIWNode) : Prop :=
  match n with
  | Element ty props _ _ ind loc =>
      (ty = "title" \/ isValidElementType ty = true) /\ ind = 0
      /\ isLineLocation loc
      /\ NoDup (List.map fst props) /\ Forall isStoredProperty props
  | Special ty loc => ty = "time" /\ isLineLocation loc
  | _ => False
  end.

(** The node [t] carries what the object [o] carries, the children apart. *)
Definition sameData (o : NodeObj) (t : CTIWNode) : Prop :=
  match o, t with
  | PropertyObj name v loc, Ast.Property name' v' loc' =>
      name = name' /\ v = v' /\ loc = loc'
  | ElementObj ty props _ content ind loc, Element ty' props' _ content' ind' loc' =>
      ty = ty' /\ props = props' /\ content = content' /\ ind = ind' /\ loc = loc'
  | SpecialObj ty loc, Special ty' loc' => ty = ty' /\ loc = loc'
  | _, _ => False
  end.

(** What [parse] maintains besides [heapInv], the parser being at line
    [cl] of [nl] lines: every object of the store is as [isParsedObj] says
    and was read from one of the lines before [cl]; objects are stored in
    the order of their lines; [body] and every list of children are in the
    order of the addresses; the errors are in the order of their lines. *)
Record storeInv (nl cl : nat) (h : list NodeObj) (bd : list nat)
    (errs : list ParseError) : Prop := mkStoreInv
  { inv_line : cl <= nl;
    inv_parsed : Forall (fun o => isParsedObj o /\ 1 <= objLine o <= cl) h;
    inv_lines : increasing (List.map objLine h) = true;
    inv_body_order : increasing bd = true;
    inv_children_order :
      forall a o, h !! a = Some o -> increasing (objChildren o) = true;
    inv_errors_order : nondecreasing (List.map line errs) = true;
    inv_errors_lines : Forall (fun e => 1 <= line e <= cl + 1) errs }.

Definition storeInvOf (p : Parser) : Prop :=
  storeInv (length (lines p)) (currentLine p) (heap p) (body p) (errors p).

End WithExternals.

End Tree.

(** ** Notions used to state what [parse] reports about the markers *)

Module Markers.
Import JS Ast Parser Notions.

Definition headerMessage : string :=
  "Oops! Your CTIW code needs to start with =CTIW=".

Definition footerMessage : string :=
  "Don't forget to end your code with ==CTIW==".

Definition isHeaderLine (l : string) : bool := String.eqb (trim l) "=CTIW=".

Definition isFooterLine (l : string) : bool := String.eqb (trim l) "==CTIW==".

(** The first line that is not blank is the header. *)
Definition hasHeader (ls : list string) : bool :=
  match ls !! blankPrefix ls with
  | Some l => isHeaderLine l
  | None => false
  end.

(** The index of the line [parseBody] begins with: the line after the
    header, or the first line that is not blank when the header is
    missing. *)
Definition bodyStart (ls : list string) : nat :=
  blankPrefix ls + (if hasHeader ls then 1 else 0).

(** The number of lines before the first footer line. *)
Fixpoint untilFooter (rest : list string) : nat :=
  match rest with
  | [] => 0
  | l :: rest' => if isFooterLine l then 0 else S (untilFooter rest')
  end.

(** Some line from [bodyStart] on is a footer. *)
Definition hasFooter (ls : list string) : bool :=
  existsb isFooterLine (skipn (bodyStart ls) ls).

(** The message of an error of the body: neither of the two above. *)
Definition isBodyMessage (msg : string) : bool :=
  negb (String.eqb msg headerMessage) && negb (String.eqb msg footerMessage).

Section WithExternals.
Context `{Externals}.

(** The parser [p] over the lines [ls]. *)
Definition withLines (ls : list string) (p : Parser) : Parser :=
  {| lines := ls; currentLine := currentLine p; errors := errors p;
     Parser.metadata := Parser.metadata p; body := body p; heap := heap p |}.

(** [parse] on lines given as a list: [new Parser] with [lines] set. *)
Definition parseLines (ls : list string) : ParseResult :=
  fst (Parser_parse (withLines ls (new EmptyString))).

End WithExternals.

End Markers.

(** ** Notions used to state what the generator emits *)

Module Output.
Import JS Ast Parser Codegen Notions.

(** What [escapeHTML] makes of one character. *)
Definition escapeChar (c : ascii) : string :=
  if Ascii.eqb c "&" then "&amp;"
  else if Ascii.eqb c "<" then "&lt;"
  else if Ascii.eqb c ">" then "&gt;"
  else if Ascii.eqb c DQUOTE then "&quot;"
  else if Ascii.eqb c "'" then "&#39;"
  else String c EmptyString.

(** A character that neither opens nor closes a tag, and is no single
    quote. *)
Definition isNotTagChar (c : ascii) : bool :=
  negb (Ascii.eqb c "<") && negb (Ascii.eqb c ">") && negb (Ascii.eqb c "'").

Section WithExternals.
Context `{Externals}.

Definition isTimeNode (n : CTIWNode) : bool :=
  match n with
  | Special specialType _ => String.eqb specialType "time"
  | _ => false
  end.

(** The rule [processNode] pushes for the node itself. *)
Definition ownRule (n : CTIWNode) : list string :=
  let css := generateElementCSS n in
  if truthy css then [css] else [].

End WithExternals.

End Output.

(** ** Notions used to state where the lexer reads a value *)

Module ValueContext.
Import JS Lexer.

(** The types of the tokens, the last one first. *)
Definition lastTypes (toks : list Token) : list TokenType :=
  rev (List.map type toks).

(** The tokens end with the primary pattern: [=], an IDENTIFIER, [=], the
    opening [=] being the first token or coming after a NEWLINE, a DOT or
    CTIW_START.  [types] are the types of the tokens, the last one first. *)
Definition afterName (types : list TokenType) : bool :=
  match types with
  | EQUALS :: IDENTIFIER :: EQUALS :: before =>
      match before with
      | [] => true
      | beforeOpening :: _ =>
          bool_decide (beforeOpening = NEWLINE)
          || bool_decide (beforeOpening = DOT)
          || bool_decide (beforeOpening = CTIW_START)
      end
  | _ => false
  end.

(** Every STRING token of [toks] comes right after the primary pattern;
    [before] are the types of the tokens before [toks], the last one
    first. *)
Fixpoint valuesFollowNames (before : list TokenType) (toks : list Token) : bool :=
  match toks with
  | [] => true
  | t :: rest =>
      (if bool_decide (type t = STRING) then afterName before else true)
      && valuesFollowNames (type t :: before) rest
  end.

(** What the loop of [tokenize] maintains about the value context. *)
Definition contextInv (lx : Lexer) : Prop :=
  (inValueContext lx = true -> afterName (lastTypes (tokens lx)) = true)
  /\ valuesFollowNames [] (tokens lx) = true.

End ValueContext.

(** ** Notions used to state what the generator renders *)

Module Render.
Import JS Ast Parser Codegen Notions GeneratorExamples.

(** The opening tag [generateElement] writes for the tag [tag]: the
    attributes, then the inline styles of an element without an id. *)
Definition openTag (tag : string) (props : ElementProperties) : string :=
  "<" +:+ tag +:+ generateAttributes props
  +:+ match idOf props with
      | None => generateInlineStyles props
      | Some _ => EmptyString
      end
  +:+ ">".

(** The content of an element as it is written: escaped. *)
Definition textOf (content : option string) : string :=
  match content with
  | Some c => if truthy c then escapeHTML c else EmptyString
  | None => EmptyString
  end.

Section WithExternals.
Context `{Externals}.


(** What [generateElement] writes for an Element whose tag is [tag], when
    it takes none of the four cases of its own. *)
Definition renderAs (tag : string) (props : ElementProperties)
    (children : list CTIWNode) (content : option string) (indent : string) : string :=
  if has tag SELF_CLOSING_ELEMENTS then openTag tag props
  else
    match List.filter isElementOrSpecial children with
    | [] => openTag tag props +:+ textOf content +:+ "</" +:+ tag +:+ ">"
    | valid =>
        openTag tag props +:+ newline +:+ indent +:+ "  "
        +:+ join (newline +:+ indent +:+ "  ")
              (List.map (fun child => generateElement child (indent +:+ "  ")) valid)
        +:+ newline +:+ indent +:+ "</" +:+ tag +:+ ">"
    end.

End WithExternals.

End Render.

(** ** The tree of a document, in the words of the specification

    Section 4.2 of the specification builds the tree line by line: a bare
    [=divide=] closes the innermost open container, whatever the
    indentation; any other statement that gives a node is attached to the
    innermost open container or to the top level, and opens a container
    when it is a divide.  The definitions below follow those words, with
    the rule of attachment as the code has it (claim 4 as amended): they
    keep no store and no stack of objects, only line numbers. *)

Module Placement.
Import JS Ast Parser Notions Markers Tree.

(** A body line that gives a node: its number, its indentation level, and
    the lines of the containers open before it, the innermost first. *)
Record Placed : Type := mkPlaced
  { placed_line : nat; placed_indent : nat; placed_open : list nat }.

(** The rule of attachment: a node belongs to the innermost open container
    when one is open and its own level is above 0, and to the top level
    ([None]) otherwise. *)
Definition parentLine (pl : Placed) : option nat :=
  if 0 <? placed_indent pl then List.head (placed_open pl) else None.

(** The lines attached under [parent], in the order of the source. *)
Definition linesUnder (parent : option nat) (pls : list Placed) : list nat :=
  List.map placed_line
    (List.filter (fun pl => bool_decide (parentLine pl = parent)) pls).

(** Two lines that differ in their indentation only: the same tests for a
    blank line and for the two markers, the same statement, and, unless
    that statement is the bare [=divide=], the same answer to
    [indent > 0]. *)
Definition sameStatement (raw raw' : string) : Prop :=
  String.eqb (trim raw) EmptyString = String.eqb (trim raw') EmptyString
  /\ isHeaderLine raw = isHeaderLine raw'
  /\ isFooterLine raw = isFooterLine raw'
  /\ snd (parseIndentation raw) = snd (parseIndentation raw')
  /\ (snd (parseIndentation raw) = "=divide="
      \/ (0 <? fst (parseIndentation raw)) = (0 <? fst (parseIndentation raw'))).

Section WithExternals.
Context `{Externals}.

(** The node the statement [content] of line [ln] gives, if any. *)
Definition statementNode (content : string) (ln : nat) : option NodeObj :=
  fst (parseStatement content ln (new EmptyString)).

Definition isNodeObj (o : NodeObj) : bool :=
  match o with
  | PropertyObj _ _ _ => false
  | _ => true
  end.

(** One line of the body.  [open] holds the lines of the containers open
    before the line, the innermost first; the result is the node placed, if
    the line gives one, and the containers open after the line.  A bare
    [=divide=] closes the innermost container when one is open; no other
    line closes any. *)
Definition bodyLine (ln : nat) (raw : string) (open : list nat)
    : list Placed * list nat :=
  if String.eqb (trim raw) EmptyString then ([], open)
  else
    let '(indent, content) := parseIndentation raw in
    if String.eqb content "=divide=" && (0 <? length open) then ([], List.tail open)
    else
      match statementNode content ln with
      | Some node =>
          if isNodeObj node
          then ([mkPlaced ln indent open], if isDivide node then ln :: open else open)
          else ([], open)
      | None => ([], open)
      end.

(** The lines of the body from line [ln] on, up to the footer. *)
Fixpoint bodyLines (ln : nat) (rest : list string) (open : list nat)
    : list Placed * list nat :=
  match rest with
  | [] => ([], open)
  | raw :: rest' =>
      if isFooterLine raw then ([], open)
      else
        let '(placed, open1) := bodyLine ln raw open in
        let '(more, open2) := bodyLines (S ln) rest' open1 in
        (placed ++ more, open2)
  end.

(** The nodes of the source [src], placed, and the containers its body
    leaves open. *)
Definition placedLines (src : string) : list Placed :=
  let ls := split LF src in
  fst (bodyLines (bodyStart ls + 1) (skipn (bodyStart ls) ls) []).

Definition openAtEnd (src : string) : list nat :=
  let ls := split LF src in
  snd (bodyLines (bodyStart ls + 1) (skipn (bodyStart ls) ls) []).

(** The parser when [parse] calls [parseBody]. *)
Definition bodyParser (src : string) : Parser :=
  let '(okHeader, p1) := parseHeader (new src) in
  if okHeader then p1
  else addError "Oops! Your CTIW code needs to start with =CTIW=" p1.

(** What the loop of [parseBody] maintains, the parser being at line [cl]:
    the store holds one object for each placed line, in order; the frames
    of the stack are the open containers; [body] and every list of children
    hold the lines placed under them; every object is attached. *)
Record placeInv (cl : nat) (h : list NodeObj) (bd : list nat) (stack : list Frame)
    (pls : list Placed) (open : list nat) : Prop := mkPlaceInv
  { pi_heap : List.map objLine h = List.map placed_line pls;
    pi_stack : List.map (lineAt h) (List.map element stack) = open;
    pi_body : List.map (lineAt h) bd = linesUnder None pls;
    pi_children :
      forall a o, h !! a = Some o ->
        List.map (lineAt h) (objChildren o) = linesUnder (Some (objLine o)) pls;
    pi_open : Forall (fun l => l <= cl) open;
    pi_opens : Forall (fun pl => Forall (fun l => l <= cl) (placed_open pl)) pls;
    pi_attached :
      forall a, a < length h ->
        a ∈ bd \/ exists a' o', h !! a' = Some o' /\ a ∈ objChildren o' }.

End WithExternals.

(** A divide opened at level 2, closed by a bare [=divide=] at level 0; a
    second one opened at level 1 and never closed, with a text at level 3
    and a text at level 0 after it. *)
Definition nestedSource : string :=
  "=CTIW=
....=divide= id:a=
..=text=in a=
=divide=
..=divide= id:b=
......=text=in b=
=text=top=
..=text=still in b=
==CTIW==".

(** The same with other indentations: the close at level 3, the first text
    at level 1, the last at level 4. *)
Definition reindentedSource : string :=
  "=CTIW=
....=divide= id:a=
..=text=in a=
......=divide=
..=divide= id:b=
..=text=in b=
=text=top=
........=text=still in b=
==CTIW==".

End Placement.

(** ** The title declarations of a document, in the words of the
    specification

    A title declaration is a statement whose name is [title]; the metadata
    keep the text of the first one (claim 5, as amended: the first one whose
    text is not empty), and every declaration gives a title Element. *)

Module Declared.
Import JS Ast Parser Notions Markers Tree.








Section WithExternals.
Context `{Externals}.



End WithExternals.


End Declared.

(** ** A session: calls of the pipeline one after another, in one store

    The sources keep no variable of their own between two calls: the only
    module-level bindings of [parser.ts] and [codegen.ts] are tables the
    code never assigns to ([DOC_PROPERTIES], [CSS_PROPERTY_MAP],
    [ELEMENT_TAG_MAP], ...), which the embedding has as constants.  What
    two calls do share is the store of the process: the node objects a call
    of [parse] creates are allocated after those of the calls before it,
    which stay there (their documents may still be in use).  A session
    models that: [parse] runs in the store the earlier runs left, and the
    document is read off that store. *)

Module Session.
Import JS Ast Parser Notions.

Section WithExternals.
Context `{Externals}.





(** The page of a source compiled on its own, in an empty store. *)
Definition compile (src : string) : string :=
  Codegen.generateHTML (document (parse src)).




End WithExternals.


End Session.

(** * Properties *)

#[local] Arguments String.append : simpl nomatch.

(** ** Strings *)

Module JSFacts.
Import JS.

Lemma length_append (s t : string) :
  String.length (s +:+ t) = String.length s + String.length t.
Proof. induction s as [|c s IH]; simpl; [reflexivity | now rewrite IH]. Qed.

Lemma append_empty_r (s : string) : s +:+ EmptyString = s.
Proof. induction s as [|c s IH]; simpl; [reflexivity | now rewrite IH]. Qed.

Lemma append_assoc (s t u : string) : (s +:+ t) +:+ u = s +:+ (t +:+ u).
Proof. induction s as [|c s IH]; simpl; [reflexivity | now rewrite IH]. Qed.

Lemma drop_length_le (n : nat) (s : string) :
  String.length (drop n s) = String.length s - n.
Proof.
  revert s; induction n as [|n IH]; intros [|c s]; simpl; auto.
Qed.

Lemma drop_cons_lt (n : nat) (s : string) (c : ascii) (rest : string) :
  drop n s = String c rest -> n < String.length s.
Proof.
  intros E. pose proof (drop_length_le n s) as L. rewrite E in L. simpl in L. lia.
Qed.

Lemma drop_add (n m : nat) (s : string) : drop (n + m) s = drop m (drop n s).
Proof.
  revert s; induction n as [|n IH]; intros s; simpl; [reflexivity|].
  destruct s as [|c s]; [now destruct m | apply IH].
Qed.

Lemma drop_all (s : string) : drop (String.length s) s = EmptyString.
Proof. induction s; simpl; auto. Qed.

Lemma drop_append (s t : string) : drop (String.length s) (s +:+ t) = t.
Proof. induction s; simpl; auto. Qed.

Lemma take_append (s t : string) : take (String.length s) (s +:+ t) = s.
Proof. induction s as [|c s IH]; simpl; [now destruct t | now rewrite IH]. Qed.

Lemma take_all (s : string) : take (String.length s) s = s.
Proof. induction s as [|c s IH]; simpl; [reflexivity | now rewrite IH]. Qed.

Lemma all_append (p : ascii -> bool) (s t : string) :
  all p (s +:+ t) = all p s && all p t.
Proof.
  induction s as [|c s IH]; simpl; [reflexivity|].
  rewrite IH. now destruct (p c).
Qed.

Lemma all_impl (p r : ascii -> bool) (s : string) :
  (forall c, p c = true -> r c = true) -> all p s = true -> all r s = true.
Proof.
  intros Hpr. induction s as [|c s IH]; simpl; [reflexivity|].
  intros [Hc Hs]%andb_prop. rewrite (Hpr c Hc), (IH Hs). reflexivity.
Qed.

(** The loop [while (p(s[i])) i++] runs over a whole run of [p] characters
    and stops at the first character outside [p]. *)
Lemma span_run (p : ascii -> bool) (s t : string) :
  all p s = true -> head t = None \/ (exists c, head t = Some c /\ p c = false) ->
  span p (s +:+ t) = String.length s.
Proof.
  intros Hs Ht. induction s as [|c s IH]; simpl in *.
  - destruct t as [|d t]; [reflexivity|].
    destruct Ht as [Ht | (c & Hc & Hp)]; [discriminate|].
    simpl in *. injection Hc as ->. now rewrite Hp.
  - apply andb_prop in Hs as [Hc Hs]. rewrite Hc, (IH Hs). reflexivity.
Qed.

Lemma span_all (p : ascii -> bool) (s : string) :
  all p s = true -> span p s = String.length s.
Proof.
  intros Hs. rewrite <- (append_empty_r s) at 1.
  apply span_run; [assumption | now left].
Qed.

End JSFacts.

(** ** The lexer *)

Module LexerFacts.
Import JS JSFacts Lexer.

(** A letter is none of the characters [scanToken] and [skipWhitespace]
    treat specially. *)
Lemma alpha_plain (c : ascii) :
  isAlpha c = true ->
  isSpaceOrTab c = false /\ Ascii.eqb c CR = false /\ Ascii.eqb c "=" = false
  /\ Ascii.eqb c ":" = false /\ Ascii.eqb c "." = false /\ Ascii.eqb c "(" = false
  /\ Ascii.eqb c ")" = false /\ Ascii.eqb c LF = false
  /\ isAlphaNumericOrHyphen c = true.
Proof. ascii_cases c; vm_compute; intros; try discriminate; repeat split. Qed.

Lemma digit_plain (c : ascii) :
  isDigit c = true ->
  isSpaceOrTab c = false /\ Ascii.eqb c CR = false /\ Ascii.eqb c "=" = false
  /\ Ascii.eqb c ":" = false /\ Ascii.eqb c "." = false /\ Ascii.eqb c "(" = false
  /\ Ascii.eqb c ")" = false /\ Ascii.eqb c LF = false
  /\ isAlpha c = false /\ isHexDigit c = true /\ isAlphaNumericOrHyphen c = true.
Proof. ascii_cases c; vm_compute; intros; try discriminate; repeat split. Qed.

Lemma hex_alpha_or_digit (c : ascii) :
  isHexDigit c = true -> isAlpha c = true \/ isDigit c = true.
Proof. ascii_cases c; vm_compute; intros; try discriminate; auto. Qed.

Lemma hex_alnum (c : ascii) :
  isHexDigit c = true -> isAlphaNumericOrHyphen c = true.
Proof.
  intros [Ha | Hd]%hex_alpha_or_digit.
  - now apply alpha_plain.
  - now apply digit_plain.
Qed.

Lemma advanceBy_0 (lx : Lexer) : advanceBy 0 lx = lx.
Proof. destruct lx; unfold advanceBy; simpl. now rewrite !Nat.add_0_r. Qed.

Lemma remaining_advanceBy (n : nat) (lx : Lexer) :
  remaining (advanceBy n lx) = drop n (remaining lx).
Proof. unfold remaining; simpl. apply drop_add. Qed.

Lemma not_at_end (lx : Lexer) (c : ascii) (rest : string) :
  remaining lx = String c rest -> isAtEndInternal lx = false.
Proof.
  intros E. apply drop_cons_lt in E. unfold isAtEndInternal.
  apply Nat.leb_gt. exact E.
Qed.

Lemma prefix_cons (a c : ascii) (p s : string) :
  String.prefix (String a p) (String c s) = Ascii.eqb c a && String.prefix p s.
Proof.
  simpl. destruct (ascii_dec a c) as [->|Hne].
  - now rewrite Ascii.eqb_refl.
  - destruct (Ascii.eqb_spec c a) as [->|_]; [contradiction | reflexivity].
Qed.

Lemma match_first (lx : Lexer) (a c : ascii) (p rest : string) :
  remaining lx = String c rest -> Ascii.eqb c a = false -> match_ (String a p) lx = false.
Proof. intros E Hc. unfold match_. now rewrite E, prefix_cons, Hc. Qed.

Lemma current_cons (lx : Lexer) (c : ascii) (rest : string) :
  remaining lx = String c rest -> current lx = c.
Proof. intros E. unfold current. now rewrite E. Qed.

Lemma skipWhitespace_id (lx : Lexer) (c : ascii) (rest : string) :
  remaining lx = String c rest -> isSpaceOrTab c = false -> Ascii.eqb c CR = false ->
  skipWhitespace lx = lx.
Proof.
  intros E Hs Hcr. unfold skipWhitespace. rewrite E. simpl. rewrite Hs, Hcr. simpl.
  apply advanceBy_0.
Qed.

Lemma shouldScanString_off (lx : Lexer) :
  inValueContext lx = false -> shouldScanString lx = false.
Proof. intros Hv. unfold shouldScanString. now rewrite Hv. Qed.

(** Away from value-scanning mode, a letter starts an identifier-or-colour
    scan and a digit a number-or-colour scan. *)
Lemma scanToken_alpha (lx : Lexer) (c : ascii) (rest : string) :
  remaining lx = String c rest -> isAlpha c = true -> inValueContext lx = false ->
  scanToken lx = scanIdentifierOrHexColor (cur_column lx) lx.
Proof.
  intros E Ha Hv.
  destruct (alpha_plain c Ha) as (Hs & Hcr & Heq & Hco & Hdot & Hlp & Hrp & Hlf & _).
  unfold scanToken.
  rewrite (skipWhitespace_id lx c rest E Hs Hcr), (not_at_end lx c rest E).
  rewrite !(match_first lx "=" c _ rest E Heq), (current_cons lx c rest E).
  rewrite (shouldScanString_off lx Hv).
  rewrite Heq, Hco, Hdot, Hlp, Hrp, Hlf, Ha. reflexivity.
Qed.

Lemma scanToken_digit (lx : Lexer) (c : ascii) (rest : string) :
  remaining lx = String c rest -> isDigit c = true -> inValueContext lx = false ->
  scanToken lx = scanNumberOrHexColor (cur_column lx) lx.
Proof.
  intros E Hd Hv.
  destruct (digit_plain c Hd)
    as (Hs & Hcr & Heq & Hco & Hdot & Hlp & Hrp & Hlf & Ha & _).
  unfold scanToken.
  rewrite (skipWhitespace_id lx c rest E Hs Hcr), (not_at_end lx c rest E).
  rewrite !(match_first lx "=" c _ rest E Heq), (current_cons lx c rest E).
  rewrite (shouldScanString_off lx Hv).
  rewrite Heq, Hco, Hdot, Hlp, Hrp, Hlf, Ha, Hd. reflexivity.
Qed.

Lemma scanAll_at_end (fuel : nat) (lx : Lexer) :
  isAtEndInternal lx = true -> scanAll fuel lx = lx.
Proof. intros E. destruct fuel; simpl; now rewrite E. Qed.

Lemma tokenize_one_scan (w : string) (ty : TokenType) :
  w <> EmptyString ->
  scanToken (new w)
  = setInValueContext false (addToken ty w 1 (advanceBy (String.length w) (new w))) ->
  tokenize w = single ty w.
Proof.
  intros Hne Hscan. unfold tokenize, Lexer_tokenize. simpl source.
  destruct w as [|c w']; [contradiction|].
  change (String.length (String c w')) with (S (String.length w')) at 1 2.
  simpl scanAll. rewrite Hscan.
  rewrite scanAll_at_end; [reflexivity|].
  unfold isAtEndInternal. simpl. apply Nat.leb_refl.
Qed.

Lemma tokenize_alpha_run (w : string) :
  (exists c w', w = String c w' /\ isAlpha c = true) ->
  all isAlphaNumericOrHyphen w = true ->
  tokenize w
  = single (if isValidHexColor w then HEX_COLOR else IDENTIFIER) w.
Proof.
  intros (c & w' & E & Ha) Hall.
  apply tokenize_one_scan; [rewrite E; discriminate|].
  rewrite (scanToken_alpha (new w) c w' E Ha eq_refl).
  unfold scanIdentifierOrHexColor. change (remaining (new w)) with w.
  rewrite (span_all _ w Hall), take_all.
  unfold isValidHexColor.
  destruct (String.length w =? 6); destruct (all isHexDigit w); reflexivity.
Qed.

Lemma tokenize_digit_run (w : string) :
  (exists c w', w = String c w' /\ isDigit c = true) ->
  all isHexDigit w = true ->
  tokenize w
  = single (if String.length w =? 6 then HEX_COLOR else NUMBER) w.
Proof.
  intros (c & w' & E & Hd) Hall.
  apply tokenize_one_scan; [rewrite E; discriminate|].
  rewrite (scanToken_digit (new w) c w' E Hd eq_refl).
  unfold scanNumberOrHexColor. change (remaining (new w)) with w.
  rewrite (span_all _ w Hall), take_all.
  unfold isValidHexColor. rewrite Hall.
  destruct (String.length w =? 6); reflexivity.
Qed.

(** C7, as amended.  A bare run of exactly six hex digits is one HexColor
    token, in either case; a bare run of exactly six letters and digits that
    begins with a letter and has a letter outside a-f is one Identifier token;
    a bare run of digits of a length other than six is one Number token. *)
Theorem C7_bare_run_classification (w : string) :
  (String.length w = 6 -> all isHexDigit w = true ->
   tokenize w = single HEX_COLOR w)
  /\ (String.length w = 6 -> all isAlphaNumeric w = true ->
      startsWithLetter w = true -> all isHexDigit w = false ->
      tokenize w = single IDENTIFIER w)
  /\ (0 < String.length w -> String.length w <> 6 -> all isDigit w = true ->
      tokenize w = single NUMBER w).
Proof.
  split; [|split].
  - intros Hlen Hhex.
    destruct w as [|c w']; [discriminate|].
    pose proof Hhex as Hc. simpl in Hc. apply andb_prop in Hc as [Hc _].
    destruct (hex_alpha_or_digit c Hc) as [Ha | Hd].
    + rewrite tokenize_alpha_run; [| eauto | exact (all_impl _ _ _ hex_alnum Hhex)].
      unfold isValidHexColor. now rewrite Hlen, Hhex.
    + rewrite tokenize_digit_run; [| eauto | exact Hhex].
      now rewrite Hlen.
  - intros Hlen Haln Hfirst Hnothex.
    destruct w as [|c w']; [discriminate|]. simpl in Hfirst.
    rewrite tokenize_alpha_run; [| eauto |].
    + unfold isValidHexColor. now rewrite Hnothex, andb_false_r.
    + apply (all_impl isAlphaNumeric); [|exact Haln].
      intros d Hd. unfold isAlphaNumericOrHyphen. unfold isAlphaNumeric in Hd.
      now rewrite Hd.
  - intros Hpos Hlen Hdig.
    destruct w as [|c w']; [simpl in Hpos; lia|].
    pose proof Hdig as Hc. simpl in Hc. apply andb_prop in Hc as [Hc _].
    rewrite tokenize_digit_run; [| eauto |].
    + apply Nat.eqb_neq in Hlen. now rewrite Hlen.
    + apply (all_impl isDigit); [|exact Hdig].
      intros d Hd. now apply digit_plain.
Qed.

(** C7 at three sources: FF00aa, Colour and 1234567. *)
Lemma C7_bare_run_classification_witness :
  tokenize "FF00aa" = single HEX_COLOR "FF00aa"
  /\ tokenize "Colour" = single IDENTIFIER "Colour"
  /\ tokenize "1234567" = single NUMBER "1234567".
Proof.
  split; [|split].
  - apply (C7_bare_run_classification "FF00aa"); reflexivity.
  - apply (C7_bare_run_classification "Colour"); reflexivity.
  - apply (C7_bare_run_classification "1234567"); [simpl; lia | discriminate | reflexivity].
Defined.

(** C7 as stated fails on a run of six letters and digits that begins with a
    digit: 1zzzzz has a letter outside a-f, yet the digit is scanned as a
    Number and the letters after it as an Identifier of their own. *)
Lemma C7_digit_led_run_is_split :
  String.length "1zzzzz" = 6
  /\ all isAlphaNumeric "1zzzzz" = true /\ all isHexDigit "1zzzzz" = false
  /\ tokenize "1zzzzz"
     = ([mkToken NUMBER "1" 1 1; mkToken IDENTIFIER "zzzzz" 1 2;
         mkToken EOF EmptyString 1 7], [])
  /\ tokenize "1zzzzz" <> single IDENTIFIER "1zzzzz".
Proof. split_and!; try reflexivity. discriminate. Qed.

(** *** The lookahead of value scanning *)

(** C8.  On a line that ends with a carriage return and a newline, the [=]
    that closes a value is taken for the [=] of an attribute.  Behind
    [World=] the lookahead of [scanString] finds the carriage return, counts
    it as content, and ends the value before World; behind [Hello=], at the
    start of a value, [looksLikeAttribute] does the same, and the word is
    read as an IDENTIFIER and not as the value.  The same lines ended by a
    newline alone give the values Hello World and Hello.  The carriage
    return is otherwise treated as part of the line end: it is skipped,
    gives no token and no error. *)
Lemma C8_closing_marker_before_CRLF :
  shapes (fst (tokenize crlfLine))
  = [ (EQUALS, "="); (IDENTIFIER, "text"); (EQUALS, "="); (STRING, "Hello");
      (IDENTIFIER, "World"); (EQUALS, "=");
      (NEWLINE, String LF EmptyString); (EOF, EmptyString) ]
  /\ shapes (fst (tokenize lfLine))
     = [ (EQUALS, "="); (IDENTIFIER, "text"); (EQUALS, "="); (STRING, "Hello World");
         (EQUALS, "="); (NEWLINE, String LF EmptyString); (EOF, EmptyString) ]
  /\ shapes (fst (tokenize crlfWord))
     = [ (EQUALS, "="); (IDENTIFIER, "text"); (EQUALS, "="); (IDENTIFIER, "Hello");
         (EQUALS, "="); (NEWLINE, String LF EmptyString); (EOF, EmptyString) ]
  /\ shapes (fst (tokenize lfWord))
     = [ (EQUALS, "="); (IDENTIFIER, "text"); (EQUALS, "="); (STRING, "Hello");
         (EQUALS, "="); (NEWLINE, String LF EmptyString); (EOF, EmptyString) ]
  /\ snd (tokenize crlfLine) = [] /\ snd (tokenize crlfWord) = []
  /\ attributeFollows ("World=" +:+ String CR (String LF EmptyString)) = true
  /\ attributeFollows ("World=" +:+ String LF EmptyString) = false
  /\ looksLikeAttributeAt ("Hello=" +:+ String CR (String LF EmptyString)) = true
  /\ looksLikeAttributeAt ("Hello=" +:+ String LF EmptyString) = false.
Proof. vm_compute. auto 12. Qed.

(** *** The loop of [tokenize] ends *)

Lemma pos_updateValueContext (lx : Lexer) :
  pos (updateValueContext lx) = pos lx /\ source (updateValueContext lx) = source lx.
Proof.
  unfold updateValueContext.
  destruct (rev (tokens lx)) as [|t1 [|t2 [|t3 [|t4 before]]]]; simpl; auto;
    repeat match goal with |- context [if ?b then _ else _] => destruct b end;
    simpl; auto.
Qed.

Lemma skipWhitespace_stops (s : string) :
  match drop (skipWhitespace_count s) s with
  | EmptyString => True
  | String c _ => isSpaceOrTab c = false
  end.
Proof.
  induction s as [|c s IH]; simpl; [exact I|].
  destruct (isSpaceOrTab c) eqn:Hs; simpl; [exact IH|].
  destruct (Ascii.eqb c CR && bool_decide (head s = Some LF)); simpl; [exact IH|].
  exact Hs.
Qed.

Lemma remaining_cons (lx : Lexer) :
  isAtEndInternal lx = false -> exists c rest, remaining lx = String c rest.
Proof.
  unfold isAtEndInternal, remaining. intros E%Nat.leb_gt.
  pose proof (drop_length_le (pos lx) (source lx)) as L.
  destruct (drop (pos lx) (source lx)) as [|c rest]; [simpl in L; lia | eauto].
Qed.

(** Away from the end of the source, [scanToken] moves the position. *)
Lemma scanToken_progress (lx : Lexer) :
  isAtEndInternal lx = false ->
  source (scanToken lx) = source lx /\ pos lx < pos (scanToken lx).
Proof.
  intros Hend. unfold scanToken.
  set (lx1 := skipWhitespace lx).
  assert (Hsrc : source lx1 = source lx) by reflexivity.
  assert (Hpos : pos lx <= pos lx1) by (simpl; lia).
  destruct (isAtEndInternal lx1) eqn:Hend1.
  { split; [exact Hsrc|]. unfold isAtEndInternal in *.
    apply Nat.leb_gt in Hend. apply Nat.leb_le in Hend1. rewrite Hsrc in Hend1. lia. }
  destruct (remaining_cons lx1 Hend1) as (c & rest & E).
  assert (Hns : isSpaceOrTab c = false).
  { pose proof (skipWhitespace_stops (remaining lx)) as H.
    unfold lx1, skipWhitespace in E. rewrite remaining_advanceBy in E.
    now rewrite E in H. }
  rewrite (current_cons lx1 c rest E).
  repeat match goal with
         | |- context [if ?b then _ else _] =>
             lazymatch b with
             | shouldScanString _ => fail
             | isAlpha _ => fail
             | isDigit _ => fail
             | _ => destruct b
             end
         end;
    try (simpl; split; [exact Hsrc | lia]);
    try (destruct (pos_updateValueContext (addToken EQUALS "=" (cur_column lx1) (advance lx1)))
           as [-> ->]; simpl; split; [exact Hsrc | lia]).
  destruct (shouldScanString lx1) eqn:Hss.
  { unfold scanString. rewrite E.
    unfold shouldScanString in Hss. rewrite (current_cons lx1 c rest E) in Hss.
    destruct (negb (inValueContext lx1)); [discriminate|].
    destruct (Ascii.eqb c "=") eqn:He; [discriminate|].
    destruct (Ascii.eqb c LF) eqn:Hl; [discriminate|].
    simpl scanString_value. rewrite Hl, He, Hns. simpl.
    match goal with |- context [if ?b then _ else _] => destruct b end;
      simpl; split; try exact Hsrc; lia. }
  destruct (isAlpha c) eqn:Ha.
  { unfold scanIdentifierOrHexColor. rewrite E. simpl span.
    destruct (alpha_plain c Ha) as (_ & _ & _ & _ & _ & _ & _ & _ & ->).
    match goal with |- context [if ?b then _ else _] => destruct b end;
      simpl; split; try exact Hsrc; lia. }
  destruct (isDigit c) eqn:Hd.
  { unfold scanNumberOrHexColor. rewrite E. simpl span.
    destruct (digit_plain c Hd) as (_ & _ & _ & _ & _ & _ & _ & _ & _ & -> & _).
    match goal with |- context [if ?b then _ else _] => destruct b end;
      simpl; split; try exact Hsrc; lia. }
  simpl. split; [exact Hsrc | lia].
Qed.

(** The fuel [tokenize] gives its loop, the length of the source, is enough:
    the loop stops because the end of the source is reached. *)
Lemma scanAll_reaches_end (fuel : nat) (lx : Lexer) :
  String.length (source lx) - pos lx <= fuel ->
  isAtEndInternal (scanAll fuel lx) = true.
Proof.
  revert lx. induction fuel as [|fuel IH]; intros lx Hfuel; simpl.
  - destruct (isAtEndInternal lx) eqn:E; [exact E|].
    unfold isAtEndInternal in E. apply Nat.leb_gt in E. lia.
  - destruct (isAtEndInternal lx) eqn:E; [exact E|].
    destruct (scanToken_progress lx E) as [Hsrc Hpos].
    apply IH. rewrite Hsrc. lia.
Qed.

Lemma tokenize_scans_whole_source (src : string) :
  isAtEndInternal (scanAll (String.length src) (new src)) = true.
Proof. apply scanAll_reaches_end. simpl. lia. Qed.

End LexerFacts.

(** ** The parser *)

Module ParserFacts.
Import JS JSFacts Ast Parser Notions.

Section WithExternals.
Context `{Externals}.

Lemma parseElement_shape (ty remaining : string) (ln : nat) :
  exists props content endCol,
    parseElement ty remaining ln
    = ElementObj ty props [] content 0 (createLocation ln 1 ln endCol).
Proof.
  unfold parseElement, createElement.
  destruct (String.eqb remaining EmptyString); [eauto|].
  destruct (startsWith " " remaining); [eauto|].
  destruct (findContentEnd remaining); eauto.
Qed.

(** What [parseStatement] may change of the parser, and what it returns. *)
Lemma parseStatement_effect (content : string) (ln : nat) (p : Parser) :
  let r := parseStatement content ln p in
  lines (snd r) = lines p /\ currentLine (snd r) = currentLine p
  /\ heap (snd r) = heap p /\ body (snd r) = body p
  /\ language (Parser.metadata (snd r)) = language (Parser.metadata p)
  /\ fontSize (Parser.metadata (snd r)) = fontSize (Parser.metadata p)
  /\ (forall node, fst r = Some node -> freshNode ln node).
Proof.
  unfold parseStatement.
  destruct (negb (startsWith "=" content)); [simpl; intuition discriminate|].
  destruct (startsWith "=(" content && includes ")=" content).
  { unfold parseSpecialElement.
    destruct (matchSpecial content) as [w|]; [|simpl; intuition discriminate].
    destruct (String.eqb (toLowerCase w) "time"); simpl; [|intuition discriminate].
    repeat split; auto. all: injection H0 as <-; simpl; auto. }
  unfold parsePropertyOrElement.
  destruct (indexOf "=" (drop 1 content)) as [nameEnd|]; [|simpl; intuition discriminate].
  set (name := toLowerCase (trim (take nameEnd (drop 1 content)))).
  set (remaining := drop (nameEnd + 1) (drop 1 content)).
  destruct (DOC_PROPERTIES_has name) eqn:Hdoc.
  { simpl. repeat split; auto. all: injection H0 as <-; simpl; auto. }
  destruct (String.eqb name "title").
  { destruct (parseElement_shape "title" remaining ln) as (props & c & e & ->).
    destruct (titleUnset (Parser.metadata p)); simpl; repeat split; auto.
    all: injection H0 as <-; simpl; auto. }
  destruct (isValidElementType name); [|simpl; intuition discriminate].
  destruct (parseElement_shape name remaining ln) as (props & c & e & ->).
  simpl. repeat split; auto. all: injection H0 as <-; simpl; auto.
Qed.

Lemma popNonDivide_allDivide (h : list NodeObj) (indent : nat) (stack : list Frame) :
  stackAllDivide h stack -> popNonDivide h indent stack = stack.
Proof.
  intros Hall. destruct stack as [|top below]; [reflexivity|].
  apply Forall_cons in Hall as [Htop _]. simpl.
  destruct (indent <=? frame_indent top); [|reflexivity].
  now rewrite bool_decide_eq_true_2.
Qed.

Lemma elementTypeAt_lt (h : list NodeObj) (a : nat) (ty : string) :
  elementTypeAt h a = Some ty -> a < length h.
Proof.
  unfold elementTypeAt. destruct (h !! a) eqn:E; [|discriminate].
  intros _. eapply lookup_lt_Some, E.
Qed.

Lemma pushChild_location (c : nat) (o : NodeObj) :
  objLocation (pushChild c o) = objLocation o.
Proof. now destruct o. Qed.

Lemma pushChild_isDivide (c : nat) (o : NodeObj) :
  isDivide (pushChild c o) = isDivide o.
Proof. now destruct o. Qed.

Lemma pushChild_children (c : nat) (o : NodeObj) :
  isDivide o = true -> objChildren (pushChild c o) = objChildren o ++ [c].
Proof. destruct o; simpl; [discriminate | reflexivity | discriminate]. Qed.

Lemma isDivide_type (h : list NodeObj) (a : nat) (o : NodeObj) :
  h !! a = Some o -> (elementTypeAt h a = Some "divide" <-> isDivide o = true).
Proof.
  intros E. unfold elementTypeAt. rewrite E.
  destruct o as [| ty ? ? ? ? ? |]; simpl; try (split; discriminate).
  split.
  - intros [= ->]. reflexivity.
  - intros ->%String.eqb_eq. reflexivity.
Qed.

(** The store after [push]: the objects of [h ++ [node]], the one at [t]
    with one more child. *)
Lemma lookup_pushed (h : list NodeObj) (node : NodeObj) (t a : nat) (o' : NodeObj) :
  alter (pushChild (length h)) t (h ++ [node]) !! a = Some o' ->
  t < length h ->
  (a = length h /\ o' = node)
  \/ (a < length h /\ a <> t /\ h !! a = Some o')
  \/ (a = t /\ exists o, h !! t = Some o /\ o' = pushChild (length h) o).
Proof.
  intros E Ht.
  destruct (decide (a = t)) as [->|Hne].
  - right; right. split; [reflexivity|].
    rewrite list_lookup_alter_eq, lookup_app_l in E by exact Ht.
    destruct (h !! t) as [o|]; [|discriminate].
    exists o. split; [reflexivity|]. now injection E as <-.
  - rewrite list_lookup_alter_ne in E by congruence.
    apply lookup_app_Some in E as [E | [Hge E]].
    + right; left. split; [eapply lookup_lt_Some, E | split; [exact Hne | exact E]].
    + left. apply list_lookup_singleton_Some in E as [E ->].
      split; [lia | reflexivity].
Qed.

Lemma heapInv_push_body (ls : list string) (h : list NodeObj) (bd : list nat)
    (node : NodeObj) :
  heapInv ls h bd -> objChildren node = [] ->
  heapInv ls (h ++ [node]) (bd ++ [length h]).
Proof.
  intros [Hdiv Hfwd Hdepth Hbody] Hnode.
  assert (Hold : forall a o, (h ++ [node]) !! a = Some o ->
                 (a < length h /\ h !! a = Some o) \/ o = node).
  { intros a o [E | [Hge E]]%lookup_app_Some.
    - left. split; [eapply lookup_lt_Some, E | exact E].
    - right. now apply list_lookup_singleton_Some in E as [_ ->]. }
  split.
  - intros a o E Hch. destruct (Hold a o E) as [[_ E'] | ->]; [eauto | congruence].
  - intros a o c E Hc. rewrite length_app. simpl.
    destruct (Hold a o E) as [[_ E'] | ->].
    + specialize (Hfwd a o c E' Hc). lia.
    + rewrite Hnode in Hc. now apply elem_of_nil in Hc.
  - intros a o c oc E Hc Ec.
    destruct (Hold a o E) as [[_ E'] | ->].
    + pose proof (Hfwd a o c E' Hc) as Hlt.
      rewrite lookup_app_l in Ec by lia. eauto.
    + rewrite Hnode in Hc. now apply elem_of_nil in Hc.
  - rewrite length_app. simpl. apply Forall_app. split.
    + eapply Forall_impl; [exact Hbody|]. simpl. intros; lia.
    + apply Forall_singleton. lia.
Qed.

Lemma heapInv_push_child (ls : list string) (h : list NodeObj) (bd : list nat)
    (node : NodeObj) (t : nat) :
  heapInv ls h bd -> objChildren node = [] ->
  elementTypeAt h t = Some "divide" ->
  0 < depthOfLine ls (startLine (objLocation node)) ->
  heapInv ls (alter (pushChild (length h)) t (h ++ [node])) bd.
Proof.
  intros [Hdiv Hfwd Hdepth Hbody] Hnode Ht Hpos.
  pose proof (elementTypeAt_lt h t _ Ht) as Hlt.
  assert (Hlen : length (alter (pushChild (length h)) t (h ++ [node])) = S (length h))
    by (rewrite length_alter, length_app; simpl; lia).
  split.
  - intros a o E Hch.
    destruct (lookup_pushed h node t a o E Hlt)
      as [[_ ->] | [(_ & _ & E') | (-> & o0 & E' & ->)]]; [congruence | eauto |].
    rewrite pushChild_isDivide. now apply (isDivide_type h t o0 E').
  - intros a o c E Hc. rewrite Hlen.
    destruct (lookup_pushed h node t a o E Hlt)
      as [[_ ->] | [(_ & _ & E') | (-> & o0 & E' & ->)]].
    + rewrite Hnode in Hc. now apply elem_of_nil in Hc.
    + specialize (Hfwd a o c E' Hc). lia.
    + rewrite pushChild_children in Hc by now apply (isDivide_type h t o0 E').
      apply elem_of_app in Hc as [Hc | ->%list_elem_of_singleton]; [|lia].
      specialize (Hfwd t o0 c E' Hc). lia.
  - intros a o c oc E Hc Ec.
    assert (Hoc : (c = length h /\ oc = node)
                  \/ exists oc0, h !! c = Some oc0 /\ objLocation oc = objLocation oc0).
    { destruct (lookup_pushed h node t c oc Ec Hlt)
        as [[-> ->] | [(_ & _ & E') | (-> & o0 & E' & ->)]]; [now left | eauto |].
      right. exists o0. split; [exact E' | apply pushChild_location]. }
    destruct (lookup_pushed h node t a o E Hlt)
      as [[_ ->] | [(_ & _ & E') | (-> & o0 & E' & ->)]].
    + rewrite Hnode in Hc. now apply elem_of_nil in Hc.
    + destruct Hoc as [[-> _] | (oc0 & Ec0 & ->)]; [|eauto].
      specialize (Hfwd a o _ E' Hc). lia.
    + rewrite pushChild_children in Hc by now apply (isDivide_type h t o0 E').
      apply elem_of_app in Hc as [Hc | ->%list_elem_of_singleton].
      * destruct Hoc as [[-> _] | (oc0 & Ec0 & ->)]; [|eauto].
        specialize (Hfwd t o0 _ E' Hc). lia.
      * destruct Hoc as [[_ ->] | (oc0 & Ec0 & _)]; [exact Hpos|].
        apply lookup_lt_Some in Ec0. lia.
  - rewrite Hlen. eapply Forall_impl; [exact Hbody|]. simpl. intros; lia.
Qed.

Lemma stackAllDivide_grow (h h' : list NodeObj) (stack : list Frame) :
  (forall a, a < length h -> elementTypeAt h' a = elementTypeAt h a) ->
  stackAllDivide h stack -> stackAllDivide h' stack.
Proof.
  intros Hsame Hall. eapply Forall_impl; [exact Hall|]. simpl.
  intros f Hf. rewrite Hsame; [exact Hf | eapply elementTypeAt_lt, Hf].
Qed.

Lemma elementTypeAt_app (h : list NodeObj) (node : NodeObj) (a : nat) :
  a < length h -> elementTypeAt (h ++ [node]) a = elementTypeAt h a.
Proof. intros Hlt. unfold elementTypeAt. now rewrite lookup_app_l. Qed.

Lemma elementTypeAt_alter (h : list NodeObj) (c t a : nat) :
  elementTypeAt (alter (pushChild c) t h) a = elementTypeAt h a.
Proof.
  unfold elementTypeAt. destruct (decide (t = a)) as [->|Hne].
  - rewrite list_lookup_alter_eq. destruct (h !! a) as [[]|]; reflexivity.
  - now rewrite list_lookup_alter_ne.
Qed.

Lemma new_frame_divide (h : list NodeObj) (node : NodeObj) :
  isDivide node = true -> elementTypeAt (h ++ [node]) (length h) = Some "divide".
Proof.
  intros Hd. apply (isDivide_type _ _ node); [|exact Hd].
  now rewrite lookup_app_r, Nat.sub_diag by lia.
Qed.

(** [attach] keeps the invariants, and leaves the stack as it is or pushes
    one frame. *)
Lemma attach_inv (ls : list string) (node : NodeObj) (indent : nat) (p : Parser)
    (stack : list Frame) :
  heapInv ls (heap p) (body p) -> stackAllDivide (heap p) stack ->
  objChildren node = [] -> depthOfLine ls (startLine (objLocation node)) = indent ->
  let r := attach node indent p stack in
  heapInv ls (heap (fst r)) (body (fst r))
  /\ stackAllDivide (heap (fst r)) (snd r)
  /\ lines (fst r) = lines p /\ currentLine (fst r) = currentLine p
  /\ Parser.metadata (fst r) = Parser.metadata p
  /\ (snd r = stack \/ exists f, snd r = f :: stack).
Proof.
  intros Hinv Hstack Hnode Hdepth. unfold attach.
  assert (Hbody : heapInv ls (heap p ++ [node]) (body p ++ [length (heap p)]))
    by now apply heapInv_push_body.
  assert (Hgrow : stackAllDivide (heap p ++ [node]) stack).
  { eapply stackAllDivide_grow; [|exact Hstack].
    intros a Ha. now apply elementTypeAt_app. }
  assert (Htail : forall h', (forall a, elementTypeAt h' a = elementTypeAt (heap p ++ [node]) a) ->
            stackAllDivide h'
              (if isDivide node then mkFrame (length (heap p)) indent :: stack else stack)).
  { intros h' Hsame.
    assert (Hs : stackAllDivide h' stack).
    { eapply Forall_impl; [exact Hgrow|]. simpl. intros f Hf. now rewrite Hsame. }
    destruct (isDivide node) eqn:Hd; [|exact Hs].
    apply Forall_cons. split; [|exact Hs]. simpl.
    rewrite Hsame. now apply new_frame_divide. }
  assert (Hshape : forall s : list Frame,
            (if isDivide node then mkFrame (length (heap p)) indent :: s else s) = s
            \/ exists f, (if isDivide node then mkFrame (length (heap p)) indent :: s else s)
                         = f :: s)
    by (intros s; destruct (isDivide node); eauto).
  destruct stack as [|top below].
  - simpl. split_and!; auto.
  - destruct (0 <? indent) eqn:Hpos; simpl.
    + apply Nat.ltb_lt in Hpos. apply Forall_cons in Hstack as [Htop _].
      split_and!; auto.
      * apply heapInv_push_child; auto. lia.
      * apply Htail. intros a. apply elementTypeAt_alter.
    + split_and!; auto.
Qed.

(** One turn of the loop of [parseBody] keeps the invariants; it moves to
    the next line and leaves [lines] alone. *)
Lemma parseBody_step_inv (rawLine : string) (p : Parser) (stack : list Frame)
    (p' : Parser) (stack' : list Frame) :
  lines p !! currentLine p = Some rawLine ->
  heapInv (lines p) (heap p) (body p) -> stackAllDivide (heap p) stack ->
  parseBody_step rawLine p stack = Some (p', stack') ->
  lines p' = lines p /\ currentLine p' = currentLine p + 1
  /\ heapInv (lines p') (heap p') (body p') /\ stackAllDivide (heap p') stack'
  /\ (stack' = stack \/ (exists f, stack' = f :: stack)
      \/ (snd (parseIndentation rawLine) = "=divide=" /\ stack <> []
          /\ stack' = List.tail stack)).
Proof.
  intros Hline Hinv Hstack. unfold parseBody_step.
  destruct (String.eqb (trim rawLine) "==CTIW=="); [discriminate|].
  destruct (String.eqb (trim rawLine) EmptyString).
  { intros [= <- <-]. simpl. auto 10. }
  destruct (parseIndentation rawLine) as [indent content] eqn:Hind.
  destruct (String.eqb content "=divide=" && (0 <? length stack)) eqn:Hclose.
  { intros [= <- <-]. simpl.
    apply andb_prop in Hclose as [Hc%String.eqb_eq Hs%Nat.ltb_lt].
    split_and!; auto.
    - destruct stack; [exact Hstack | now apply Forall_cons in Hstack].
    - right; right. split_and!; auto. intros ->. simpl in Hs. lia. }
  pose proof (parseStatement_effect content (currentLine p + 1) p) as Heff.
  destruct (parseStatement content (currentLine p + 1) p) as [parsed p1].
  simpl in Heff. destruct Heff as (Hl & Hc & Hh & Hb & _ & _ & Hfresh).
  destruct parsed as [node|].
  2:{ intros [= <- <-]. simpl. rewrite Hl, Hc, Hh, Hb. auto 10. }
  destruct (Hfresh node eq_refl) as (Hnode & Hstart & _).
  rewrite Hh, (popNonDivide_allDivide _ _ _ Hstack).
  assert (Hdepth : depthOfLine (lines p) (startLine (objLocation node)) = indent).
  { unfold depthOfLine. rewrite Hstart.
    replace (currentLine p + 1 - 1) with (currentLine p) by lia.
    now rewrite Hline, Hind. }
  destruct node as [name v loc | ty props ch c i loc | ty loc].
  - intros [= <- <-]. simpl. rewrite Hl, Hc, Hh, Hb. auto 10.
  - pose proof (attach_inv (lines p) (ElementObj ty props ch c i loc) indent p1 stack)
      as Hatt.
    rewrite Hh, Hb in Hatt. specialize (Hatt Hinv Hstack Hnode Hdepth).
    destruct (attach (ElementObj ty props ch c i loc) indent p1 stack) as [p2 stack2].
    simpl in Hatt. destruct Hatt as (Hi & Hs & Hl2 & Hc2 & _ & Hsh).
    intros [= <- <-]. simpl. rewrite Hl2, Hc2, Hl, Hc.
    split_and!; auto. destruct Hsh; auto.
  - pose proof (attach_inv (lines p) (SpecialObj ty loc) indent p1 stack) as Hatt.
    rewrite Hh, Hb in Hatt. specialize (Hatt Hinv Hstack Hnode Hdepth).
    destruct (attach (SpecialObj ty loc) indent p1 stack) as [p2 stack2].
    simpl in Hatt. destruct Hatt as (Hi & Hs & Hl2 & Hc2 & _ & Hsh).
    intros [= <- <-]. simpl. rewrite Hl2, Hc2, Hl, Hc.
    split_and!; auto. destruct Hsh; auto.
Qed.

Lemma parseBody_loop_inv (rest : list string) (p : Parser) (stack : list Frame) :
  skipn (currentLine p) (lines p) = rest ->
  heapInv (lines p) (heap p) (body p) -> stackAllDivide (heap p) stack ->
  let r := parseBody_loop rest p stack in
  lines (fst r) = lines p
  /\ heapInv (lines p) (heap (fst r)) (body (fst r))
  /\ stackAllDivide (heap (fst r)) (snd r).
Proof.
  revert p stack. induction rest as [|rawLine rest IH]; intros p stack Hrest Hinv Hstack.
  - simpl. auto.
  - simpl.
    assert (Hline : lines p !! currentLine p = Some rawLine).
    { pose proof (lookup_drop (lines p) (currentLine p) 0) as E.
      rewrite Hrest, Nat.add_0_r in E. now rewrite <- E. }
    destruct (parseBody_step rawLine p stack) as [[p' stack']|] eqn:Hstep; [|simpl; auto].
    destruct (parseBody_step_inv rawLine p stack p' stack' Hline Hinv Hstack Hstep)
      as (Hl & Hc & Hi & Hs & _).
    rewrite Hl in Hi.
    assert (Hrest' : skipn (currentLine p') (lines p') = rest).
    { rewrite Hl, Hc. replace (currentLine p + 1) with (S (currentLine p)) by lia.
      rewrite <- (Nat.add_1_r (currentLine p)), <- drop_drop, Hrest. reflexivity. }
    rewrite <- Hl in Hi.
    destruct (IH p' stack' Hrest' Hi Hs) as (Hl' & Hi' & Hs').
    rewrite Hl in Hl', Hi'. auto.
Qed.

Lemma parseMarker_effect (marker : string) (p : Parser) :
  let r := parseMarker marker p in
  lines (snd r) = lines p /\ heap (snd r) = heap p /\ body (snd r) = body p
  /\ Parser.metadata (snd r) = Parser.metadata p /\ errors (snd r) = errors p.
Proof.
  unfold parseMarker, skipEmptyLines. simpl.
  destruct (lines p !! _) as [l|]; simpl; auto.
  destruct (String.eqb (trim l) marker); simpl; auto.
Qed.

Lemma heapInv_empty (ls : list string) : heapInv ls [] [].
Proof.
  split.
  - intros a o E. now rewrite lookup_nil in E.
  - intros a o c E. now rewrite lookup_nil in E.
  - intros a o c oc E. now rewrite lookup_nil in E.
  - constructor.
Qed.

(** The store [parse] ends with satisfies the invariants. *)
Lemma Parser_parse_inv (src : string) :
  let p := snd (Parser_parse (new src)) in
  lines p = split LF src /\ heapInv (split LF src) (heap p) (body p).
Proof.
  unfold Parser_parse.
  pose proof (parseMarker_effect "=CTIW=" (new src)) as H1.
  fold (parseHeader (new src)) in H1.
  destruct (parseHeader (new src)) as [okHeader p1]. simpl in H1.
  destruct H1 as (Hl1 & Hh1 & Hb1 & _).
  set (p2 := if okHeader then p1 else _).
  assert (H2 : lines p2 = split LF src /\ heap p2 = [] /\ body p2 = [])
    by (unfold p2; destruct okHeader; simpl; auto).
  destruct H2 as (Hl2 & Hh2 & Hb2).
  pose proof (parseBody_loop_inv _ p2 [] eq_refl) as H3.
  rewrite Hh2, Hb2, Hl2 in H3.
  specialize (H3 (heapInv_empty _) (Forall_nil_2 _)).
  fold (parseBody p2) in H3. simpl in H3. destruct H3 as (Hl3 & Hi3 & _).
  pose proof (parseMarker_effect "==CTIW==" (parseBody p2)) as H4.
  fold (parseFooter (parseBody p2)) in H4.
  destruct (parseFooter (parseBody p2)) as [okFooter p4]. simpl in H4.
  destruct H4 as (Hl4 & Hh4 & Hb4 & _).
  destruct okFooter; simpl; rewrite ?Hl4, ?Hh4, ?Hb4;
    unfold parseBody; rewrite Hl2; auto.
Qed.

End WithExternals.

End ParserFacts.

(** ** Reading the tree off the store *)

Module ReifyFacts.
Import JS JSFacts Ast Parser Notions ParserFacts.

Section WithExternals.
Context `{Externals}.

Lemma allNodes_unfold (n : CTIWNode) :
  allNodes n = n :: List.concat (List.map allNodes (nodeChildren n)).
Proof. now destruct n. Qed.

Lemma reifyFrom_length (base : nat) (objs : list NodeObj) :
  length (reifyFrom base objs) = length objs.
Proof.
  revert base. induction objs as [|o objs IH]; intros base; simpl; [reflexivity|].
  now rewrite IH.
Qed.

Lemma readOff_shift (base : nat) (t0 : CTIWNode) (later : list CTIWNode)
    (o : NodeObj) (t : CTIWNode) :
  (forall c, c ∈ objChildren o -> S base <= c) ->
  readOff (S base) later o t -> readOff base (t0 :: later) o t.
Proof.
  intros Hfwd (Hloc & Hdiv & Hch). split_and!; auto.
  rewrite Hch. apply map_ext_in. intros c Hc%list_elem_of_In.
  specialize (Hfwd c Hc).
  replace (c - base) with (S (c - S base)) by lia. reflexivity.
Qed.

(** Every object of the store has its tree, read off it, at its address. *)
Lemma reifyFrom_readOff (objs : list NodeObj) (base : nat) :
  (forall i o c, objs !! i = Some o -> c ∈ objChildren o -> base + i < c) ->
  forall i o, objs !! i = Some o ->
  exists t, reifyFrom base objs !! i = Some t /\ readOff base (reifyFrom base objs) o t.
Proof.
  revert base. induction objs as [|o0 objs IH]; intros base Hfwd i o E.
  - now rewrite lookup_nil in E.
  - simpl reifyFrom. set (later := reifyFrom (S base) objs).
    destruct i as [|i].
    + injection E as <-. eexists. split; [reflexivity|].
      assert (Hch : forall ch, (forall c, c ∈ ch -> base < c) ->
                List.map (fun a => if base <? a then List.nth (a - S base) later danglingNode
                                   else danglingNode) ch
                = List.map (fun c => List.nth (c - base) (danglingNode :: later) danglingNode) ch).
      { intros ch Hlt. apply map_ext_in. intros c Hc%list_elem_of_In.
        specialize (Hlt c Hc). apply Nat.ltb_lt in Hlt as Hb. rewrite Hb.
        replace (c - base) with (S (c - S base)) by lia. reflexivity. }
      assert (Hlt : forall c, c ∈ objChildren o0 -> base < c).
      { intros c Hc. specialize (Hfwd 0 o0 c eq_refl Hc). lia. }
      destruct o0 as [name v loc | ty props ch content ind loc | ty loc];
        unfold readOff; simpl; split_and!; auto.
      rewrite (Hch ch Hlt). apply map_ext_in. intros c Hc%list_elem_of_In.
      specialize (Hlt c Hc). simpl in Hlt.
      replace (c - base) with (S (c - S base)) by lia. reflexivity.
    + simpl in E.
      destruct (IH (S base)) with (i := i) (o := o) as (t & Et & Hr); [|exact E|].
      { intros j oj c Ej Hc. specialize (Hfwd (S j) oj c Ej Hc). lia. }
      exists t. split; [exact Et|].
      apply readOff_shift; [|exact Hr].
      intros c Hc. specialize (Hfwd (S i) o c E Hc). lia.
Qed.

(** The trees of the store are closed under taking sub-nodes. *)
Lemma reifyFrom_closed (objs : list NodeObj) (base : nat) :
  (forall i o c, objs !! i = Some o -> c ∈ objChildren o ->
                 base + i < c < base + length objs) ->
  forall t n, t ∈ reifyFrom base objs -> n ∈ allNodes t -> n ∈ reifyFrom base objs.
Proof.
  revert base. induction objs as [|o0 objs IH]; intros base Hfwd t n Ht Hn.
  - simpl in Ht. now apply elem_of_nil in Ht.
  - assert (IH' : forall t n, t ∈ reifyFrom (S base) objs -> n ∈ allNodes t ->
                  n ∈ reifyFrom (S base) objs).
    { apply IH. intros j oj c Ej Hc. specialize (Hfwd (S j) oj c Ej Hc).
      simpl in Hfwd. lia. }
    assert (Hcons : exists t0, reifyFrom base (o0 :: objs)
                               = t0 :: reifyFrom (S base) objs) by (simpl; eauto).
    destruct Hcons as (t0 & Hcons).
    destruct (reifyFrom_readOff (o0 :: objs) base) with (i := 0) (o := o0)
      as (t0' & Et0 & _ & _ & Hch); [|reflexivity|].
    { intros j oj c Ej Hc. specialize (Hfwd j oj c Ej Hc). lia. }
    rewrite Hcons in *. injection Et0 as <-.
    set (later := reifyFrom (S base) objs) in *.
    apply elem_of_cons in Ht as [-> | Ht].
    + rewrite allNodes_unfold in Hn. apply elem_of_cons in Hn as [-> | Hn].
      { apply list_elem_of_here. }
      apply elem_of_cons. right.
      apply list_elem_of_In, in_concat in Hn as (l & Hl & Hn).
      apply in_map_iff in Hl as (child & <- & Hchild).
      rewrite Hch in Hchild.
      apply in_map_iff in Hchild as (c & <- & Hc%list_elem_of_In).
      specialize (Hfwd 0 o0 c eq_refl Hc). simpl in Hfwd.
      apply list_elem_of_In in Hn.
      apply (IH' (List.nth (c - base) (t0 :: later) danglingNode)); [|exact Hn].
      replace (c - base) with (S (c - S base)) by lia. simpl.
      apply list_elem_of_In, nth_In. unfold later. rewrite reifyFrom_length. lia.
    + apply elem_of_cons. right. eapply IH'; eauto.
Qed.

Lemma parse_document (src : string) :
  doc_children (document (parse src))
  = List.map (reify (heap (finalParser src))) (body (finalParser src)).
Proof.
  unfold parse, finalParser, Parser_parse.
  destruct (parseHeader (new src)) as [okHeader p1].
  destruct (parseFooter _) as [okFooter p4]. reflexivity.
Qed.

(** Every node of a parsed document was read off an object of the store. *)
Lemma documentNodes_readOff (src : string) (n : CTIWNode) :
  n ∈ documentNodes (document (parse src)) ->
  exists j o, heap (finalParser src) !! j = Some o
              /\ readOff 0 (reifyFrom 0 (heap (finalParser src))) o n.
Proof.
  destruct (Parser_parse_inv src) as [_ Hinv]. fold (finalParser src) in Hinv.
  set (p := finalParser src) in *. set (trees := reifyFrom 0 (heap p)).
  assert (Hfwd : forall i o c, heap p !! i = Some o -> c ∈ objChildren o ->
                 0 + i < c < 0 + length (heap p)).
  { intros i o c E Hc. simpl. exact (inv_forward _ _ _ Hinv i o c E Hc). }
  unfold documentNodes. rewrite parse_document. fold p.
  intros Hn. apply list_elem_of_In, in_concat in Hn as (l & Hl & Hn).
  apply in_map_iff in Hl as (t & <- & Ht).
  apply in_map_iff in Ht as (a & <- & Ha%list_elem_of_In).
  pose proof (inv_body _ _ _ Hinv) as Hbody.
  rewrite Forall_forall in Hbody. specialize (Hbody a Ha).
  assert (Hin : n ∈ trees).
  { apply (reifyFrom_closed (heap p) 0 Hfwd (reify (heap p) a)).
    - unfold reify. apply list_elem_of_In, nth_In. now rewrite reifyFrom_length.
    - now apply list_elem_of_In. }
  apply list_elem_of_lookup in Hin as (j & Ej).
  assert (Hj : j < length (heap p)).
  { apply lookup_lt_Some in Ej. unfold trees in Ej. now rewrite reifyFrom_length in Ej. }
  destruct (lookup_lt_is_Some_2 (heap p) j Hj) as (o & Eo).
  destruct (reifyFrom_readOff (heap p) 0) with (i := j) (o := o) as (t & Et & Hr);
    [intros i oi c E Hc; specialize (Hfwd i oi c E Hc); lia | exact Eo |].
  fold trees in Et, Hr. rewrite Ej in Et. injection Et as ->. eauto.
Qed.

End WithExternals.

(** C10.  In every document [parse] produces, a node with a non-empty
    children list is an Element of kind divide: every node of any other kind
    has no children. *)
Theorem C10_only_divide_has_children `{Externals} (src : string) :
  Forall (fun n => nodeChildren n = [] \/ isDivideElement n = true)
    (documentNodes (document (parse src))).
Proof.
  apply Forall_forall. intros n Hn.
  destruct (documentNodes_readOff src n Hn) as (j & o & Eo & _ & Hdiv & Hch).
  destruct (Parser_parse_inv src) as [_ Hinv]. fold (finalParser src) in Hinv.
  destruct (objChildren o) as [|c ch] eqn:Ech.
  - left. now rewrite Hch.
  - right. rewrite Hdiv. apply (inv_children_divide _ _ _ Hinv j o Eo).
    now rewrite Ech.
Qed.

End ReifyFacts.

(** ** Containers *)

Module ContainerFacts.
Import JS JSFacts Ast Parser Notions ParserFacts ReifyFacts Examples.

Lemma trimStart_keeps (c : ascii) (s : string) :
  isWhiteSpace c = false -> trimStart (String c s) = String c s.
Proof. intros Hc. simpl. now rewrite Hc. Qed.

Lemma trimStart_head (s : string) :
  match trimStart s with
  | EmptyString => True
  | String c _ => isWhiteSpace c = false
  end.
Proof.
  induction s as [|c s IH]; simpl; [exact I|].
  destruct (isWhiteSpace c) eqn:Hc; [exact IH | exact Hc].
Qed.

Lemma trimEnd_head (c d : ascii) (s r : string) :
  trimEnd (String c s) = String d r -> c = d.
Proof.
  simpl. destruct (trimEnd s).
  - destruct (isWhiteSpace c); [discriminate | now intros [= -> _]].
  - now intros [= -> _].
Qed.



Section WithExternals.
Context `{Externals}.

(** The stack after [attach]: the same, or one frame more; its frames still
    refer to divides. *)
Lemma attach_stack (node : NodeObj) (indent : nat) (p : Parser) (stack : list Frame) :
  stackAllDivide (heap p) stack ->
  let r := attach node indent p stack in
  stackAllDivide (heap (fst r)) (snd r)
  /\ (snd r = stack \/ exists f, snd r = f :: stack).
Proof.
  intros Hstack. unfold attach.
  assert (Hgrow : stackAllDivide (heap p ++ [node]) stack).
  { eapply stackAllDivide_grow; [|exact Hstack].
    intros a Ha. now apply elementTypeAt_app. }
  assert (Htail : forall h', (forall a, elementTypeAt h' a = elementTypeAt (heap p ++ [node]) a) ->
            stackAllDivide h'
              (if isDivide node then mkFrame (length (heap p)) indent :: stack else stack)).
  { intros h' Hsame.
    assert (Hs : stackAllDivide h' stack).
    { eapply Forall_impl; [exact Hgrow|]. simpl. intros f Hf. now rewrite Hsame. }
    destruct (isDivide node) eqn:Hd; [|exact Hs].
    apply Forall_cons. split; [|exact Hs]. simpl.
    rewrite Hsame. now apply new_frame_divide. }
  assert (Hshape : forall s : list Frame,
            (if isDivide node then mkFrame (length (heap p)) indent :: s else s) = s
            \/ exists f, (if isDivide node then mkFrame (length (heap p)) indent :: s else s)
                         = f :: s)
    by (intros s; destruct (isDivide node); eauto).
  destruct stack as [|top below]; [simpl; auto|].
  destruct (0 <? indent); simpl; split; auto.
  apply Htail. intros a. apply elementTypeAt_alter.
Qed.

End WithExternals.

(** C4 as stated fails: a text at the indentation level of the divide open
    before it becomes a child of that divide; both are at level 1, so the
    depth of the child is not greater than that of its container. *)
Lemma C4_child_at_the_level_of_its_container :
  doc_children (document (Base.parse sameLevelSource)) = [sameLevelDivide]
  /\ nodeChildren sameLevelDivide = [sameLevelText]
  /\ nestingDepth sameLevelSource sameLevelDivide = 1
  /\ nestingDepth sameLevelSource sameLevelText = 1
  /\ (nestingDepth sameLevelSource sameLevelDivide
      <? nestingDepth sameLevelSource sameLevelText) = false.
Proof. vm_compute. auto. Qed.

(** C2: what the parser does on a divide that is never closed.  The stack
    still holds its frame when the body ends, and [parse] returns no error;
    the same on a source whose only statement is one bare [=divide=]. *)
Lemma C2_unclosed_divide_is_not_reported :
  result_errors (Base.parse unclosedSource) = []
  /\ @openContainers Base.externals (snd (parseHeader (new unclosedSource)))
     = [mkFrame 0 0]
  /\ result_errors (Base.parse loneDivideSource) = []
  /\ @openContainers Base.externals (snd (parseHeader (new loneDivideSource)))
     = [mkFrame 0 0].
Proof. vm_compute. auto. Qed.

End ContainerFacts.

(** ** Title declarations and metadata *)

Module TitleFacts.
Import JS JSFacts Ast Parser Notions ParserFacts ContainerFacts Titles.

Lemma plainText_cons (c : ascii) (s : string) :
  plainText (String c s) = true ->
  Ascii.eqb c "=" = false /\ Ascii.eqb c LF = false /\ plainText s = true.
Proof.
  unfold plainText. simpl. intros [[He Hl]%andb_prop Hs]%andb_prop.
  apply negb_true_iff in He, Hl. auto.
Qed.

Lemma indexOf_plain (s t : string) :
  plainText s = true ->
  indexOf "=" (s +:+ String "=" t) = Some (String.length s).
Proof.
  induction s as [|c s IH]; intros Hs; simpl.
  - reflexivity.
  - apply plainText_cons in Hs as (He & _ & Hs). rewrite He, (IH Hs). reflexivity.
Qed.

Lemma trimEnd_snoc (s : string) (c : ascii) :
  isWhiteSpace c = false ->
  trimEnd (s +:+ String c EmptyString) = s +:+ String c EmptyString.
Proof.
  intros Hc. induction s as [|d s IH]; simpl.
  - now rewrite Hc.
  - rewrite IH. destruct s; reflexivity.
Qed.

Lemma trim_delimited (s : string) :
  trim (String "=" (s +:+ "=")) = String "=" (s +:+ "=").
Proof.
  unfold trim. rewrite (trimStart_keeps "=" _ eq_refl).
  exact (trimEnd_snoc (String "=" s) "=" eq_refl).
Qed.


End TitleFacts.

(** ** The generator *)

Module GeneratorFacts.
Import JS JSFacts Ast Parser Codegen Notions GeneratorExamples.

Lemma has_cons (x y : string) (l : list string) :
  has x (y :: l) = String.eqb x y || has x l.
Proof. reflexivity. Qed.


(** C1: the id of a password Element reaches the output as written, with its
    quote and angle brackets, while the same id on a text Element is
    escaped; the page compiled from a source with that id holds it raw. *)
Lemma C1_raw_id_in_bespoke_elements :
  generateElement passwordWithId EmptyString
  = "<input type=" +:+ q +:+ "password" +:+ q +:+ " id=" +:+ q +:+ hostileId +:+ q +:+ ">"
  /\ generateElement textWithId EmptyString
     = "<p id=" +:+ q +:+ "&quot;&gt;&lt;b&gt;" +:+ q +:+ "></p>"
  /\ doc_children (document (Base.parse hostileIdSource))
     = [Element "password" [("id", hostileId)] [] None 0 (createLocation 2 1 2 10)]
  /\ includes (" id=" +:+ q +:+ hostileId +:+ q) (Base.compile hostileIdSource) = true.
Proof. vm_compute. auto. Qed.

End GeneratorFacts.

(** ** Escaping, and the repository's tests replayed on the embedding *)

Module TestFacts.
Import JS JSFacts Ast Lexer Parser Codegen Notions GeneratorExamples TestCases.

Lemma replaceAll_keeps (p : ascii -> bool) (c : ascii) (by_ text : string) :
  all p by_ = true -> all p text = true -> all p (replaceAll c by_ text) = true.
Proof.
  intros Hby. induction text as [|d text IH]; simpl; [reflexivity|].
  intros [Hd Ht]%andb_prop. destruct (Ascii.eqb d c).
  - rewrite all_append, Hby. exact (IH Ht).
  - simpl. rewrite Hd. exact (IH Ht).
Qed.

Lemma replaceAll_removes (c : ascii) (by_ text : string) :
  all (fun d => negb (Ascii.eqb d c)) by_ = true ->
  all (fun d => negb (Ascii.eqb d c)) (replaceAll c by_ text) = true.
Proof.
  intros Hby. induction text as [|d text IH]; simpl; [reflexivity|].
  destruct (Ascii.eqb d c) eqn:E.
  - rewrite all_append, Hby. exact IH.
  - simpl. rewrite E. exact IH.
Qed.

Lemma all_and (p r : ascii -> bool) (s : string) :
  all p s = true -> all r s = true -> all (fun c => p c && r c) s = true.
Proof.
  induction s as [|d s IH]; simpl; [reflexivity|].
  intros [-> Hp]%andb_prop [-> Hr]%andb_prop. exact (IH Hp Hr).
Qed.

(** What [escapeHTML] returns holds none of the characters [<], [>], the
    double quote and the single quote: the text of an element, which the
    generator always passes through [escapeHTML], cannot open a tag. *)
Lemma escapeHTML_leaves_no_markup (text : string) :
  all isNotMarkup (escapeHTML text) = true.
Proof.
  unfold escapeHTML.
  set (s1 := replaceAll "&" "&amp;" text).
  pose (no := fun c d : ascii => negb (Ascii.eqb d c)).
  assert (H2 : all (no "<"%char) (replaceAll "<" "&lt;" s1) = true)
    by (apply replaceAll_removes; reflexivity).
  set (s2 := replaceAll "<" "&lt;" s1) in *.
  assert (H3 : all (fun d => no "<"%char d && no ">"%char d)
                 (replaceAll ">" "&gt;" s2) = true).
  { apply all_and.
    - apply replaceAll_keeps; [reflexivity | exact H2].
    - apply replaceAll_removes. reflexivity. }
  set (s3 := replaceAll ">" "&gt;" s2) in *.
  assert (H4 : all (fun d => no "<"%char d && no ">"%char d && no DQUOTE d)
                 (replaceAll DQUOTE "&quot;" s3) = true).
  { apply (all_and (fun d => no "<"%char d && no ">"%char d) (no DQUOTE)).
    - apply replaceAll_keeps; [reflexivity | exact H3].
    - apply replaceAll_removes. reflexivity. }
  set (s4 := replaceAll DQUOTE "&quot;" s3) in *.
  apply (all_and (fun d => no "<"%char d && no ">"%char d && no DQUOTE d) (no "'"%char)).
  - apply replaceAll_keeps; [reflexivity | exact H4].
  - apply replaceAll_removes. reflexivity.
Qed.

(** [tests/lexer.test.ts]: number or hex colour. *)
Example test_lexer_hex_boundary :
  fst (tokenize "123456") = [mkToken HEX_COLOR "123456" 1 1; mkToken EOF EmptyString 1 7]
  /\ fst (tokenize "12345") = [mkToken NUMBER "12345" 1 1; mkToken EOF EmptyString 1 6]
  /\ fst (tokenize "AbCdEf") = [mkToken HEX_COLOR "AbCdEf" 1 1; mkToken EOF EmptyString 1 7]
  /\ fst (tokenize "BAF2Y9") = [mkToken IDENTIFIER "BAF2Y9" 1 1; mkToken EOF EmptyString 1 7].
Proof. vm_compute. auto. Qed.

(** The codegen tests: title, escaping, password, image, nested divides. *)
Example test_generateElement :
  generateElement (element "title" [] [] (Some "Hello World")) EmptyString
  = "<h1>Hello World</h1>"
  /\ generateElement (element "title" [("id", "main-title")] [] (Some "Welcome")) EmptyString
     = "<h1 id=" +:+ q +:+ "main-title" +:+ q +:+ ">Welcome</h1>"
  /\ generateElement
       (element "title" [] []
          (Some ("<script>alert(" +:+ q +:+ "xss" +:+ q +:+ ")</script>")))
       EmptyString
     = "<h1>&lt;script&gt;alert(&quot;xss&quot;)&lt;/script&gt;</h1>"
  /\ generateElement (element "divide" [] [] None) EmptyString = "<div></div>"
  /\ generateElement (element "password" [("id", "pwd")] [] None) EmptyString
     = "<input type=" +:+ q +:+ "password" +:+ q +:+ " id=" +:+ q +:+ "pwd" +:+ q +:+ ">"
  /\ generateElement (element "img" [] [] (Some "cat.png")) EmptyString
     = "<img src=" +:+ q +:+ "cat.png" +:+ q +:+ " alt=" +:+ q +:+ q +:+ ">"
  /\ generateElement (element "line" [] [] None) EmptyString = "<br>".
Proof. vm_compute. auto 10. Qed.

(** The language reference's example: the div with its id, the nested
    paragraph, the CSS rule, and no error. *)
Example test_red_box :
  result_errors (Base.parse redBoxSource) = []
  /\ includes ("<div id=" +:+ q +:+ "box" +:+ q +:+ ">") (Base.compile redBoxSource) = true
  /\ includes "<p>Red box!</p>" (Base.compile redBoxSource) = true
  /\ includes "#box { background-color: #FF0000; }" (Base.compile redBoxSource) = true
  /\ includes "<title>Hello</title>" (Base.compile redBoxSource) = true.
Proof. vm_compute. auto. Qed.

(** [tests/lexer.test.ts]: an unknown character is reported at its column
    and scanning goes on. *)
Example test_lexer_error_column :
  List.map err_column (snd (tokenize "ab $ cd")) = [4]
  /\ List.map Lexer.value (fst (tokenize "ab $ cd")) = ["ab"; "cd"; EmptyString].
Proof. vm_compute. auto. Qed.

(** [tests/parser.test.ts] on the complete example: title, header, main and
    time at the top level; one child in the header, four in main; the title
    in the metadata; no error. *)
Example test_complete_example :
  result_errors (Base.parse completeExample) = []
  /\ List.map (fun n => length (nodeChildren n))
       (doc_children (document (Base.parse completeExample))) = [0; 1; 4; 0]
  /\ title (Ast.metadata (document (Base.parse completeExample))) = Some "My First Page"
  /\ language (Ast.metadata (document (Base.parse completeExample))) = Some "english"
  /\ includes ("<html lang=" +:+ q +:+ "en" +:+ q +:+ ">") (Base.compile completeExample)
     = true.
Proof. vm_compute. auto. Qed.

(** A source without the header: one error, and the body is parsed. *)
Example test_missing_header :
  List.map Parser.message (result_errors (Base.parse ("=title=Hello=" +:+ newline +:+ "==CTIW==")))
  = ["Oops! Your CTIW code needs to start with =CTIW="]
  /\ List.map isTitleElement
       (doc_children (document (Base.parse ("=title=Hello=" +:+ newline +:+ "==CTIW=="))))
     = [true].
Proof. vm_compute. auto. Qed.

End TestFacts.

(** ** The scan of the lexer, token by token *)

Module ScanFacts.
Import JS JSFacts Lexer LexerFacts LexerStream Scan.

Lemma take_drop (n : nat) (s : string) : take n s +:+ drop n s = s.
Proof.
  revert s; induction n as [|n IH]; intros [|c s]; simpl; auto.
  now rewrite IH.
Qed.

Lemma take_add (n m : nat) (s : string) :
  take (n + m) s = take n s +:+ take m (drop n s).
Proof.
  revert s; induction n as [|n IH]; intros s; simpl; [reflexivity|].
  destruct s as [|c s]; simpl; [now destruct m | now rewrite IH].
Qed.

Lemma length_take (n : nat) (s : string) :
  n <= String.length s -> String.length (take n s) = n.
Proof.
  revert s; induction n as [|n IH]; intros [|c s]; simpl; intros Hn; try lia.
  rewrite IH; lia.
Qed.

Lemma all_take (p : ascii -> bool) (n : nat) (s : string) :
  all p s = true -> all p (take n s) = true.
Proof.
  revert s; induction n as [|n IH]; intros [|c s]; simpl; auto.
  intros [-> Hs]%andb_prop. simpl. auto.
Qed.

Lemma all_drop (p : ascii -> bool) (n : nat) (s : string) :
  all p s = true -> all p (drop n s) = true.
Proof.
  revert s; induction n as [|n IH]; intros [|c s]; simpl; auto.
  intros [_ Hs]%andb_prop. auto.
Qed.

Lemma span_le (p : ascii -> bool) (s : string) : span p s <= String.length s.
Proof. induction s as [|c s IH]; simpl; [lia|]. destruct (p c); lia. Qed.

Lemma all_take_span (p : ascii -> bool) (s : string) :
  all p (take (span p s) s) = true.
Proof.
  induction s as [|c s IH]; simpl; [reflexivity|].
  destruct (p c) eqn:E; simpl; [now rewrite E|reflexivity].
Qed.

Lemma prefix_take (p s : string) :
  String.prefix p s = true -> take (String.length p) s = p.
Proof.
  revert s; induction p as [|a p IH]; intros s; simpl String.length; [reflexivity|].
  destruct s as [|c s]; [discriminate|].
  rewrite prefix_cons. intros [->%Ascii.eqb_eq Hp]%andb_prop.
  simpl. now rewrite IH.
Qed.

Lemma positionAfter_append (l c : nat) (s t : string) :
  positionAfter l c (s +:+ t)
  = positionAfter (fst (positionAfter l c s)) (snd (positionAfter l c s)) t.
Proof.
  revert l c; induction s as [|ch s IH]; intros l c; simpl; [reflexivity|].
  destruct (Ascii.eqb ch LF); apply IH.
Qed.

Lemma positionAfter_line (l c : nat) (s : string) :
  noNewline s = true -> positionAfter l c s = (l, c + String.length s).
Proof.
  revert c; induction s as [|ch s IH]; intros c; simpl.
  - intros _. f_equal. lia.
  - intros [Hc%negb_true_iff Hs]%andb_prop. rewrite Hc, (IH _ Hs). f_equal. lia.
Qed.

Lemma skipped_noNewline (s : string) : all isSkipped s = true -> noNewline s = true.
Proof.
  apply all_impl. intros c. unfold isSkipped.
  ascii_cases c; vm_compute; intros; try discriminate; reflexivity.
Qed.

Lemma skipWhitespace_count_le (s : string) : skipWhitespace_count s <= String.length s.
Proof.
  induction s as [|c s IH]; simpl; [lia|].
  destruct (isSpaceOrTab c); [lia|].
  destruct (Ascii.eqb c CR && bool_decide (head s = Some LF)); lia.
Qed.

Lemma skipWhitespace_skipped (s : string) :
  all isSkipped (take (skipWhitespace_count s) s) = true.
Proof.
  induction s as [|c s IH]; simpl; [reflexivity|].
  destruct (isSpaceOrTab c) eqn:Hs; simpl.
  { unfold isSkipped at 1. now rewrite Hs. }
  destruct (Ascii.eqb c CR) eqn:Hcr; simpl; [|reflexivity].
  destruct (bool_decide (head s = Some LF)); simpl; [|reflexivity].
  unfold isSkipped at 1. now rewrite Hs, Hcr.
Qed.

(** The text [scanString] reads is a prefix of what is left of the source,
    and holds neither [=] nor a newline. *)
Lemma scanString_value_prefix (s : string) :
  take (String.length (scanString_value s)) s = scanString_value s
  /\ all isValueChar (scanString_value s) = true.
Proof.
  induction s as [|c s [IH1 IH2]]; simpl; [auto|].
  destruct (Ascii.eqb c LF) eqn:Hl; [auto|].
  destruct (Ascii.eqb c "=") eqn:He; [auto|].
  destruct (isSpaceOrTab c && attributeFollows s); [auto|].
  simpl. unfold isValueChar at 1. rewrite IH1, IH2, Hl, He. auto.
Qed.

Lemma valueChar_noNewline (s : string) : all isValueChar s = true -> noNewline s = true.
Proof. apply all_impl. intros c [_ H]%andb_prop. exact H. Qed.

Lemma drop_ge (n : nat) (s : string) : String.length s <= n -> drop n s = EmptyString.
Proof.
  intros Hn. pose proof (drop_length_le n s) as L.
  destruct (drop n s); [reflexivity | simpl in L; lia].
Qed.

Lemma core_updateValueContext (lx : Lexer) : core (updateValueContext lx) = core lx.
Proof.
  unfold updateValueContext.
  destruct (rev (tokens lx)) as [|t1 [|t2 [|t3 [|t4 before]]]]; simpl; auto;
    repeat match goal with |- context [if ?b then _ else _] => destruct b end;
    reflexivity.
Qed.

Lemma skipWhitespace_count_idem (s : string) :
  skipWhitespace_count (drop (skipWhitespace_count s) s) = 0.
Proof.
  induction s as [|c s IH]; simpl; [reflexivity|].
  destruct (isSpaceOrTab c) eqn:Hs; simpl; [exact IH|].
  destruct (Ascii.eqb c CR && bool_decide (head s = Some LF)) eqn:Hcr; simpl; [exact IH|].
  now rewrite Hs, Hcr.
Qed.

Lemma scanToken_skip (lx : Lexer) : scanToken lx = scanToken (skipWhitespace lx).
Proof.
  unfold scanToken at 2.
  assert (E : skipWhitespace (skipWhitespace lx) = skipWhitespace lx).
  { unfold skipWhitespace at 1.
    replace (remaining (skipWhitespace lx))
      with (drop (skipWhitespace_count (remaining lx)) (remaining lx))
      by (symmetry; apply remaining_advanceBy).
    rewrite skipWhitespace_count_idem. apply advanceBy_0. }
  rewrite E. reflexivity.
Qed.

Lemma hex_not_valid (v : string) :
  (String.length v =? 6) && isValidHexColor v = false -> isValidHexColor v = false.
Proof.
  unfold isValidHexColor. destruct (String.length v =? 6); simpl; auto.
Qed.

Lemma hex_valid (v : string) :
  (String.length v =? 6) && isValidHexColor v = true -> isValidHexColor v = true.
Proof. now intros [_ H]%andb_prop. Qed.

Lemma hexdigit_noNewline (s : string) : all isHexDigit s = true -> noNewline s = true.
Proof.
  apply all_impl. intros c. ascii_cases c; vm_compute; intros; try discriminate; reflexivity.
Qed.

Lemma alnum_noNewline (s : string) :
  all isAlphaNumericOrHyphen s = true -> noNewline s = true.
Proof.
  apply all_impl. intros c. ascii_cases c; vm_compute; intros; try discriminate; reflexivity.
Qed.

#[local] Ltac core_done :=
  unfold core, hasStart; rewrite ?positionAfter_line by reflexivity; simpl;
  rewrite ?app_nil_r; reflexivity.

(** What one call of [scanToken] does at a character [skipWhitespace]
    leaves alone. *)
Lemma scanToken_shape0 (lx : Lexer) :
  skipWhitespace_count (remaining lx) = 0 ->
  exists text rest added errs,
    remaining lx = text +:+ rest
    /\ core (scanToken lx)
       = (source lx, pos lx + String.length text,
          positionAfter (cur_line lx) (cur_column lx) text,
          tokens lx ++ added, errors lx ++ errs)
    /\ scanEffect (tokens lx) (cur_line lx) (cur_column lx) text added errs.
Proof.
  intros H0. unfold scanToken.
  assert (Hskip : skipWhitespace lx = lx)
    by (unfold skipWhitespace; rewrite H0; apply advanceBy_0).
  rewrite Hskip.
  destruct (isAtEndInternal lx) eqn:Hend.
  { exists EmptyString, EmptyString, [], []. split_and!.
    - apply drop_ge. now apply Nat.leb_le.
    - unfold core. simpl. now rewrite Nat.add_0_r, !app_nil_r.
    - left. auto. }
  destruct (remaining_cons lx Hend) as (c & rest1 & E).
  assert (Hns : isSpaceOrTab c = false).
  { rewrite E in H0. simpl in H0. destruct (isSpaceOrTab c); [discriminate | reflexivity]. }
  rewrite (current_cons lx c rest1 E).
  assert (Hone : forall d, Ascii.eqb c d = true ->
            remaining lx = String d EmptyString +:+ rest1).
  { intros d ->%Ascii.eqb_eq. exact E. }
  destruct (match_ "==CTIW==" lx) eqn:Hm.
  { unfold match_ in Hm. pose proof (prefix_take _ _ Hm) as Ht. simpl String.length in Ht.
    exists "==CTIW==", (drop 8 (remaining lx)),
      [mkToken (if hasStart (tokens lx) then CTIW_END else CTIW_START) "==CTIW=="
         (cur_line lx) (cur_column lx)], [].
    split_and!.
    - rewrite <- Ht at 1. symmetry. apply take_drop.
    - core_done.
    - right; left. exists (if hasStart (tokens lx) then CTIW_END else CTIW_START), "==CTIW==".
      destruct (hasStart (tokens lx)); split_and!; auto; discriminate. }
  destruct (match_ "==" lx && negb false) eqn:Hm2.
  { apply andb_prop in Hm2 as [Hm2 _].
    unfold match_ in Hm2. pose proof (prefix_take _ _ Hm2) as Ht. simpl String.length in Ht.
    exists "==", (drop 2 (remaining lx)),
      [mkToken DOUBLE_EQUALS "==" (cur_line lx) (cur_column lx)], [].
    split_and!.
    - rewrite <- Ht at 1. symmetry. apply take_drop.
    - core_done.
    - right; left. exists DOUBLE_EQUALS, "==". split_and!; auto; discriminate. }
  destruct (Ascii.eqb c "=") eqn:He.
  { exists "=", rest1, [mkToken EQUALS "=" (cur_line lx) (cur_column lx)], [].
    split_and!; [now apply Hone | |].
    - rewrite core_updateValueContext. core_done.
    - right; left. exists EQUALS, "=". split_and!; auto; discriminate. }
  destruct (Ascii.eqb c ":") eqn:Hco.
  { exists ":", rest1, [mkToken COLON ":" (cur_line lx) (cur_column lx)], [].
    split_and!; [now apply Hone | |].
    - core_done.
    - right; left. exists COLON, ":". split_and!; auto; discriminate. }
  destruct (Ascii.eqb c ".") eqn:Hdot.
  { exists ".", rest1, [mkToken DOT "." (cur_line lx) (cur_column lx)], [].
    split_and!; [now apply Hone | |].
    - core_done.
    - right; left. exists DOT, ".". split_and!; auto; discriminate. }
  destruct (Ascii.eqb c "(") eqn:Hlp.
  { exists "(", rest1, [mkToken LPAREN "(" (cur_line lx) (cur_column lx)], [].
    split_and!; [now apply Hone | |].
    - core_done.
    - right; left. exists LPAREN, "(". split_and!; auto; discriminate. }
  destruct (Ascii.eqb c ")") eqn:Hrp.
  { exists ")", rest1, [mkToken RPAREN ")" (cur_line lx) (cur_column lx)], [].
    split_and!; [now apply Hone | |].
    - core_done.
    - right; left. exists RPAREN, ")". split_and!; auto; discriminate. }
  destruct (Ascii.eqb c LF) eqn:Hlf.
  { exists (String LF EmptyString), rest1,
      [mkToken NEWLINE (String LF EmptyString) (cur_line lx) (cur_column lx)], [].
    split_and!; [now apply Hone | |].
    - core_done.
    - right; left. exists NEWLINE, (String LF EmptyString). split_and!; auto; discriminate. }
  destruct (shouldScanString lx) eqn:Hss.
  { unfold scanString.
    destruct (scanString_value_prefix (remaining lx)) as [Hpre Hval].
    set (raw := scanString_value (remaining lx)) in *.
    assert (Hpos : positionAfter (cur_line lx) (cur_column lx) raw
                   = (cur_line lx, cur_column lx + String.length raw))
      by (apply positionAfter_line, valueChar_noNewline, Hval).
    destruct (0 <? String.length (trim raw)) eqn:Hlen.
    - exists raw, (drop (String.length raw) (remaining lx)),
        [mkToken STRING (trim raw) (cur_line lx) (cur_column lx)], [].
      split_and!.
      + rewrite <- Hpre at 1. symmetry. apply take_drop.
      + unfold core. simpl. now rewrite Hpos, app_nil_r.
      + right; left. exists STRING, (trim raw). split_and!; auto; try discriminate.
        simpl. rewrite String.eqb_refl, Hval. unfold truthy.
        destruct (trim raw); [discriminate | reflexivity].
    - exists raw, (drop (String.length raw) (remaining lx)), [], [].
      split_and!.
      + rewrite <- Hpre at 1. symmetry. apply take_drop.
      + unfold core. simpl. now rewrite Hpos, !app_nil_r.
      + left. auto. }
  destruct (isAlpha c) eqn:Ha.
  { unfold scanIdentifierOrHexColor.
    set (n := span isAlphaNumericOrHyphen (remaining lx)).
    set (v := take n (remaining lx)).
    assert (Hall : all isAlphaNumericOrHyphen v = true) by apply all_take_span.
    assert (Hlen : String.length v = n) by apply length_take, span_le.
    assert (Hpos : positionAfter (cur_line lx) (cur_column lx) v
                   = (cur_line lx, cur_column lx + n)).
    { rewrite positionAfter_line, Hlen; [reflexivity | now apply alnum_noNewline]. }
    assert (Hsl : startsWithLetter v = true).
    { unfold v, n. rewrite E. simpl.
      destruct (alpha_plain c Ha) as (_ & _ & _ & _ & _ & _ & _ & _ & ->). simpl. exact Ha. }
    destruct ((String.length v =? 6) && isValidHexColor v) eqn:Hhex.
    - exists v, (drop n (remaining lx)), [mkToken HEX_COLOR v (cur_line lx) (cur_column lx)], [].
      split_and!.
      + symmetry. apply take_drop.
      + unfold core. simpl. now rewrite Hpos, Hlen, app_nil_r.
      + right; left. exists HEX_COLOR, v. split_and!; auto; try discriminate.
        simpl. now rewrite String.eqb_refl, (hex_valid v Hhex).
    - exists v, (drop n (remaining lx)), [mkToken IDENTIFIER v (cur_line lx) (cur_column lx)], [].
      split_and!.
      + symmetry. apply take_drop.
      + unfold core. simpl. now rewrite Hpos, Hlen, app_nil_r.
      + right; left. exists IDENTIFIER, v. split_and!; auto; try discriminate.
        simpl. now rewrite String.eqb_refl, Hsl, Hall, (hex_not_valid v Hhex). }
  destruct (isDigit c) eqn:Hd.
  { unfold scanNumberOrHexColor.
    set (n := span isHexDigit (remaining lx)).
    set (v := take n (remaining lx)).
    assert (Hall : all isHexDigit v = true) by apply all_take_span.
    assert (Hlen : String.length v = n) by apply length_take, span_le.
    assert (Hpos : positionAfter (cur_line lx) (cur_column lx) v
                   = (cur_line lx, cur_column lx + n)).
    { rewrite positionAfter_line, Hlen; [reflexivity | now apply hexdigit_noNewline]. }
    assert (Hsd : startsWithDigit v = true).
    { unfold v, n. rewrite E. simpl.
      destruct (digit_plain c Hd) as (_ & _ & _ & _ & _ & _ & _ & _ & _ & -> & _).
      simpl. exact Hd. }
    destruct ((String.length v =? 6) && isValidHexColor v) eqn:Hhex.
    - exists v, (drop n (remaining lx)), [mkToken HEX_COLOR v (cur_line lx) (cur_column lx)], [].
      split_and!.
      + symmetry. apply take_drop.
      + unfold core. simpl. now rewrite Hpos, Hlen, app_nil_r.
      + right; left. exists HEX_COLOR, v. split_and!; auto; try discriminate.
        simpl. now rewrite String.eqb_refl, (hex_valid v Hhex).
    - exists v, (drop n (remaining lx)), [mkToken NUMBER v (cur_line lx) (cur_column lx)], [].
      split_and!.
      + symmetry. apply take_drop.
      + unfold core. simpl. now rewrite Hpos, Hlen, app_nil_r.
      + right; left. exists NUMBER, v. split_and!; auto; try discriminate.
        simpl. now rewrite String.eqb_refl, Hsd, Hall, (hex_not_valid v Hhex). }
  exists (String c EmptyString), rest1, [],
    [mkLexerError (unknownCharMessage c) (cur_line lx) (cur_column lx)].
  split_and!; [exact E | |].
  - unfold core. simpl. now rewrite Hlf, app_nil_r.
  - right; right. exists c. split_and!; auto.
    unfold recognised. now rewrite Ha, Hd, Hns, He, Hco, Hdot, Hlp, Hrp, Hlf.
Qed.

(** What one call of [scanToken] does: it steps over blanks [ws], reads
    [text], and adds what [scanEffect] allows. *)
Lemma scanToken_shape (lx : Lexer) :
  exists ws text rest added errs,
    remaining lx = ws +:+ text +:+ rest
    /\ all isSkipped ws = true
    /\ core (scanToken lx)
       = (source lx, pos lx + String.length ws + String.length text,
          positionAfter (cur_line lx) (cur_column lx + String.length ws) text,
          tokens lx ++ added, errors lx ++ errs)
    /\ scanEffect (tokens lx) (cur_line lx) (cur_column lx + String.length ws)
         text added errs.
Proof.
  rewrite scanToken_skip.
  set (n := skipWhitespace_count (remaining lx)).
  assert (Hn : String.length (take n (remaining lx)) = n)
    by apply length_take, skipWhitespace_count_le.
  assert (Hr1 : remaining (skipWhitespace lx) = drop n (remaining lx))
    by apply remaining_advanceBy.
  destruct (scanToken_shape0 (skipWhitespace lx)) as (text & rest & added & errs & E & Hc & He).
  { rewrite Hr1. apply skipWhitespace_count_idem. }
  exists (take n (remaining lx)), text, rest, added, errs. rewrite Hn. split_and!.
  - rewrite <- E, Hr1. symmetry. apply take_drop.
  - apply skipWhitespace_skipped.
  - exact Hc.
  - exact He.
Qed.

Lemma markersOk_snoc (seen : bool) (ts : list Token) (t : Token) :
  markersOk seen (ts ++ [t])
  = markersOk seen ts
    && match type t with
       | CTIW_START => negb (seen || hasStart ts)
       | CTIW_END => seen || hasStart ts
       | _ => true
       end.
Proof.
  revert seen. induction ts as [|t0 ts IH]; intros seen; simpl.
  - rewrite orb_false_r. destruct (type t); simpl; now rewrite ?andb_true_r.
  - destruct (type t0) eqn:E0; simpl; rewrite IH;
      rewrite ?bool_decide_eq_true_2, ?bool_decide_eq_false_2 by congruence; simpl;
      rewrite ?orb_true_r, ?andb_assoc; reflexivity.
Qed.

Lemma positionOf_add (src : string) (k : nat) (w rest : string) :
  drop k src = w +:+ rest ->
  positionOf src (k + String.length w)
  = positionAfter (fst (positionOf src k)) (snd (positionOf src k)) w.
Proof.
  intros E. unfold positionOf.
  now rewrite take_add, E, take_append, positionAfter_append.
Qed.

(** One call of [scanToken] keeps the invariant. *)
Lemma scanToken_inv (src : string) (lx : Lexer) :
  scanInv src lx -> scanInv src (scanToken lx).
Proof.
  intros [Hsrc Hpos Hposn Htok Herr Hmark Heof].
  destruct (scanToken_shape lx) as (ws & text & rest & added & errs & E & Hws & Hc & He).
  unfold core in Hc.
  injection Hc as Hsrc' Hpos' Hlc' Htok' Herr'.
  unfold remaining in E. rewrite Hsrc in E.
  assert (Hlen : String.length src - pos lx
                 = String.length ws + (String.length text + String.length rest)).
  { rewrite <- drop_length_le, E, !length_append. reflexivity. }
  assert (Hk : positionOf src (pos lx + String.length ws)
               = (cur_line lx, cur_column lx + String.length ws)).
  { rewrite (positionOf_add src (pos lx) ws _ E), Hposn. simpl.
    apply positionAfter_line, skipped_noNewline, Hws. }
  assert (Hdrop : drop (pos lx + String.length ws) src = text +:+ rest)
    by (rewrite drop_add, E; apply drop_append).
  split.
  - congruence.
  - rewrite Hpos'. lia.
  - rewrite Hpos', (positionOf_add src _ text rest Hdrop), Hk. simpl.
    rewrite <- Hlc'. reflexivity.
  - rewrite Htok'. apply Forall_app. split; [exact Htok|].
    destruct He as [[-> _] | [(ty & v & -> & _ & Hshape & _) | (c & _ & _ & -> & _)]];
      [constructor | | constructor].
    apply Forall_singleton. exists (pos lx + String.length ws), text, rest.
    split_and!; auto. lia.
  - rewrite Herr'. apply Forall_app. split; [exact Herr|].
    destruct He as [[_ ->] | [(ty & v & _ & -> & _) | (c & -> & Hc & _ & ->)]];
      [constructor | constructor |].
    apply Forall_singleton. exists (pos lx + String.length ws), c, rest.
    split_and!; auto.
  - rewrite Htok'.
    destruct He as [[-> _] | [(ty & v & -> & _ & _ & _ & Hs & He) | (c & _ & _ & -> & _)]];
      rewrite ?app_nil_r; auto.
    rewrite markersOk_snoc, Hmark. simpl.
    destruct ty; auto. now rewrite Hs.
  - rewrite Htok'. apply Forall_app. split; [exact Heof|].
    destruct He as [[-> _] | [(ty & v & -> & _ & _ & Hne & _) | (c & _ & _ & -> & _)]];
      [constructor | | constructor].
    apply Forall_singleton. exact Hne.
Qed.

Lemma scanAll_inv (src : string) (fuel : nat) (lx : Lexer) :
  scanInv src lx -> scanInv src (scanAll fuel lx).
Proof.
  revert lx. induction fuel as [|fuel IH]; intros lx Hinv; simpl.
  - now destruct (isAtEndInternal lx).
  - destruct (isAtEndInternal lx); [exact Hinv|].
    apply IH, scanToken_inv, Hinv.
Qed.

Lemma scanInv_new (src : string) : scanInv src (new src).
Proof. split; simpl; auto; lia. Qed.

(** Where the loop of [tokenize] stops: at the end of the source, the
    invariant holding. *)
Lemma scanned_source (src : string) :
  let lx := scanAll (String.length src) (new src) in
  scanInv src lx /\ pos lx = String.length src.
Proof.
  simpl. pose proof (scanAll_inv src (String.length src) (new src) (scanInv_new src)) as Hinv.
  split; [exact Hinv|].
  pose proof (tokenize_scans_whole_source src) as Hend.
  unfold isAtEndInternal in Hend. apply Nat.leb_le in Hend.
  rewrite (inv_source _ _ Hinv) in Hend. pose proof (inv_pos _ _ Hinv). lia.
Qed.

(** X1.  Every token [tokenize] returns is found in the source: the text it
    was read from stands at the line and the column the token records, and
    the value has the form of its type.  An IDENTIFIER is a run of letters,
    digits, hyphens and underscores that begins with a letter and is no
    colour; a NUMBER a run of hexadecimal digits that begins with a digit and
    is no colour; a HEX_COLOR six hexadecimal digits; a STRING the non-empty
    trimmed text of a value, without [=] and newline; EOF stands at the end
    of the source. *)
Theorem tokens_are_located (src : string) :
  Forall (tokenAt src) (fst (tokenize src)).
Proof.
  destruct (scanned_source src) as [Hinv Hpos]. simpl in Hinv, Hpos.
  unfold tokenize, Lexer_tokenize. simpl.
  apply Forall_app. split; [exact (inv_tokens _ _ Hinv)|].
  apply Forall_singleton. exists (String.length src), EmptyString, EmptyString.
  split_and!; auto.
  - apply drop_all.
  - simpl. pose proof (inv_position _ _ Hinv) as Hp. rewrite Hpos in Hp. exact Hp.
Qed.

(** X2.  The token list [tokenize] returns ends with its only EOF token, which
    records the line and the column that follow the last character of the
    source: one line more for every newline, one column more for every
    character after the last newline. *)
Theorem eof_closes_the_tokens (src : string) :
  exists toks,
    fst (tokenize src)
    = toks ++ [mkToken EOF EmptyString (fst (positionAfter 1 1 src))
                 (snd (positionAfter 1 1 src))]
    /\ Forall (fun t => type t <> EOF) toks.
Proof.
  destruct (scanned_source src) as [Hinv Hpos]. simpl in Hinv, Hpos.
  eexists. split; [|exact (inv_no_eof _ _ Hinv)].
  unfold tokenize, Lexer_tokenize. simpl. unfold addToken. simpl.
  pose proof (inv_position _ _ Hinv) as Hp. unfold positionOf in Hp.
  rewrite Hpos, take_all in Hp. now rewrite Hp.
Qed.

(** X3.  Every error [tokenize] reports points at a character of the source that
    begins no token (no letter, digit, [=], [:], [.], parenthesis, newline,
    space or tab), at the line and the column of that character, and quotes
    it in its message. *)
Theorem errors_are_located (src : string) :
  Forall (errorAt src) (snd (tokenize src)).
Proof.
  destruct (scanned_source src) as [Hinv _]. simpl in Hinv.
  exact (inv_errors _ _ Hinv).
Qed.

(** X4.  A source written with letters, digits, [=], [:], [.], parentheses,
    newlines, spaces and tabs only is tokenized without an error. *)
Theorem plain_source_has_no_error (src : string) :
  all recognised src = true -> snd (tokenize src) = [].
Proof.
  intros Hall. destruct (scanned_source src) as [Hinv _]. simpl in Hinv.
  pose proof (inv_errors _ _ Hinv) as Herr.
  unfold tokenize, Lexer_tokenize, getErrors. simpl.
  destruct (errors _) as [|e es]; [reflexivity|].
  apply Forall_cons in Herr as [(k & c & rest & E & _ & Hc & _) _].
  pose proof (all_drop recognised k src Hall) as Hd.
  rewrite E in Hd. simpl in Hd. now rewrite Hc in Hd.
Qed.

Lemma plain_source_has_no_error_witness :
  all recognised "=divide= id:box= color=FF0000=" = true
  /\ snd (tokenize "=divide= id:box= color=FF0000=") = [].
Proof.
  split; [reflexivity|].
  apply (plain_source_has_no_error "=divide= id:box= color=FF0000="). reflexivity.
Defined.

(** X5.  Among the tokens [tokenize] returns, the first document marker
    [==CTIW==] is CTIW_START and every later one is CTIW_END: there is at
    most one CTIW_START, and no CTIW_END comes before it. *)
Theorem markers_are_ordered (src : string) :
  markersOk false (fst (tokenize src)) = true.
Proof.
  destruct (scanned_source src) as [Hinv _]. simpl in Hinv.
  unfold tokenize, Lexer_tokenize. simpl.
  rewrite markersOk_snoc, (inv_markers _ _ Hinv). reflexivity.
Qed.

Lemma scanAll_more (fuel extra : nat) (lx : Lexer) :
  isAtEndInternal (scanAll fuel lx) = true ->
  scanAll (fuel + extra) lx = scanAll fuel lx.
Proof.
  revert lx. induction fuel as [|fuel IH]; intros lx; simpl.
  - destruct (isAtEndInternal lx) eqn:E; [|congruence].
    intros _. now apply scanAll_at_end.
  - destruct (isAtEndInternal lx); [reflexivity | apply IH].
Qed.

(** X6.  The loop of [tokenize] ends: every turn away from the end of the source
    reads at least one character, so after at most as many turns as the
    source has characters the position is the length of the source, and
    further turns would change nothing. *)
Theorem tokenize_loop_ends (src : string) (extra : nat) :
  pos (scanAll (String.length src) (new src)) = String.length src
  /\ scanAll (String.length src + extra) (new src)
     = scanAll (String.length src) (new src).
Proof.
  split.
  - exact (proj2 (scanned_source src)).
  - apply scanAll_more, scanAll_reaches_end. simpl. lia.
Qed.

End ScanFacts.

(** ** The token queue *)

Module StreamFacts.
Import JS JSFacts Lexer LexerFacts LexerStream Scan ScanFacts.

Lemma tokenize_last (lx : Lexer) :
  exists toks l c,
    tokens (Lexer_tokenize lx) = toks ++ [mkToken EOF EmptyString l c].
Proof. unfold Lexer_tokenize, addToken. simpl. eauto. Qed.

Lemma tokenize_nonempty (lx : Lexer) :
  (length (tokens (Lexer_tokenize lx)) =? 0) = false.
Proof.
  destruct (tokenize_last lx) as (toks & l & c & ->).
  rewrite length_app. simpl. apply Nat.eqb_neq. lia.
Qed.

Lemma tokenize_source (lx : Lexer) : source (Lexer_tokenize lx) = source lx.
Proof.
  unfold Lexer_tokenize. simpl.
  exact (inv_source _ _ (proj1 (scanned_source (source lx)))).
Qed.

Lemma refill_nonempty (lx : Lexer) : (length (tokens (refill lx)) =? 0) = false.
Proof.
  unfold refill. destruct (length (tokens lx) =? 0) eqn:E; [|exact E].
  apply tokenize_nonempty.
Qed.

Lemma refill_idem (lx : Lexer) : refill (refill lx) = refill lx.
Proof. unfold refill at 1. now rewrite refill_nonempty. Qed.

Lemma refill_full (lx : Lexer) (t : Token) (ts : list Token) :
  tokens lx = t :: ts -> refill lx = lx.
Proof. intros E. unfold refill. now rewrite E. Qed.

Lemma refill_source (lx : Lexer) : source (refill lx) = source lx.
Proof.
  unfold refill. destruct (length (tokens lx) =? 0); [apply tokenize_source | reflexivity].
Qed.

(** What the queue does depends on the source and on the tokens in it. *)
Lemma refill_same (lx lx' : Lexer) :
  source lx = source lx' -> tokens lx = tokens lx' ->
  tokens (refill lx) = tokens (refill lx').
Proof.
  intros Hs Ht. unfold refill. rewrite Ht.
  destruct (length (tokens lx') =? 0); [|exact Ht].
  unfold Lexer_tokenize. now rewrite Hs.
Qed.

Lemma nextTokens_same (n : nat) (lx lx' : Lexer) :
  source lx = source lx' -> tokens lx = tokens lx' ->
  fst (nextTokens n lx) = fst (nextTokens n lx').
Proof.
  revert lx lx'. induction n as [|n IH]; intros lx lx' Hs Ht; simpl; [reflexivity|].
  unfold nextToken.
  pose proof (refill_same lx lx' Hs Ht) as Hq.
  pose proof (refill_source lx) as Hs1. pose proof (refill_source lx') as Hs2.
  rewrite <- Hq. destruct (tokens (refill lx)) as [|t ts] eqn:E.
  - specialize (IH (refill lx) (refill lx')).
    destruct (nextTokens n (refill lx)), (nextTokens n (refill lx')). simpl in *.
    f_equal. apply IH; congruence.
  - specialize (IH (setTokens ts (refill lx)) (setTokens ts (refill lx'))).
    destruct (nextTokens n (setTokens ts (refill lx))),
      (nextTokens n (setTokens ts (refill lx'))). simpl in *.
    f_equal. apply IH; simpl; congruence.
Qed.

Lemma nextTokens_add (n k : nat) (lx : Lexer) :
  fst (nextTokens (n + k) lx)
  = fst (nextTokens n lx) ++ fst (nextTokens k (snd (nextTokens n lx))).
Proof.
  revert lx. induction n as [|n IH]; intros lx; simpl; [reflexivity|].
  destruct (nextToken lx) as [t lx1]. specialize (IH lx1).
  destruct (nextTokens (n + k) lx1), (nextTokens n lx1). simpl in *.
  now rewrite IH.
Qed.

(** The queue hands out the tokens in it in order. *)
Lemma nextTokens_drain (pre post : list Token) (lx : Lexer) :
  tokens lx = pre ++ post ->
  nextTokens (length pre) lx = (List.map Some pre, setTokens post lx).
Proof.
  revert lx. induction pre as [|t pre IH]; intros lx E; simpl.
  - destruct lx; simpl in *; subst; reflexivity.
  - unfold nextToken. rewrite (refill_full lx t (pre ++ post) E), E. simpl.
    rewrite (IH (setTokens (pre ++ post) lx) eq_refl). reflexivity.
Qed.

(** On an empty queue the first call tokenizes the source. *)
Lemma nextTokens_fresh (n : nat) (lx : Lexer) :
  tokens lx = [] ->
  nextTokens (S n) lx = nextTokens (S n) (Lexer_tokenize lx).
Proof.
  intros E. simpl. unfold nextToken.
  assert (H1 : refill lx = Lexer_tokenize lx) by (unfold refill; now rewrite E).
  assert (H2 : refill (Lexer_tokenize lx) = Lexer_tokenize lx)
    by (unfold refill; now rewrite tokenize_nonempty).
  now rewrite H1, H2.
Qed.

(** [nextToken] never returns [null]: [tokenize] always leaves the EOF
    token in the queue, so there is a token to hand out whatever state the
    lexer is in. *)
Theorem nextToken_is_never_null (lx : Lexer) :
  exists t, fst (nextToken lx) = Some t.
Proof.
  unfold nextToken. pose proof (refill_nonempty lx) as Hne.
  destruct (tokens (refill lx)) as [|t ts]; [discriminate | simpl; eauto].
Qed.

(** X8.  [peek] does not consume: it returns the token the next [nextToken]
    returns, and [nextToken] after [peek] does what it would have done
    without it. *)
Theorem peek_then_nextToken (lx : Lexer) :
  fst (peek lx) = fst (nextToken lx)
  /\ nextToken (snd (peek lx)) = nextToken lx.
Proof.
  unfold peek, nextToken. simpl. rewrite refill_idem.
  split; [|reflexivity]. now destruct (tokens (refill lx)).
Qed.

(** X9.  Reading a new lexer with [nextToken] gives the tokens of [tokenize] in
    order, EOF last; the call after EOF tokenizes the source again, so the
    stream starts over with the first token and never ends. *)
Theorem token_stream_starts_over (src : string) (k : nat) :
  fst (nextTokens (length (fst (tokenize src)) + k) (new src))
  = List.map Some (fst (tokenize src)) ++ fst (nextTokens k (new src)).
Proof.
  rewrite nextTokens_add.
  change (fst (tokenize src)) with (tokens (Lexer_tokenize (new src))).
  set (L := Lexer_tokenize (new src)).
  destruct (tokenize_last (new src)) as (toks & l & c & E). fold L in E.
  assert (Hd : nextTokens (length (tokens L)) (new src)
               = (List.map Some (tokens L), setTokens [] L)).
  { rewrite E, length_app, Nat.add_comm. simpl length.
    rewrite (nextTokens_fresh _ (new src) eq_refl). fold L.
    replace (S (length toks)) with (length (toks ++ [mkToken EOF EmptyString l c]))
      by (rewrite length_app; simpl; lia).
    apply nextTokens_drain. now rewrite app_nil_r. }
  rewrite Hd. simpl. f_equal.
  apply nextTokens_same; [|reflexivity].
  exact (tokenize_source (new src)).
Qed.

Lemma drop_last_token (init : list Token) (e : Token) (m : nat) :
  m < length (init ++ [e]) ->
  match skipn m (init ++ [e]) with
  | [] => true
  | [t] => bool_decide (type t = type e)
  | _ => false
  end = (m =? length (init ++ [e]) - 1).
Proof.
  rewrite length_app. simpl. intros Hm.
  replace (length init + 1 - 1) with (length init) by lia.
  destruct (decide (m = length init)) as [->|Hne].
  - rewrite drop_app_length. simpl. rewrite Nat.eqb_refl.
    now apply bool_decide_eq_true_2.
  - rewrite (proj2 (Nat.eqb_neq _ _) Hne).
    rewrite skipn_app. replace (m - length init) with 0 by lia. simpl.
    assert (Hl : length (skipn m init) > 0) by (rewrite length_skipn; lia).
    destruct (skipn m init) as [|a [|b r]]; simpl in *; [lia | reflexivity | reflexivity].
Qed.

(** X10.  After fewer calls of [nextToken] on a new lexer than [tokenize] gives
    tokens, [isAtEnd] is true exactly when EOF alone is left to read. *)
Theorem isAtEnd_when_only_EOF_is_left (src : string) (m : nat) :
  m < length (fst (tokenize src)) ->
  fst (isAtEnd (snd (nextTokens m (new src))))
  = (m =? length (fst (tokenize src)) - 1).
Proof.
  change (fst (tokenize src)) with (tokens (Lexer_tokenize (new src))).
  destruct (tokenize_last (new src)) as (toks & l & c & E).
  assert (Hfresh : forall n, nextTokens (S n) (new src)
                             = nextTokens (S n) (Lexer_tokenize (new src)))
    by (intros n; now apply nextTokens_fresh).
  assert (Hq0 : tokens (refill (new src)) = tokens (Lexer_tokenize (new src)))
    by reflexivity.
  remember (Lexer_tokenize (new src)) as L eqn:HL. clear HL.
  intros Hm.
  assert (Hq : tokens (refill (snd (nextTokens m (new src)))) = skipn m (tokens L)).
  { destruct m as [|m]; [exact Hq0|].
    rewrite Hfresh.
    assert (Hlen : length (firstn (S m) (tokens L)) = S m)
      by (apply firstn_length_le; lia).
    rewrite <- Hlen at 1.
    rewrite (nextTokens_drain (firstn (S m) (tokens L)) (skipn (S m) (tokens L)))
      by (symmetry; apply firstn_skipn).
    cbn [snd].
    destruct (skipn (S m) (tokens L)) as [|a rest] eqn:Es; [|reflexivity].
    apply (f_equal length) in Es. rewrite length_skipn in Es. simpl in Es. lia. }
  unfold isAtEnd. cbn [fst]. rewrite Hq, E.
  rewrite <- (drop_last_token toks (mkToken EOF EmptyString l c) m) by (rewrite <- E; exact Hm).
  reflexivity.
Qed.

Lemma isAtEnd_when_only_EOF_is_left_witness :
  2 < length (fst (tokenize "a=b"))
  /\ fst (isAtEnd (snd (nextTokens 2 (new "a=b")))) = false
  /\ fst (isAtEnd (snd (nextTokens 3 (new "a=b")))) = true.
Proof.
  assert (H2 : 2 < length (fst (tokenize "a=b"))) by (vm_compute; lia).
  assert (H3 : 3 < length (fst (tokenize "a=b"))) by (vm_compute; lia).
  split; [exact H2|]. split.
  - rewrite (isAtEnd_when_only_EOF_is_left "a=b" 2 H2). reflexivity.
  - rewrite (isAtEnd_when_only_EOF_is_left "a=b" 3 H3). reflexivity.
Defined.

End StreamFacts.

(** ** What the parser reads from a line *)

Module LineFacts.
Import JS JSFacts Ast Parser Notions ParserFacts ContainerFacts TitleFacts Lines.

Lemma all_trimStart (p : ascii -> bool) (s : string) :
  all p s = true -> all p (trimStart s) = true.
Proof.
  induction s as [|c s IH]; simpl; [auto|].
  intros [Hc Hs]%andb_prop. destruct (isWhiteSpace c); [auto|].
  simpl. now rewrite Hc, Hs.
Qed.

Lemma all_trimEnd (p : ascii -> bool) (s : string) :
  all p s = true -> all p (trimEnd s) = true.
Proof.
  induction s as [|c s IH]; simpl; [auto|].
  intros [Hc Hs]%andb_prop. specialize (IH Hs).
  destruct (trimEnd s) as [|d t].
  - destruct (isWhiteSpace c); simpl; [reflexivity | now rewrite Hc].
  - simpl in *. now rewrite Hc, IH.
Qed.

Lemma all_trim (p : ascii -> bool) (s : string) :
  all p s = true -> all p (trim s) = true.
Proof. intros Hs. now apply all_trimEnd, all_trimStart. Qed.

Lemma trimEnd_idem (s : string) : trimEnd (trimEnd s) = trimEnd s.
Proof.
  induction s as [|c s IH]; simpl; [reflexivity|].
  destruct (trimEnd s) as [|d t] eqn:E.
  - destruct (isWhiteSpace c) eqn:Hc; simpl; [reflexivity | now rewrite Hc].
  - change (trimEnd (String c (String d t)))
      with (match trimEnd (String d t) with
            | EmptyString => if isWhiteSpace c then EmptyString else String c EmptyString
            | u => String c u
            end).
    now rewrite IH.
Qed.

Lemma trimStart_trim (s : string) : trimStart (trim s) = trim s.
Proof.
  unfold trim. pose proof (trimStart_head s) as Hh.
  destruct (trimStart s) as [|c t] eqn:E; [reflexivity|].
  destruct (trimEnd (String c t)) as [|d r] eqn:Et; [reflexivity|].
  apply trimEnd_head in Et as <-. now apply trimStart_keeps.
Qed.

Lemma trim_idem (s : string) : trim (trim s) = trim s.
Proof.
  unfold trim at 1. rewrite trimStart_trim. unfold trim. apply trimEnd_idem.
Qed.

Lemma trimStart_blanks (ws s : string) :
  all isWhiteSpace ws = true -> trimStart (ws +:+ s) = trimStart s.
Proof.
  induction ws as [|c ws IH]; simpl; [reflexivity|].
  intros [-> Hws]%andb_prop. exact (IH Hws).
Qed.

Lemma span_dots (n : nat) (rest : string) :
  startsWith "." rest = false ->
  span (fun c => Ascii.eqb c ".") (dots n +:+ rest) = n.
Proof.
  intros Hrest. induction n as [|n IH]; simpl.
  - destruct rest as [|c rest]; [reflexivity|]. simpl.
    unfold startsWith in Hrest. rewrite LexerFacts.prefix_cons in Hrest.
    replace (String.prefix EmptyString rest) with true in Hrest
      by (now destruct rest).
    rewrite andb_true_r in Hrest. now rewrite Hrest.
  - now rewrite IH.
Qed.

Lemma drop_dots (n : nat) (rest : string) : drop n (dots n +:+ rest) = rest.
Proof. induction n as [|n IH]; simpl; auto. Qed.

(** X11.  [parseIndentation] on a line of blanks, [n] dots and a text that does
    not go on with a dot: the level is [n / 2], rounded down, so that an odd
    dot counts for nothing, and the content is the text, trimmed. *)
Theorem indentation_is_half_the_dots (ws : string) (n : nat) (rest : string) :
  all isWhiteSpace ws = true ->
  trimStart (dots n +:+ rest) = dots n +:+ rest ->
  startsWith "." rest = false ->
  parseIndentation (ws +:+ dots n +:+ rest) = (n / 2, trim rest).
Proof.
  intros Hws Hstart Hrest. unfold parseIndentation.
  rewrite (trimStart_blanks ws _ Hws), Hstart, (span_dots n rest Hrest), drop_dots.
  reflexivity.
Qed.

Lemma indentation_is_half_the_dots_witness :
  parseIndentation "  ... =text=hi=" = (1, "=text=hi=").
Proof.
  exact (indentation_is_half_the_dots "  " 3 " =text=hi=" eq_refl eq_refl eq_refl).
Defined.

(** *** The parts of an element line *)

Lemma truthy_nonempty (s : string) : truthy s = true -> s <> EmptyString.
Proof. now destruct s. Qed.

Lemma isPart_trim (current : string) :
  without " " current = true -> truthy (trim current) = true -> isPart (trim current).
Proof.
  intros Hc Ht. split_and!.
  - now apply truthy_nonempty.
  - now apply all_trim.
  - apply trim_idem.
Qed.

Lemma tokenizeElementLine_from_parts (line current : string) :
  without " " current = true ->
  Forall isPart (tokenizeElementLine_from current line).
Proof.
  revert current. induction line as [|char line IH]; intros current Hc; simpl.
  - destruct (truthy (trim current)) eqn:Ht; [|constructor].
    apply Forall_singleton. now apply isPart_trim.
  - destruct (Ascii.eqb char " ") eqn:Hsp.
    + apply Forall_app. split; [|now apply IH].
      destruct (truthy (trim current)) eqn:Ht; [|constructor].
      apply Forall_singleton. now apply isPart_trim.
    + apply IH. unfold without. rewrite all_append. simpl.
      now rewrite Hsp, andb_true_r.
Qed.

(** Every part [tokenizeElementLine] returns is not empty, holds no space
    and is trimmed. *)
Theorem element_line_parts (line : string) :
  Forall isPart (tokenizeElementLine line).
Proof. now apply tokenizeElementLine_from_parts. Qed.

(** *** Attributes *)

Lemma endsWithChar_append (c : ascii) (s t : string) :
  t <> EmptyString -> endsWithChar c (s +:+ t) = endsWithChar c t.
Proof.
  intros Ht. induction s as [|d s IH]; [reflexivity|].
  change (String d s +:+ t) with (String d (s +:+ t)).
  destruct (s +:+ t) as [|e u] eqn:E.
  - destruct s; [simpl in E; contradiction | discriminate].
  - simpl. exact IH.
Qed.

Lemma dropLast_append (s t : string) :
  t <> EmptyString -> dropLast (s +:+ t) = s +:+ dropLast t.
Proof.
  intros Ht. unfold dropLast. rewrite length_append.
  destruct t as [|c t]; [contradiction|]. simpl String.length.
  replace (String.length s + S (String.length t) - 1)
    with (String.length s + String.length t) by lia.
  rewrite ScanFacts.take_add, take_append, drop_append.
  replace (S (String.length t) - 1) with (String.length t) by lia.
  reflexivity.
Qed.

Lemma includes_here (c : ascii) (s t : string) :
  includes (String c EmptyString) (s +:+ String c t) = true.
Proof.
  induction s as [|d s IH]; simpl.
  - destruct (ascii_dec c c); [|contradiction]. now destruct t.
  - rewrite IH. apply orb_true_r.
Qed.

Lemma includes_without (c : ascii) (s : string) :
  without c s = true -> includes (String c EmptyString) s = false.
Proof.
  induction s as [|d s IH]; simpl; [reflexivity|].
  intros [Hd%negb_true_iff Hs]%andb_prop. rewrite (IH Hs), orb_false_r.
  destruct (ascii_dec c d) as [->|_]; [|reflexivity].
  now rewrite Ascii.eqb_refl in Hd.
Qed.

Lemma split_at (c : ascii) (s t : string) :
  without c s = true -> split c (s +:+ String c t) = s :: split c t.
Proof.
  induction s as [|d s IH]; intros Hs; simpl.
  - now rewrite Ascii.eqb_refl.
  - simpl in Hs. apply andb_prop in Hs as [Hd%negb_true_iff Hs].
    rewrite Hd, (IH Hs). reflexivity.
Qed.

Lemma split_without (c : ascii) (s : string) :
  without c s = true -> split c s = [s].
Proof.
  induction s as [|d s IH]; intros Hs; simpl; [reflexivity|].
  simpl in Hs. apply andb_prop in Hs as [Hd%negb_true_iff Hs].
  rewrite Hd, (IH Hs). reflexivity.
Qed.

Lemma endsWithChar_without (c : ascii) (s : string) :
  without c s = true -> endsWithChar c s = false.
Proof.
  induction s as [|d s IH]; simpl; [reflexivity|].
  intros [Hd%negb_true_iff Hs]%andb_prop.
  destruct s; [exact Hd | exact (IH Hs)].
Qed.

Lemma without_stripClosing (c : ascii) (s : string) :
  without c s = true -> without c (stripClosing s) = true.
Proof.
  intros Hs. unfold stripClosing, dropLast.
  destruct (endsWithChar "=" s); [now apply ScanFacts.all_take | exact Hs].
Qed.

(** The first step of [parseAttribute] on a text that ends with [tail],
    which is not empty: only [tail] can lose a closing [=]. *)
Lemma stripClosing_append (s tail : string) :
  tail <> EmptyString -> stripClosing (s +:+ tail) = s +:+ stripClosing tail.
Proof.
  intros Ht. unfold stripClosing. rewrite (endsWithChar_append "=" s tail Ht).
  destruct (endsWithChar "=" tail); [now apply dropLast_append | reflexivity].
Qed.

Lemma stripClosing_after (c : ascii) (value : string) :
  Ascii.eqb c "=" = false ->
  stripClosing (String c value) = String c (stripClosing value).
Proof.
  intros Hc. destruct value as [|d value].
  - unfold stripClosing. simpl. now rewrite Hc.
  - exact (stripClosing_append (String c EmptyString) (String d value) ltac:(discriminate)).
Qed.

Lemma parseAttribute_unfold (part0 : string) :
  parseAttribute part0
  = let part := stripClosing part0 in
    if includes ":" part then
      match split ":" part with
      | name :: value :: _ => (Some (trim name), trim value)
      | _ => (None, EmptyString)
      end
    else if includes "=" part then
      match split "=" part with
      | name :: value :: _ => (Some (trim name), trim value)
      | _ => (None, EmptyString)
      end
    else (None, EmptyString).
Proof. reflexivity. Qed.

(** X12.  [parseAttribute] on the colon form.  The name is the text before the
    first colon, even when it holds an [=]; the value is the text between
    the first colon and the second, trimmed, a closing [=] apart; whatever
    follows a second colon is dropped, so that [href:http://x] has the
    value [http]. *)
Theorem attribute_colon_form (name value : string) :
  without ":" name = true -> without ":" value = true ->
  parseAttribute (name +:+ ":" +:+ value)
  = (Some (trim name), trim (stripClosing value))
  /\ forall rest,
       parseAttribute (name +:+ ":" +:+ value +:+ ":" +:+ rest)
       = (Some (trim name), trim value).
Proof.
  intros Hn Hv. split.
  - rewrite parseAttribute_unfold. cbv zeta.
    rewrite (stripClosing_append name (":" +:+ value)) by discriminate.
    change (":" +:+ value) with (String ":" value).
    rewrite (stripClosing_after ":" value eq_refl).
    rewrite includes_here, (split_at ":" name _ Hn).
    now rewrite (split_without ":" _ (without_stripClosing ":" value Hv)).
  - intros rest. rewrite parseAttribute_unfold. cbv zeta.
    replace (name +:+ ":" +:+ value +:+ ":" +:+ rest)
      with ((name +:+ ":" +:+ value) +:+ String ":" rest)
      by (now rewrite !append_assoc).
    rewrite (stripClosing_append _ (String ":" rest)) by discriminate.
    rewrite (stripClosing_after ":" rest eq_refl).
    rewrite !append_assoc.
    change (":" +:+ value +:+ String ":" (stripClosing rest))
      with (String ":" (value +:+ String ":" (stripClosing rest))).
    rewrite includes_here, (split_at ":" name _ Hn), (split_at ":" value _ Hv).
    now destruct (split ":" (stripClosing rest)).
Qed.

Lemma attribute_colon_form_witness :
  parseAttribute "href:http://x=" = (Some "href", "http")
  /\ parseAttribute "id:main=" = (Some "id", "main").
Proof.
  split.
  - exact (proj2 (attribute_colon_form "href" "http" eq_refl eq_refl) "//x=").
  - exact (proj1 (attribute_colon_form "id" "main=" eq_refl eq_refl)).
Defined.

(** X13.  [parseAttribute] on the equals form and on a bare word.  For a name and
    a value without [:] and [=], the part [name=value=] gives the trimmed
    name and value; a bare word, closed by [=] or not, gives no property:
    [null]. *)
Theorem attribute_equals_form (name value : string) :
  isBareWord name = true -> isBareWord value = true ->
  parseAttribute (name +:+ "=" +:+ value +:+ "=") = (Some (trim name), trim value)
  /\ parseAttribute name = (None, EmptyString)
  /\ parseAttribute (name +:+ "=") = (None, EmptyString).
Proof.
  intros [Hnc Hne]%andb_prop [Hvc Hve]%andb_prop.
  assert (Hbare : forall w, without ":" w = true -> without "=" w = true ->
            (if includes ":" w then
               match split ":" w with
               | n :: v :: _ => (Some (trim n), trim v)
               | _ => (None, EmptyString)
               end
             else if includes "=" w then
               match split "=" w with
               | n :: v :: _ => (Some (trim n), trim v)
               | _ => (None, EmptyString)
               end
             else (None, EmptyString)) = (None, EmptyString)).
  { intros w Hc He. now rewrite (includes_without ":" w Hc), (includes_without "=" w He). }
  assert (Hclose : forall s, stripClosing (s +:+ "=") = s).
  { intros s. rewrite (stripClosing_append s "=") by discriminate.
    apply append_empty_r. }
  split_and!.
  - rewrite parseAttribute_unfold. cbv zeta.
    replace (name +:+ "=" +:+ value +:+ "=") with ((name +:+ "=" +:+ value) +:+ "=")
      by (now rewrite !append_assoc).
    rewrite Hclose.
    assert (Hc : without ":" (name +:+ "=" +:+ value) = true).
    { unfold without. rewrite !all_append. fold (without ":" name) (without ":" value).
      now rewrite Hnc, Hvc. }
    rewrite (includes_without ":" _ Hc).
    change ("=" +:+ value) with (String "=" value).
    rewrite includes_here, (split_at "=" name _ Hne), (split_without "=" value Hve).
    reflexivity.
  - rewrite parseAttribute_unfold. cbv zeta.
    unfold stripClosing. rewrite (endsWithChar_without "=" name Hne).
    now apply Hbare.
  - rewrite parseAttribute_unfold. cbv zeta. rewrite Hclose. now apply Hbare.
Qed.

Lemma attribute_equals_form_witness :
  parseAttribute "color=FF0000=" = (Some "color", "FF0000")
  /\ parseAttribute "disabled" = (None, EmptyString)
  /\ parseAttribute "disabled=" = (None, EmptyString).
Proof.
  exact (attribute_equals_form "color" "FF0000" eq_refl eq_refl).
Defined.

(** *** The properties of an element *)

Lemma getProperty_setOwnProperty (k v : string) (props : ElementProperties) :
  getProperty k (setOwnProperty k v props) = Some v.
Proof.
  induction props as [|[k0 w] props IH]; simpl.
  - now rewrite String.eqb_refl.
  - destruct (String.eqb k0 k) eqn:E; simpl; now rewrite E.
Qed.

Lemma getProperty_setProperty (k v : string) (props : ElementProperties) :
  k <> "__proto__" -> getProperty k (setProperty k v props) = Some v.
Proof.
  intros Hk%String.eqb_neq. unfold setProperty. rewrite Hk.
  apply getProperty_setOwnProperty.
Qed.

Lemma setOwnProperty_keys (k v : string) (props : ElementProperties) (k' : string) :
  k' ∈ List.map fst (setOwnProperty k v props) -> k' = k \/ k' ∈ List.map fst props.
Proof.
  induction props as [|[k0 w] props IH]; simpl.
  - intros ->%list_elem_of_singleton. now left.
  - destruct (String.eqb k0 k) eqn:E; simpl.
    + intros Hin. now right.
    + intros [-> | Hin]%elem_of_cons.
      * right. apply list_elem_of_here.
      * destruct (IH Hin) as [-> | Hin']; [now left|].
        right. now apply list_elem_of_further.
Qed.

Lemma setProperty_NoDup (k v : string) (props : ElementProperties) :
  NoDup (List.map fst props) -> NoDup (List.map fst (setProperty k v props)).
Proof.
  unfold setProperty. destruct (String.eqb k "__proto__"); [auto|].
  induction props as [|[k0 w] props IH]; simpl; intros Hnd.
  - apply NoDup_singleton.
  - apply NoDup_cons in Hnd as [Hnotin Hnd].
    destruct (String.eqb k0 k) eqn:E; simpl.
    + apply NoDup_cons. split; assumption.
    + apply NoDup_cons. split; [|now apply IH].
      intros [-> | Hin]%setOwnProperty_keys; [|contradiction].
      now rewrite String.eqb_refl in E.
Qed.

Lemma setProperty_stored (k v : string) (props : ElementProperties) :
  isStoredProperty (k, v) -> Forall isStoredProperty props ->
  Forall isStoredProperty (setProperty k v props).
Proof.
  intros Hkv. unfold setProperty. destruct (String.eqb k "__proto__"); [auto|].
  induction props as [|[k0 w] props IH]; simpl; intros Hall.
  - now apply Forall_singleton.
  - apply Forall_cons in Hall as [H0 Hall].
    destruct (String.eqb k0 k) eqn:E.
    + apply String.eqb_eq in E. subst k0. apply Forall_cons. split; [|exact Hall].
      destruct Hkv as (Hk & Htk & Htv). split_and!; auto.
    + apply Forall_cons. split; [exact H0 | now apply IH].
Qed.

(** What [parseAttribute] returns is trimmed. *)
Lemma parseAttribute_trimmed (part : string) (name value : string) :
  parseAttribute part = (Some name, value) -> trim name = name /\ trim value = value.
Proof.
  rewrite parseAttribute_unfold. cbv zeta.
  destruct (includes ":" _).
  { destruct (split ":" _) as [|n [|v r]]; try discriminate.
    intros [= <- <-]. split; apply trim_idem. }
  destruct (includes "=" _); [|discriminate].
  destruct (split "=" _) as [|n [|v r]]; try discriminate.
  intros [= <- <-]. split; apply trim_idem.
Qed.

Lemma addAttributes_stored (parts : list string) (props : ElementProperties) :
  NoDup (List.map fst props) -> Forall isStoredProperty props ->
  NoDup (List.map fst (addAttributes parts props))
  /\ Forall isStoredProperty (addAttributes parts props).
Proof.
  revert props. induction parts as [|part parts IH]; intros props Hnd Hall; simpl; [auto|].
  destruct (parseAttribute part) as [[name|] value] eqn:E; [|now apply IH].
  destruct (truthy name) eqn:Hn; [|now apply IH].
  destruct (parseAttribute_trimmed part name value E) as [Htn Htv].
  apply IH; [now apply setProperty_NoDup|].
  apply setProperty_stored; [|exact Hall].
  split_and!; auto. now apply truthy_nonempty.
Qed.

Lemma addAttributes_app (a b : list string) (props : ElementProperties) :
  addAttributes (a ++ b) props = addAttributes b (addAttributes a props).
Proof.
  revert props. induction a as [|part a IH]; intros props; simpl; [reflexivity|].
  destruct (parseAttribute part) as [[name|] value]; [|apply IH].
  destruct (truthy name); apply IH.
Qed.

Lemma properties_stored (propsStr : string) :
  let props :=
    if truthy propsStr then addAttributes (tokenizeElementLine propsStr) [] else [] in
  NoDup (List.map fst props) /\ Forall isStoredProperty props.
Proof.
  simpl. destruct (truthy propsStr).
  - apply addAttributes_stored; constructor.
  - split; constructor.
Qed.

End LineFacts.

(** ** Elements, special elements and document properties *)

Module StatementFacts.
Import JS JSFacts Ast Parser Notions ParserFacts ContainerFacts Titles TitleFacts.
Import Lines LineFacts.

Lemma parseElement_result `{Externals} (ty remaining : string) (ln : nat) :
  exists props content endCol,
    parseElement ty remaining ln
    = ElementObj ty props [] content 0 (createLocation ln 1 ln endCol)
    /\ NoDup (List.map fst props)
    /\ Forall isStoredProperty props
    /\ match content with
       | Some c => trim c = c
       | None => True
       end.
Proof.
  unfold parseElement, createElement.
  destruct (String.eqb remaining EmptyString).
  { do 3 eexists. split_and!; [reflexivity | constructor | constructor | exact I]. }
  destruct (startsWith " " remaining).
  { destruct (properties_stored (trim remaining)) as [Hnd Hall].
    do 3 eexists. split_and!; [reflexivity | exact Hnd | exact Hall | exact I]. }
  destruct (findContentEnd remaining) as [contentEnd|].
  - destruct (properties_stored (trim (drop (contentEnd + 1) remaining))) as [Hnd Hall].
    do 3 eexists. split_and!; [reflexivity | exact Hnd | exact Hall | apply trim_idem].
  - do 3 eexists. split_and!; [reflexivity | constructor | constructor | apply trim_idem].
Qed.

(** X14.  The Element [parseElement] returns has the kind it was asked for, no
    children, and the nesting depth 0 whatever the indentation of its line;
    its location is the line, from column 1; its properties have pairwise
    distinct names, none empty, and trimmed names and values; its content is
    trimmed. *)
Theorem element_as_parsed `{Externals} (ty remaining : string) (ln : nat) :
  exists props content endCol,
    parseElement ty remaining ln
    = ElementObj ty props [] content 0 (createLocation ln 1 ln endCol)
    /\ NoDup (List.map fst props)
    /\ Forall isStoredProperty props
    /\ match content with
       | Some c => trim c = c
       | None => True
       end.
Proof. apply parseElement_result. Qed.

(** X15.  When an attribute name is written more than once on an element line,
    the last value is the one stored: after the loop of [parseElement] has
    read a part that gives the name [k] and the value [v] last, the
    property [k] is [v].  The name [__proto__] is the exception: the
    assignment stores nothing, and the part changes no property. *)
Theorem last_attribute_wins (parts : list string) (part k v : string)
    (props : ElementProperties) :
  parseAttribute part = (Some k, v) -> truthy k = true ->
  (k <> "__proto__" ->
   getProperty k (addAttributes (parts ++ [part]) props) = Some v)
  /\ (k = "__proto__" ->
      addAttributes (parts ++ [part]) props = addAttributes parts props).
Proof.
  intros E Hk. rewrite addAttributes_app. simpl. rewrite E, Hk. split.
  - apply getProperty_setProperty.
  - intros ->. reflexivity.
Qed.

Lemma last_attribute_wins_witness :
  getProperty "color" (addAttributes (["color:red"; "id:a"] ++ ["color:blue"]) [])
  = Some "blue"
  /\ addAttributes (["color:red"] ++ ["__proto__:x"]) [] = [("color", "red")].
Proof.
  split.
  - refine (proj1 (last_attribute_wins ["color:red"; "id:a"] "color:blue" "color" "blue" []
                     eq_refl eq_refl) _).
    discriminate.
  - exact (proj2 (last_attribute_wins ["color:red"] "__proto__:x" "__proto__" "x" []
                    eq_refl eq_refl) eq_refl).
Defined.

Lemma prefix_nil (s : string) : String.prefix EmptyString s = true.
Proof. now destruct s. Qed.

Lemma includes_append (p s t : string) :
  String.prefix p t = true -> includes p (s +:+ t) = true.
Proof.
  intros Hp. induction s as [|c s IH].
  - change (EmptyString +:+ t) with t.
    destruct t as [|d t]; cbn [includes]; now rewrite Hp.
  - change (String c s +:+ t) with (String c (s +:+ t)). cbn [includes].
    rewrite IH. apply orb_true_r.
Qed.

(** X16.  The only special element is the clock, in any letter case: a line
    [=(word)=] whose word, lowered, is [time] gives the Special node [time]
    located on its line; any other word gives an error and no node. *)
Theorem special_element_is_the_clock `{Externals} (word : string) (ln : nat)
    (p : Parser) :
  all isWordChar word = true -> word <> EmptyString ->
  parseStatement (specialLine word) ln p
  = if String.eqb (toLowerCase word) "time"
    then (Some (createSpecial "time"
                  (createLocation ln 1 ln (String.length word + 4))), p)
    else (None, addErrorAt "I don't know this special element" ln p).
Proof.
  intros Hw Hne. unfold specialLine.
  change ("=(" +:+ word +:+ ")=") with (String "=" (String "(" (word +:+ ")="))).
  unfold parseStatement.
  assert (H1 : startsWith "=" (String "=" (String "(" (word +:+ ")="))) = true)
    by reflexivity.
  assert (H2 : startsWith "=(" (String "=" (String "(" (word +:+ ")="))) = true).
  { unfold startsWith. rewrite !LexerFacts.prefix_cons. simpl. apply prefix_nil. }
  assert (H3 : includes ")=" (String "=" (String "(" (word +:+ ")="))) = true).
  { exact (includes_append ")=" (String "=" (String "(" word)) ")=" eq_refl). }
  rewrite H1, H2, H3. simpl negb. simpl andb. cbv iota.
  unfold parseSpecialElement, matchSpecial.
  change (Ascii.eqb "=" "=" && Ascii.eqb "(" "(") with true. cbv iota.
  rewrite (span_run isWordChar word ")=" Hw) by (right; exists ")"%char; auto).
  rewrite drop_append, take_append.
  assert (Hlen : (0 <? String.length word) = true)
    by (destruct word; [contradiction | reflexivity]).
  rewrite Hlen. change (String.eqb ")=" ")=") with true. simpl andb. cbv iota.
  simpl String.length. rewrite length_append. simpl String.length.
  replace (S (S (String.length word + 2))) with (String.length word + 4) by lia.
  reflexivity.
Qed.

Lemma special_element_is_the_clock_witness :
  parseStatement (specialLine "TiMe") 7 (@new Base.externals "")
  = (Some (createSpecial "time" (createLocation 7 1 7 8)), @new Base.externals "").
Proof.
  exact (special_element_is_the_clock "TiMe" 7 (@new Base.externals "") eq_refl
           ltac:(discriminate)).
Defined.

Section WithExternals.
Context `{Externals}.

Lemma declaration_delimited (name text : string) :
  declaration name text = String "=" ((name +:+ "=" +:+ text) +:+ "=").
Proof. unfold declaration. now rewrite !append_assoc. Qed.

Lemma parseBody_step_language (text : string) (p : Parser) (stack : list Frame) :
  plainText text = true ->
  exists stack',
    parseBody_step (declaration "language" text) p stack
    = Some (afterDeclaration
              (mkMetadata (title (Parser.metadata p))
                 (Some (valueToString (declaredValue (trim text))))
                 (fontSize (Parser.metadata p))) p, stack').
Proof.
  intros Hplain. unfold parseBody_step, parseIndentation.
  rewrite declaration_delimited, trim_delimited.
  rewrite (trimStart_keeps "=" _ eq_refl).
  change (span (fun c => Ascii.eqb c ".")
            (String "=" (("language" +:+ "=" +:+ text) +:+ "="))) with 0.
  change (JS.drop 0 ?s) with s. rewrite trim_delimited.
  rewrite <- declaration_delimited. unfold declaration.
  change (String.eqb ("=" +:+ "language" +:+ "=" +:+ text +:+ "=") "==CTIW==") with false.
  change (String.eqb ("=" +:+ "language" +:+ "=" +:+ text +:+ "=") EmptyString) with false.
  change (String.eqb ("=" +:+ "language" +:+ "=" +:+ text +:+ "=") "=divide=") with false.
  cbv iota beta. simpl andb. cbv iota.
  unfold parseStatement.
  change (startsWith "=" ("=" +:+ "language" +:+ "=" +:+ text +:+ "=")) with true.
  change (startsWith "=(" ("=" +:+ "language" +:+ "=" +:+ text +:+ "=")) with false.
  simpl negb. simpl andb. cbv iota.
  unfold parsePropertyOrElement.
  change (JS.drop 1 ("=" +:+ "language" +:+ "=" +:+ text +:+ "="))
    with ("language=" +:+ text +:+ "=").
  change (indexOf "=" ("language=" +:+ text +:+ "=")) with (Some 8).
  cbv iota beta.
  change (toLowerCase (trim (take 8 ("language=" +:+ text +:+ "=")))) with "language".
  change (JS.drop (8 + 1) ("language=" +:+ text +:+ "=")) with (text +:+ "=").
  change (DOC_PROPERTIES_has "language") with true. cbv iota.
  unfold parseDocProperty, valueBeforeEquals.
  rewrite (indexOf_plain text EmptyString Hplain), take_append.
  unfold createProperty. cbv iota beta.
  eexists. reflexivity.
Qed.

Lemma parseBody_step_font_size (text : string) (p : Parser) (stack : list Frame) :
  plainText text = true ->
  exists stack',
    parseBody_step (declaration "font-size" text) p stack
    = Some (afterDeclaration
              (mkMetadata (title (Parser.metadata p))
                 (language (Parser.metadata p))
                 (Some (valueToNumber (declaredValue (trim text))))) p, stack').
Proof.
  intros Hplain. unfold parseBody_step, parseIndentation.
  rewrite declaration_delimited, trim_delimited.
  rewrite (trimStart_keeps "=" _ eq_refl).
  change (span (fun c => Ascii.eqb c ".")
            (String "=" (("font-size" +:+ "=" +:+ text) +:+ "="))) with 0.
  change (JS.drop 0 ?s) with s. rewrite trim_delimited.
  rewrite <- declaration_delimited. unfold declaration.
  change (String.eqb ("=" +:+ "font-size" +:+ "=" +:+ text +:+ "=") "==CTIW==") with false.
  change (String.eqb ("=" +:+ "font-size" +:+ "=" +:+ text +:+ "=") EmptyString) with false.
  change (String.eqb ("=" +:+ "font-size" +:+ "=" +:+ text +:+ "=") "=divide=") with false.
  cbv iota beta. simpl andb. cbv iota.
  unfold parseStatement.
  change (startsWith "=" ("=" +:+ "font-size" +:+ "=" +:+ text +:+ "=")) with true.
  change (startsWith "=(" ("=" +:+ "font-size" +:+ "=" +:+ text +:+ "=")) with false.
  simpl negb. simpl andb. cbv iota.
  unfold parsePropertyOrElement.
  change (JS.drop 1 ("=" +:+ "font-size" +:+ "=" +:+ text +:+ "="))
    with ("font-size=" +:+ text +:+ "=").
  change (indexOf "=" ("font-size=" +:+ text +:+ "=")) with (Some 9).
  cbv iota beta.
  change (toLowerCase (trim (take 9 ("font-size=" +:+ text +:+ "=")))) with "font-size".
  change (JS.drop (9 + 1) ("font-size=" +:+ text +:+ "=")) with (text +:+ "=").
  change (DOC_PROPERTIES_has "font-size") with true. cbv iota.
  unfold parseDocProperty, valueBeforeEquals.
  rewrite (indexOf_plain text EmptyString Hplain), take_append.
  unfold createProperty. cbv iota beta.
  eexists. reflexivity.
Qed.

End WithExternals.

(** X17.  Unlike the title, the language and the font size follow the last
    declaration: a line [=language=text=] always sets the language of the
    metadata, and a line [=font-size=text=] the font size, whatever was
    declared before, at any indentation level of the surrounding lines; the
    step adds no node and no error.  The text counts as the number it reads
    as when it reads as one, so that the language [007] is stored as the
    printed number. *)
Theorem last_document_property_wins `{Externals} (text : string) (p : Parser)
    (stack : list Frame) :
  plainText text = true ->
  (exists stack',
     parseBody_step (declaration "language" text) p stack
     = Some (afterDeclaration
               (mkMetadata (title (Parser.metadata p))
                  (Some (valueToString (declaredValue (trim text))))
                  (fontSize (Parser.metadata p))) p, stack'))
  /\ (exists stack',
        parseBody_step (declaration "font-size" text) p stack
        = Some (afterDeclaration
                  (mkMetadata (title (Parser.metadata p))
                     (language (Parser.metadata p))
                     (Some (valueToNumber (declaredValue (trim text))))) p, stack')).
Proof.
  intros Hplain. split.
  - now apply parseBody_step_language.
  - now apply parseBody_step_font_size.
Qed.

Lemma last_document_property_wins_witness :
  exists stack',
    parseBody_step (declaration "language" "french")
      (@setMetadata Base.externals (mkMetadata None (Some "english") None) (new "")) []
    = Some (afterDeclaration (mkMetadata None (Some "french") None) (new ""), stack').
Proof.
  exact (proj1 (last_document_property_wins "french"
                  (@setMetadata Base.externals (mkMetadata None (Some "english") None)
                     (new "")) [] eq_refl)).
Defined.

End StatementFacts.

(** ** The tree of a parsed document *)

Module TreeFacts.
Import JS JSFacts Ast Parser Notions ParserFacts ReifyFacts ContainerFacts.
Import Lines LineFacts StatementFacts Tree.

(** *** Ordered lists *)

Lemma increasing_cons (a : nat) (l : list nat) :
  increasing (a :: l) = true <-> Forall (lt a) l /\ increasing l = true.
Proof.
  revert a. induction l as [|b l IH]; intros a.
  - simpl. split; [intros _; split; [constructor | reflexivity] | reflexivity].
  - change (increasing (a :: b :: l)) with ((a <? b) && increasing (b :: l)).
    rewrite andb_true_iff, Nat.ltb_lt. split.
    + intros [Hab Hl]. split; [|exact Hl].
      apply Forall_cons. split; [exact Hab|].
      apply IH in Hl as [Hbl _]. eapply Forall_impl; [exact Hbl|]. simpl. lia.
    + intros [[Hab _]%Forall_cons Hl]. auto.
Qed.

Lemma increasing_snoc (l : list nat) (x : nat) :
  increasing l = true -> Forall (fun a => a < x) l -> increasing (l ++ [x]) = true.
Proof.
  induction l as [|a l IH]; intros Hl Hx; [reflexivity|].
  apply Forall_cons in Hx as [Hax Hx]. apply increasing_cons in Hl as [Hal Hl].
  change ((a :: l) ++ [x]) with (a :: (l ++ [x])).
  apply increasing_cons. split; [|now apply IH].
  apply Forall_app. split; [exact Hal | now apply Forall_singleton].
Qed.

Lemma increasing_lookup (l : list nat) (i j x y : nat) :
  increasing l = true -> i < j -> l !! i = Some x -> l !! j = Some y -> x < y.
Proof.
  revert i j. induction l as [|a l IH]; intros i j Hl Hij Ei Ej.
  - now rewrite lookup_nil in Ei.
  - apply increasing_cons in Hl as [Hal Hl].
    destruct j as [|j]; [lia|]. simpl in Ej.
    destruct i as [|i].
    + injection Ei as <-. rewrite Forall_forall in Hal.
      apply Hal. eapply list_elem_of_lookup_2, Ej.
    + simpl in Ei. apply (IH i j); auto. lia.
Qed.

Lemma increasing_map (f : nat -> nat) (l : list nat) :
  increasing l = true ->
  (forall a b, a ∈ l -> b ∈ l -> a < b -> f a < f b) ->
  increasing (List.map f l) = true.
Proof.
  induction l as [|a l IH]; intros Hl Hf; [reflexivity|].
  apply increasing_cons in Hl as [Hal Hl].
  change (List.map f (a :: l)) with (f a :: List.map f l).
  apply increasing_cons. split.
  - apply Forall_forall. intros y Hy.
    apply list_elem_of_In, in_map_iff in Hy as (b & <- & Hb%list_elem_of_In).
    rewrite Forall_forall in Hal.
    apply Hf; [apply list_elem_of_here | now apply list_elem_of_further | now apply Hal].
  - apply IH; [exact Hl|]. intros x y Hx Hy. apply Hf; now apply list_elem_of_further.
Qed.

Lemma nondecreasing_snoc (l : list nat) (x : nat) :
  nondecreasing l = true -> Forall (fun a => a <= x) l ->
  nondecreasing (l ++ [x]) = true.
Proof.
  induction l as [|a l IH]; intros Hl Hx; [reflexivity|].
  apply Forall_cons in Hx as [Hax Hx].
  destruct l as [|b l].
  - simpl. now rewrite (proj2 (Nat.leb_le a x) Hax).
  - change (nondecreasing (a :: b :: l)) with ((a <=? b) && nondecreasing (b :: l)) in Hl.
    apply andb_prop in Hl as [Hab Hl].
    change (nondecreasing ((a :: b :: l) ++ [x]))
      with ((a <=? b) && nondecreasing ((b :: l) ++ [x])).
    rewrite Hab. simpl. now apply IH.
Qed.

Lemma map_alter_same {A B : Type} (f : A -> B) (g : A -> A) (i : nat) (l : list A) :
  (forall x, f (g x) = f x) -> List.map f (alter g i l) = List.map f l.
Proof.
  intros Hfg. revert i. induction l as [|x l IH]; intros [|i]; simpl; auto.
  - now rewrite Hfg.
  - f_equal. apply IH.
Qed.

Section WithExternals.
Context `{Externals}.

(** *** The invariant, step by step *)

Lemma storeInv_mono (nl cl cl' : nat) (h : list NodeObj) (bd : list nat)
    (errs : list ParseError) :
  storeInv nl cl h bd errs -> cl <= cl' -> cl' <= nl -> storeInv nl cl' h bd errs.
Proof.
  intros [Hl Hp Hln Hb Hc Heo Hel] H1 H2. split; auto.
  - eapply Forall_impl; [exact Hp|]. simpl. intros o [Ho Hb']. split; [exact Ho | lia].
  - eapply Forall_impl; [exact Hel|]. simpl. intros e He. lia.
Qed.

Lemma storeInv_error (nl cl : nat) (h : list NodeObj) (bd : list nat)
    (errs : list ParseError) (msg : string) :
  storeInv nl cl h bd errs -> storeInv nl cl h bd (errs ++ [mkParseError msg (cl + 1)]).
Proof.
  intros [Hl Hp Hln Hb Hc Heo Hel]. split; auto.
  - rewrite map_app. simpl. apply nondecreasing_snoc; [exact Heo|].
    apply Forall_forall. intros x Hx.
    apply list_elem_of_In, in_map_iff in Hx as (e & <- & He%list_elem_of_In).
    rewrite Forall_forall in Hel. specialize (Hel e He). lia.
  - apply Forall_app. split; [exact Hel|]. apply Forall_singleton. simpl. lia.
Qed.

Lemma objLine_pushChild (c : nat) (o : NodeObj) : objLine (pushChild c o) = objLine o.
Proof. unfold objLine. now rewrite pushChild_location. Qed.

Lemma isParsedObj_pushChild (c : nat) (o : NodeObj) :
  isParsedObj o -> isParsedObj (pushChild c o).
Proof. now destruct o. Qed.

Lemma lines_snoc (cl : nat) (h : list NodeObj) (node : NodeObj) :
  increasing (List.map objLine h) = true ->
  Forall (fun o => isParsedObj o /\ 1 <= objLine o <= cl) h ->
  objLine node = cl + 1 ->
  increasing (List.map objLine (h ++ [node])) = true.
Proof.
  intros Hln Hp Hnode. rewrite map_app. simpl. apply increasing_snoc; [exact Hln|].
  apply Forall_forall. intros x Hx.
  apply list_elem_of_In, in_map_iff in Hx as (o & <- & Ho%list_elem_of_In).
  rewrite Forall_forall in Hp. specialize (Hp o Ho). lia.
Qed.

Lemma storeInv_push_body (nl cl : nat) (h : list NodeObj) (bd : list nat)
    (errs : list ParseError) (node : NodeObj) :
  storeInv nl cl h bd errs -> cl < nl ->
  Forall (fun a => a < length h) bd ->
  isParsedObj node -> objLine node = cl + 1 -> objChildren node = [] ->
  storeInv nl (cl + 1) (h ++ [node]) (bd ++ [length h]) errs.
Proof.
  intros Hinv Hcl Hbd Hnode Hline Hch.
  pose proof (lines_snoc cl h node (inv_lines _ _ _ _ _ Hinv) (inv_parsed _ _ _ _ _ Hinv) Hline)
    as Hlines.
  apply (storeInv_mono nl cl (cl + 1)) in Hinv; [|lia|lia].
  destruct Hinv as [Hl Hp Hln Hb Hc Heo Hel]. split; auto.
  - apply Forall_app. split; [exact Hp|]. apply Forall_singleton. split; [exact Hnode | lia].
  - now apply increasing_snoc.
  - intros a o [E | [_ E]]%lookup_app_Some; [eauto|].
    apply list_lookup_singleton_Some in E as [_ <-]. now rewrite Hch.
Qed.

Lemma storeInv_push_child (nl cl : nat) (h : list NodeObj) (bd : list nat)
    (errs : list ParseError) (node : NodeObj) (t : nat) :
  storeInv nl cl h bd errs -> cl < nl -> t < length h ->
  (forall a o c, h !! a = Some o -> c ∈ objChildren o -> c < length h) ->
  isParsedObj node -> objLine node = cl + 1 -> objChildren node = [] ->
  storeInv nl (cl + 1) (alter (pushChild (length h)) t (h ++ [node])) bd errs.
Proof.
  intros Hinv Hcl Ht Hfwd Hnode Hline Hch.
  pose proof (lines_snoc cl h node (inv_lines _ _ _ _ _ Hinv) (inv_parsed _ _ _ _ _ Hinv) Hline)
    as Hlines.
  apply (storeInv_mono nl cl (cl + 1)) in Hinv; [|lia|lia].
  destruct Hinv as [Hl Hp Hln Hb Hc Heo Hel]. split; auto.
  - apply Forall_alter.
    + apply Forall_app. split; [exact Hp|]. apply Forall_singleton.
      split; [exact Hnode | lia].
    + intros o _ [Ho Hb']. rewrite objLine_pushChild.
      split; [now apply isParsedObj_pushChild | exact Hb'].
  - rewrite <- Hlines. f_equal. apply map_alter_same. intros o. apply objLine_pushChild.
  - intros a o E.
    destruct (lookup_pushed h node t a o E Ht)
      as [[_ ->] | [(_ & _ & E') | (-> & o0 & E' & ->)]].
    + now rewrite Hch.
    + eauto.
    + destruct o0 as [| ty props ch content ind loc |]; simpl;
        [exact (Hc t _ E') | | exact (Hc t _ E')].
      apply increasing_snoc; [exact (Hc t _ E')|].
      apply Forall_forall. intros c Hc'. exact (Hfwd t _ c E' Hc').
Qed.

Lemma blankPrefix_le (rest : list string) : blankPrefix rest <= length rest.
Proof.
  induction rest as [|l rest IH]; simpl; [lia|].
  destruct (String.eqb (trim l) EmptyString); lia.
Qed.

Lemma parseMarker_store (marker : string) (p : Parser) :
  storeInvOf p -> storeInvOf (snd (parseMarker marker p)).
Proof.
  unfold storeInvOf, parseMarker, skipEmptyLines. intros Hinv.
  pose proof (inv_line _ _ _ _ _ Hinv) as Hcl.
  pose proof (blankPrefix_le (skipn (currentLine p) (lines p))) as Hb.
  rewrite length_skipn in Hb.
  cbn [lines currentLine setCurrentLine].
  set (cl' := currentLine p + blankPrefix _) in *.
  destruct (lines p !! cl') as [l|] eqn:E; cbn [snd].
  - apply lookup_lt_Some in E.
    destruct (String.eqb (trim l) marker); simpl;
      apply (storeInv_mono _ (currentLine p)); auto; lia.
  - simpl. apply (storeInv_mono _ (currentLine p)); auto; lia.
Qed.

Lemma addError_store (msg : string) (p : Parser) :
  storeInvOf p -> storeInvOf (addError msg p).
Proof. unfold storeInvOf, addError, addErrorAt. simpl. apply storeInv_error. Qed.

(** What [parseStatement] returns and reports: a node and no error, or no
    node and one error at the line. *)
Lemma parseStatement_shape (content : string) (ln : nat) (p : Parser) :
  let r := parseStatement content ln p in
  match fst r with
  | Some node =>
      errors (snd r) = errors p
      /\ match node with
         | PropertyObj _ _ _ => True
         | _ => isParsedObj node
         end
  | None => exists msg, errors (snd r) = errors p ++ [mkParseError msg ln]
  end.
Proof.
  unfold parseStatement.
  destruct (negb (startsWith "=" content)); [simpl; eauto|].
  destruct (startsWith "=(" content && includes ")=" content).
  { unfold parseSpecialElement.
    destruct (matchSpecial content) as [w|]; [|simpl; eauto].
    destruct (String.eqb (toLowerCase w) "time"); simpl; [|eauto].
    repeat split. }
  unfold parsePropertyOrElement.
  destruct (indexOf "=" (drop 1 content)) as [nameEnd|]; [|simpl; eauto].
  set (name := toLowerCase (trim (take nameEnd (drop 1 content)))).
  set (remaining := drop (nameEnd + 1) (drop 1 content)).
  destruct (DOC_PROPERTIES_has name); [simpl; auto|].
  destruct (String.eqb name "title") eqn:Et.
  { destruct (parseElement_result "title" remaining ln) as (props & c & e & -> & Hnd & Hst & _).
    destruct (titleUnset (Parser.metadata p)); simpl; repeat split; auto. }
  destruct (isValidElementType name) eqn:Ev; [|simpl; eauto].
  destruct (parseElement_result name remaining ln) as (props & c & e & -> & Hnd & Hst & _).
  simpl. repeat split; auto.
Qed.

(** [attach] keeps the invariant, the parser being at the line of the
    node. *)
Lemma attach_store (node : NodeObj) (indent : nat) (p : Parser) (stack : list Frame) :
  currentLine p < length (lines p) ->
  heapInv (lines p) (heap p) (body p) -> stackAllDivide (heap p) stack ->
  storeInvOf p ->
  isParsedObj node -> objLine node = currentLine p + 1 -> objChildren node = [] ->
  let p2 := fst (attach node indent p stack) in
  storeInvOf (setCurrentLine (currentLine p2 + 1) p2).
Proof.
  intros Hcl Hinv Hstack Hst Hnode Hline Hch. unfold attach, storeInvOf.
  pose proof (inv_body _ _ _ Hinv) as Hbody.
  assert (Hfwd : forall a o c, heap p !! a = Some o -> c ∈ objChildren o ->
                 c < length (heap p)).
  { intros a o c E Hc. pose proof (inv_forward _ _ _ Hinv a o c E Hc). lia. }
  destruct stack as [|top below]; cbn [fst].
  - simpl. now apply storeInv_push_body.
  - destruct (0 <? indent); simpl.
    + apply Forall_cons in Hstack as [Htop _]. apply elementTypeAt_lt in Htop.
      now apply storeInv_push_child.
    + now apply storeInv_push_body.
Qed.

(** One turn of the loop of [parseBody] keeps the invariant. *)
Lemma parseBody_step_store (rawLine : string) (p : Parser) (stack : list Frame)
    (p' : Parser) (stack' : list Frame) :
  lines p !! currentLine p = Some rawLine ->
  heapInv (lines p) (heap p) (body p) -> stackAllDivide (heap p) stack ->
  storeInvOf p ->
  parseBody_step rawLine p stack = Some (p', stack') ->
  storeInvOf p'.
Proof.
  intros Hline Hinv Hstack Hst.
  assert (Hcl : currentLine p < length (lines p)) by (eapply lookup_lt_Some, Hline).
  assert (Hnext : storeInvOf (setCurrentLine (currentLine p + 1) p)).
  { unfold storeInvOf. simpl. apply (storeInv_mono _ (currentLine p)); auto; lia. }
  unfold parseBody_step.
  destruct (String.eqb (trim rawLine) "==CTIW=="); [discriminate|].
  destruct (String.eqb (trim rawLine) EmptyString); [now intros [= <- <-]|].
  destruct (parseIndentation rawLine) as [indent content].
  destruct (String.eqb content "=divide=" && (0 <? length stack));
    [now intros [= <- <-]|].
  pose proof (parseStatement_effect content (currentLine p + 1) p) as Heff.
  pose proof (parseStatement_shape content (currentLine p + 1) p) as Hsh.
  destruct (parseStatement content (currentLine p + 1) p) as [parsed p1].
  simpl in Heff, Hsh. destruct Heff as (Hl & Hc & Hh & Hb & _ & _ & Hfresh).
  destruct parsed as [node|].
  2:{ destruct Hsh as (msg & He). intros [= <- <-].
      unfold storeInvOf. simpl. rewrite Hl, Hc, Hh, Hb, He.
      apply (storeInv_mono _ (currentLine p)); [|lia|lia].
      now apply storeInv_error. }
  destruct Hsh as [He Hobj]. destruct (Hfresh node eq_refl) as (Hnode & Hstart & _).
  rewrite Hh, (popNonDivide_allDivide _ _ _ Hstack).
  assert (Hst1 : storeInvOf p1) by (unfold storeInvOf; now rewrite Hl, Hc, Hh, Hb, He).
  assert (Hatt : forall node', node' = node -> isParsedObj node' ->
            forall p2 stack2, attach node' indent p1 stack = (p2, stack2) ->
            storeInvOf (setCurrentLine (currentLine p2 + 1) p2)).
  { intros node' -> Hp p2 stack2 Ea.
    pose proof (attach_store node indent p1 stack) as Ha.
    rewrite Ea in Ha. apply Ha; rewrite ?Hl, ?Hc, ?Hh, ?Hb; auto. }
  destruct node as [name v loc | ty props ch c i loc | ty loc].
  - intros [= <- <-]. unfold storeInvOf. simpl. rewrite Hl, Hc, Hh, Hb, He. exact Hnext.
  - destruct (attach _ indent p1 stack) as [p2 stack2] eqn:Ea.
    intros [= <- <-]. eapply Hatt; eauto.
  - destruct (attach _ indent p1 stack) as [p2 stack2] eqn:Ea.
    intros [= <- <-]. eapply Hatt; eauto.
Qed.

Lemma parseBody_loop_store (rest : list string) (p : Parser) (stack : list Frame) :
  skipn (currentLine p) (lines p) = rest ->
  heapInv (lines p) (heap p) (body p) -> stackAllDivide (heap p) stack ->
  storeInvOf p ->
  storeInvOf (fst (parseBody_loop rest p stack)).
Proof.
  revert p stack. induction rest as [|rawLine rest IH]; intros p stack Hrest Hinv Hstack Hst.
  - exact Hst.
  - simpl.
    assert (Hline : lines p !! currentLine p = Some rawLine).
    { pose proof (lookup_drop (lines p) (currentLine p) 0) as E.
      rewrite Hrest, Nat.add_0_r in E. now rewrite <- E. }
    destruct (parseBody_step rawLine p stack) as [[p' stack']|] eqn:Hstep; [|exact Hst].
    destruct (parseBody_step_inv rawLine p stack p' stack' Hline Hinv Hstack Hstep)
      as (Hl & Hc & Hi & Hs & _).
    apply IH; auto.
    + rewrite Hl, Hc. replace (currentLine p + 1) with (S (currentLine p)) by lia.
      rewrite <- (Nat.add_1_r (currentLine p)), <- drop_drop, Hrest. reflexivity.
    + exact (parseBody_step_store rawLine p stack p' stack' Hline Hinv Hstack Hst Hstep).
Qed.

Lemma storeInv_new (src : string) : storeInvOf (new src).
Proof.
  unfold storeInvOf. split; simpl; auto; try lia; try constructor.
  intros a o E. now rewrite lookup_nil in E.
Qed.

(** The parser [parse] ends with satisfies the invariant. *)
Lemma Parser_parse_store (src : string) : storeInvOf (finalParser src).
Proof.
  unfold finalParser, Parser_parse.
  pose proof (parseMarker_effect "=CTIW=" (new src)) as H1.
  pose proof (parseMarker_store "=CTIW=" (new src) (storeInv_new src)) as S1.
  fold (parseHeader (new src)) in H1, S1.
  destruct (parseHeader (new src)) as [okHeader p1]. simpl in H1, S1.
  destruct H1 as (Hl1 & Hh1 & Hb1 & _).
  set (p2 := if okHeader then p1 else _).
  assert (H2 : lines p2 = split LF src /\ heap p2 = [] /\ body p2 = [] /\ storeInvOf p2).
  { unfold p2; destruct okHeader; simpl; split_and!; auto. now apply addError_store. }
  destruct H2 as (Hl2 & Hh2 & Hb2 & S2).
  assert (S3 : storeInvOf (parseBody p2)).
  { unfold parseBody. apply parseBody_loop_store; auto.
    - rewrite Hh2, Hb2. apply heapInv_empty.
    - constructor. }
  pose proof (parseMarker_store "==CTIW==" (parseBody p2) S3) as S4.
  fold (parseFooter (parseBody p2)) in S4.
  destruct (parseFooter (parseBody p2)) as [okFooter p4]. simpl in S4.
  destruct okFooter; simpl; [exact S4 | now apply addError_store].
Qed.

(** *** From the store to the tree *)

Lemma reifyFrom_sameData (objs : list NodeObj) (base i : nat) (o : NodeObj) :
  objs !! i = Some o ->
  exists t, reifyFrom base objs !! i = Some t /\ sameData o t.
Proof.
  revert base i. induction objs as [|o0 objs IH]; intros base i E.
  - now rewrite lookup_nil in E.
  - destruct i as [|i].
    + injection E as <-. simpl. eexists. split; [reflexivity|].
      destruct o0; simpl; auto.
    + simpl in E. destruct (IH (S base) i E) as (t & Et & Hd).
      exists t. split; [exact Et | exact Hd].
Qed.

Lemma parse_errors (src : string) :
  result_errors (parse src) = errors (finalParser src).
Proof.
  unfold parse, finalParser, Parser_parse.
  destruct (parseHeader (new src)) as [okHeader p1].
  destruct (parseFooter _) as [okFooter p4]. reflexivity.
Qed.

Lemma store_forward (src : string) (i : nat) (o : NodeObj) (c : nat) :
  heap (finalParser src) !! i = Some o -> c ∈ objChildren o ->
  i < c < length (heap (finalParser src)).
Proof.
  destruct (Parser_parse_inv src) as [_ Hinv]. fold (finalParser src) in Hinv.
  exact (inv_forward _ _ _ Hinv i o c).
Qed.

(** The tree at an address of the store is read off the object there. *)
Lemma store_tree (src : string) (j : nat) (o : NodeObj) :
  heap (finalParser src) !! j = Some o ->
  let t := reify (heap (finalParser src)) j in
  reifyFrom 0 (heap (finalParser src)) !! j = Some t
  /\ readOff 0 (reifyFrom 0 (heap (finalParser src))) o t
  /\ sameData o t.
Proof.
  intros Eo. simpl.
  destruct (reifyFrom_readOff (heap (finalParser src)) 0) with (i := j) (o := o)
    as (t & Et & Hr); [|exact Eo|].
  { intros i oi c E Hc. pose proof (store_forward src i oi c E Hc). lia. }
  destruct (reifyFrom_sameData _ 0 j o Eo) as (t' & Et' & Hd).
  rewrite Et in Et'. injection Et' as <-.
  unfold reify. rewrite (nth_lookup_Some _ _ danglingNode _ Et). auto.
Qed.

(** Every node of a parsed document is the tree at an address of the
    store. *)
Lemma documentNodes_store (src : string) (n : CTIWNode) :
  n ∈ documentNodes (document (parse src)) ->
  exists j o, heap (finalParser src) !! j = Some o
              /\ n = reify (heap (finalParser src)) j.
Proof.
  destruct (Parser_parse_inv src) as [_ Hinv]. fold (finalParser src) in Hinv.
  set (p := finalParser src) in *. set (trees := reifyFrom 0 (heap p)).
  assert (Hfwd : forall i o c, heap p !! i = Some o -> c ∈ objChildren o ->
                 0 + i < c < 0 + length (heap p)).
  { intros i o c E Hc. simpl. exact (inv_forward _ _ _ Hinv i o c E Hc). }
  unfold documentNodes. rewrite parse_document. fold p.
  intros Hn. apply list_elem_of_In, in_concat in Hn as (l & Hl & Hn).
  apply in_map_iff in Hl as (t & <- & Ht).
  apply in_map_iff in Ht as (a & <- & Ha%list_elem_of_In).
  pose proof (inv_body _ _ _ Hinv) as Hbody.
  rewrite Forall_forall in Hbody. specialize (Hbody a Ha).
  assert (Hin : n ∈ trees).
  { apply (reifyFrom_closed (heap p) 0 Hfwd (reify (heap p) a)).
    - unfold reify. apply list_elem_of_In, nth_In. now rewrite reifyFrom_length.
    - now apply list_elem_of_In. }
  apply list_elem_of_lookup in Hin as (j & Ej).
  assert (Hj : j < length (heap p)).
  { apply lookup_lt_Some in Ej. unfold trees in Ej. now rewrite reifyFrom_length in Ej. }
  destruct (lookup_lt_is_Some_2 (heap p) j Hj) as (o & Eo).
  exists j, o. split; [exact Eo|].
  unfold reify. fold trees. now rewrite (nth_lookup_Some _ _ danglingNode _ Ej).
Qed.

Lemma sameData_parsed (o : NodeObj) (t : CTIWNode) :
  sameData o t -> isParsedObj o -> isParsedNode t /\ nodeLine t = objLine o.
Proof.
  destruct o as [name v loc | ty props ch c i loc | ty loc],
    t as [name' v' loc' | ty' props' ch' c' i' loc' | ty' loc' | m r loc'];
    simpl; try contradiction.
  - intros (<- & <- & <- & <- & <-) Hp. split; [exact Hp | reflexivity].
  - intros (<- & <-) Hp. split; [exact Hp | reflexivity].
Qed.

Lemma lookup_map {A B : Type} (f : A -> B) (l : list A) (i : nat) (x : A) :
  l !! i = Some x -> List.map f l !! i = Some (f x).
Proof.
  revert i. induction l as [|a l IH]; intros [|i] E; simpl in *; try discriminate.
  - now injection E as ->.
  - now apply IH.
Qed.

(** Lines grow with the addresses of the store. *)
Lemma lineAt_increasing (h : list NodeObj) (a b : nat) :
  increasing (List.map objLine h) = true -> a < b -> b < length h ->
  lineAt h a < lineAt h b.
Proof.
  intros Hinc Hab Hb. unfold lineAt.
  destruct (lookup_lt_is_Some_2 h a ltac:(lia)) as (oa & Ea).
  destruct (lookup_lt_is_Some_2 h b Hb) as (ob & Eb).
  rewrite Ea, Eb.
  exact (increasing_lookup _ a b _ _ Hinc Hab (lookup_map objLine h a oa Ea)
           (lookup_map objLine h b ob Eb)).
Qed.

Lemma reify_line (src : string) (a : nat) :
  a < length (heap (finalParser src)) ->
  nodeLine (reify (heap (finalParser src)) a) = lineAt (heap (finalParser src)) a.
Proof.
  intros Ha. destruct (lookup_lt_is_Some_2 _ a Ha) as (o & Eo).
  destruct (store_tree src a o Eo) as (_ & (Hloc & _) & _).
  unfold nodeLine, lineAt, objLine. now rewrite Eo, Hloc.
Qed.

Lemma lines_of_addresses (src : string) (addrs : list nat) :
  increasing addrs = true ->
  Forall (fun a => a < length (heap (finalParser src))) addrs ->
  increasing (List.map nodeLine (List.map (reify (heap (finalParser src))) addrs)) = true.
Proof.
  intros Hinc Hall. rewrite map_map.
  rewrite (map_ext_in _ (lineAt (heap (finalParser src)))).
  - apply increasing_map; [exact Hinc|].
    intros a b _ Hb Hab. rewrite Forall_forall in Hall.
    apply lineAt_increasing; [|exact Hab | now apply Hall].
    exact (inv_lines _ _ _ _ _ (Parser_parse_store src)).
  - intros a Ha%list_elem_of_In. rewrite Forall_forall in Hall.
    apply reify_line. now apply Hall.
Qed.

(** The tree at an address of the store is as [isParsedNode] says. *)
Lemma store_parsed (src : string) (j : nat) (o : NodeObj) :
  heap (finalParser src) !! j = Some o ->
  isParsedNode (reify (heap (finalParser src)) j)
  /\ 1 <= nodeLine (reify (heap (finalParser src)) j) <= length (split LF src).
Proof.
  intros Eo.
  destruct (store_tree src j o Eo) as (_ & _ & Hd).
  pose proof (Parser_parse_store src) as Hst.
  destruct (Parser_parse_inv src) as [Hlines _]. fold (finalParser src) in Hlines.
  unfold storeInvOf in Hst. rewrite Hlines in Hst.
  pose proof (inv_parsed _ _ _ _ _ Hst) as Hp. rewrite Forall_forall in Hp.
  destruct (Hp o (list_elem_of_lookup_2 _ _ _ Eo)) as [Ho Hb].
  destruct (sameData_parsed o _ Hd Ho) as [Hnode ->].
  pose proof (inv_line _ _ _ _ _ Hst). split; [exact Hnode | lia].
Qed.

End WithExternals.

(** X18.  Every node of a parsed document is an Element or a Special, never a
    Property or an ErrorNode.  An Element has the kind title or a kind
    [isValidElementType] accepts, the nesting depth 0 whatever the
    indentation of its line, and properties with pairwise distinct names,
    none empty, names and values trimmed; a Special is [time].  The location
    of a node is one line of the source, from column 1, and its line number
    lies between 1 and the number of lines. *)
Theorem nodes_of_a_parsed_document `{Externals} (src : string) :
  Forall (fun n => isParsedNode n /\ 1 <= nodeLine n <= length (split LF src))
    (documentNodes (document (parse src))).
Proof.
  apply Forall_forall. intros n Hn.
  destruct (documentNodes_store src n Hn) as (j & o & Eo & ->).
  exact (store_parsed src j o Eo).
Qed.

(** X19.  The tree keeps the order of the source: the top-level nodes of a parsed
    document come in the order of their lines, and so do the children of
    every node, each on a later line than the node that holds them. *)
Theorem tree_keeps_source_order `{Externals} (src : string) :
  increasing (List.map nodeLine (doc_children (document (parse src)))) = true
  /\ Forall (fun n => increasing (nodeLine n :: List.map nodeLine (nodeChildren n)) = true)
       (documentNodes (document (parse src))).
Proof.
  pose proof (Parser_parse_store src) as Hst. unfold storeInvOf in Hst.
  destruct (Parser_parse_inv src) as [_ Hinv]. fold (finalParser src) in Hinv.
  split.
  - rewrite parse_document. apply lines_of_addresses.
    + exact (inv_body_order _ _ _ _ _ Hst).
    + exact (inv_body _ _ _ Hinv).
  - apply Forall_forall. intros n Hn.
    destruct (documentNodes_store src n Hn) as (j & o & Eo & ->).
    destruct (store_tree src j o Eo) as (_ & (_ & _ & Hch) & _).
    rewrite Hch.
    assert (Hfwd : Forall (fun c => j < c < length (heap (finalParser src)))
                     (objChildren o)).
    { apply Forall_forall. intros c Hc. exact (store_forward src j o c Eo Hc). }
    replace (List.map (fun c => List.nth (c - 0) (reifyFrom 0 (heap (finalParser src)))
                                  danglingNode) (objChildren o))
      with (List.map (reify (heap (finalParser src))) (objChildren o))
      by (apply map_ext; intros c; unfold reify; now rewrite Nat.sub_0_r).
    change (increasing (List.map nodeLine
              (List.map (reify (heap (finalParser src))) (j :: objChildren o))) = true).
    apply lines_of_addresses.
    + apply increasing_cons. split.
      * eapply Forall_impl; [exact Hfwd|]. simpl. lia.
      * exact (inv_children_order _ _ _ _ _ Hst j o Eo).
    + apply Forall_cons. split; [eapply lookup_lt_Some, Eo|].
      eapply Forall_impl; [exact Hfwd|]. simpl. lia.
Qed.

(** X20.  The errors [parse] reports come in the order of their lines, and every
    error carries a line number between 1 and one more than the number of
    lines of the source. *)
Theorem errors_come_in_line_order `{Externals} (src : string) :
  nondecreasing (List.map line (result_errors (parse src))) = true
  /\ Forall (fun e => 1 <= line e <= length (split LF src) + 1)
       (result_errors (parse src)).
Proof.
  pose proof (Parser_parse_store src) as Hst. unfold storeInvOf in Hst.
  destruct (Parser_parse_inv src) as [Hlines _]. fold (finalParser src) in Hlines.
  rewrite Hlines in Hst. rewrite parse_errors. split.
  - exact (inv_errors_order _ _ _ _ _ Hst).
  - pose proof (inv_line _ _ _ _ _ Hst).
    eapply Forall_impl; [exact (inv_errors_lines _ _ _ _ _ Hst)|]. simpl. lia.
Qed.

End TreeFacts.

(** ** Header and footer *)

Module MarkerFacts.
Import JS JSFacts Ast Parser Notions ParserFacts ReifyFacts ContainerFacts.
Import Lines LineFacts StatementFacts Tree TreeFacts Markers.

Section WithExternals.
Context `{Externals}.

Lemma parseStatement_message (content : string) (ln : nat) (p : Parser) :
  let r := parseStatement content ln p in
  match fst r with
  | Some _ => errors (snd r) = errors p
  | None => exists msg, errors (snd r) = errors p ++ [mkParseError msg ln]
                        /\ isBodyMessage msg = true
  end.
Proof.
  unfold parseStatement.
  destruct (negb (startsWith "=" content)); [simpl; eauto|].
  destruct (startsWith "=(" content && includes ")=" content).
  { unfold parseSpecialElement.
    destruct (matchSpecial content) as [w|]; [|simpl; eauto].
    destruct (String.eqb (toLowerCase w) "time"); simpl; eauto. }
  unfold parsePropertyOrElement.
  destruct (indexOf "=" (drop 1 content)) as [nameEnd|]; [|simpl; eauto].
  destruct (DOC_PROPERTIES_has _); [reflexivity|].
  destruct (String.eqb _ "title").
  { destruct (titleUnset (Parser.metadata p)); reflexivity. }
  destruct (isValidElementType _); [reflexivity|].
  simpl. eexists. split; [reflexivity|]. reflexivity.
Qed.

Lemma attach_fields (node : NodeObj) (indent : nat) (p : Parser) (stack : list Frame) :
  let p2 := fst (attach node indent p stack) in
  lines p2 = lines p /\ currentLine p2 = currentLine p /\ errors p2 = errors p
  /\ Parser.metadata p2 = Parser.metadata p.
Proof.
  unfold attach. destruct stack as [|top below]; [simpl; auto|].
  destruct (0 <? indent); simpl; auto.
Qed.

(** One turn of the loop of [parseBody]: it breaks at a footer line and
    nowhere else; otherwise it moves one line further and reports errors of
    the body only. *)
Lemma parseBody_step_errors (rawLine : string) (p : Parser) (stack : list Frame) :
  match parseBody_step rawLine p stack with
  | None => isFooterLine rawLine = true
  | Some (p', _) =>
      isFooterLine rawLine = false
      /\ lines p' = lines p /\ currentLine p' = currentLine p + 1
      /\ exists errs, errors p' = errors p ++ errs
                      /\ Forall (fun e => isBodyMessage (message e) = true) errs
  end.
Proof.
  unfold parseBody_step, isFooterLine.
  destruct (String.eqb (trim rawLine) "==CTIW=="); [reflexivity|].
  assert (Hnil : exists errs : list ParseError,
            errors p = errors p ++ errs
            /\ Forall (fun e => isBodyMessage (message e) = true) errs)
    by (exists []; split; [now rewrite app_nil_r | constructor]).
  destruct (String.eqb (trim rawLine) EmptyString); [simpl; auto|].
  destruct (parseIndentation rawLine) as [indent content].
  destruct (String.eqb content "=divide=" && (0 <? length stack)); [simpl; auto|].
  pose proof (parseStatement_effect content (currentLine p + 1) p) as Heff.
  pose proof (parseStatement_message content (currentLine p + 1) p) as Hmsg.
  destruct (parseStatement content (currentLine p + 1) p) as [parsed p1].
  simpl in Heff, Hmsg. destruct Heff as (Hl & Hc & _).
  destruct parsed as [node|].
  2:{ destruct Hmsg as (msg & He & Hb). simpl. rewrite Hl, Hc, He.
      split_and!; auto. eexists. split; [reflexivity|]. now apply Forall_singleton. }
  destruct node as [name v loc | ty props ch c i loc | ty loc].
  - simpl. rewrite Hl, Hc, Hmsg. auto.
  - pose proof (attach_fields (ElementObj ty props ch c i loc) indent p1
                  (popNonDivide (heap p1) indent stack)) as Ha.
    destruct (attach _ indent p1 _) as [p2 stack2]. simpl in Ha.
    destruct Ha as (Hl2 & Hc2 & He2 & _). simpl. rewrite Hl2, Hc2, He2, Hl, Hc, Hmsg. auto.
  - pose proof (attach_fields (SpecialObj ty loc) indent p1
                  (popNonDivide (heap p1) indent stack)) as Ha.
    destruct (attach _ indent p1 _) as [p2 stack2]. simpl in Ha.
    destruct Ha as (Hl2 & Hc2 & He2 & _). simpl. rewrite Hl2, Hc2, He2, Hl, Hc, Hmsg. auto.
Qed.

Lemma parseBody_loop_errors (rest : list string) (p : Parser) (stack : list Frame) :
  let r := fst (parseBody_loop rest p stack) in
  lines r = lines p /\ currentLine r = currentLine p + untilFooter rest
  /\ exists errs, errors r = errors p ++ errs
                  /\ Forall (fun e => isBodyMessage (message e) = true) errs.
Proof.
  revert p stack. induction rest as [|rawLine rest IH]; intros p stack; simpl.
  - split_and!; auto. exists []. split; [now rewrite app_nil_r | constructor].
  - pose proof (parseBody_step_errors rawLine p stack) as Hstep.
    destruct (parseBody_step rawLine p stack) as [[p' stack']|].
    + destruct Hstep as (-> & Hl & Hc & errs & He & Hb).
      destruct (IH p' stack') as (Hl' & Hc' & errs' & He' & Hb').
      rewrite Hl', Hc', He', Hl, Hc, He. split_and!; auto; [lia|].
      exists (errs ++ errs'). split; [now rewrite app_assoc | now apply Forall_app].
    + rewrite Hstep. simpl. split_and!; auto.
      exists []. split; [now rewrite app_nil_r | constructor].
Qed.

Lemma untilFooter_le (rest : list string) : untilFooter rest <= length rest.
Proof.
  induction rest as [|l rest IH]; simpl; [lia|]. destruct (isFooterLine l); lia.
Qed.

(** Where the count of [untilFooter] stops: at a footer line when there is
    one, at the end otherwise. *)
Lemma untilFooter_stop (rest : list string) :
  if existsb isFooterLine rest
  then exists l, rest !! untilFooter rest = Some l /\ isFooterLine l = true
  else untilFooter rest = length rest.
Proof.
  induction rest as [|l rest IH]; simpl; [reflexivity|].
  destruct (isFooterLine l) eqn:E; simpl; [eauto|].
  destruct (existsb isFooterLine rest); [exact IH | now rewrite IH].
Qed.

Lemma footer_not_blank (l : string) :
  isFooterLine l = true -> String.eqb (trim l) EmptyString = false.
Proof. unfold isFooterLine. intros ->%String.eqb_eq. reflexivity. Qed.

(** [parseHeader] and [parseFooter] in one equation: the blank lines are
    stepped over, and the marker is read when the line there is one. *)
Lemma parseMarker_at (marker : string) (p : Parser) :
  let k := currentLine p + blankPrefix (skipn (currentLine p) (lines p)) in
  let ok := match lines p !! k with
            | Some l => String.eqb (trim l) marker
            | None => false
            end in
  parseMarker marker p = (ok, setCurrentLine (k + (if ok then 1 else 0)) p).
Proof.
  unfold parseMarker, skipEmptyLines. cbn [lines currentLine setCurrentLine].
  destruct (lines p !! _) as [l|]; [destruct (String.eqb (trim l) marker)|];
    unfold setCurrentLine; simpl; rewrite ?Nat.add_0_r; reflexivity.
Qed.

Lemma bodyStart_le (ls : list string) : bodyStart ls <= length ls.
Proof.
  unfold bodyStart, hasHeader. pose proof (blankPrefix_le ls).
  destruct (ls !! blankPrefix ls) as [l|] eqn:E; [|lia].
  apply lookup_lt_Some in E. destruct (isHeaderLine l); lia.
Qed.

(** The errors of the parser [parse] ends with, part by part. *)
Lemma finalParser_errors (src : string) :
  exists bodyErrs,
    errors (finalParser src)
    = (if hasHeader (split LF src) then []
       else [mkParseError headerMessage (blankPrefix (split LF src) + 1)])
      ++ bodyErrs
      ++ (if hasFooter (split LF src) then []
          else [mkParseError footerMessage (length (split LF src) + 1)])
    /\ Forall (fun e => isBodyMessage (message e) = true) bodyErrs.
Proof.
  set (ls := split LF src).
  assert (Hhead : parseHeader (new src)
                  = (hasHeader ls, setCurrentLine (bodyStart ls) (new src))).
  { unfold parseHeader. rewrite parseMarker_at. reflexivity. }
  unfold finalParser, Parser_parse. rewrite Hhead. unfold parseFooter.
  set (p1 := setCurrentLine _ (new src)).
  set (p2 := if hasHeader ls then p1 else addError _ p1).
  assert (H2 : lines p2 = ls /\ currentLine p2 = bodyStart ls
               /\ errors p2 = if hasHeader ls then []
                              else [mkParseError headerMessage (blankPrefix ls + 1)]).
  { unfold p2, p1, bodyStart. destruct (hasHeader ls); simpl; split_and!; auto.
    now rewrite Nat.add_0_r. }
  destruct H2 as (Hl2 & Hc2 & He2).
  destruct (parseBody_loop_errors (skipn (currentLine p2) (lines p2)) p2 [])
    as (Hl3 & Hc3 & bodyErrs & He3 & Hb).
  fold (parseBody p2) in Hl3, Hc3, He3.
  rewrite Hl2, Hc2 in *. rewrite He2 in He3.
  exists bodyErrs. split; [|exact Hb].
  rewrite (parseMarker_at "==CTIW==" (parseBody p2)). rewrite Hl3, Hc3.
  pose proof (untilFooter_stop (skipn (bodyStart ls) ls)) as Hstop.
  pose proof (bodyStart_le ls) as Hle.
  fold (hasFooter ls) in Hstop. destruct (hasFooter ls).
  - destruct Hstop as (l & El & Hf). rewrite lookup_drop in El.
    rewrite (drop_S _ _ _ El). simpl blankPrefix.
    rewrite (footer_not_blank l Hf), Nat.add_0_r, El.
    unfold isFooterLine in Hf. rewrite Hf. simpl. now rewrite He3, app_nil_r.
  - rewrite length_skipn in Hstop.
    replace (bodyStart ls + untilFooter (skipn (bodyStart ls) ls)) with (length ls) by lia.
    rewrite skipn_all. simpl blankPrefix. rewrite Nat.add_0_r.
    rewrite (lookup_ge_None_2 ls (length ls)) by lia.
    cbn [snd]. unfold addError, addErrorAt. cbn [errors currentLine setCurrentLine].
    rewrite He3, Nat.add_0_r. now rewrite <- app_assoc.
Qed.

End WithExternals.

(** X21.  What [parse] reports about the two markers.  The errors are: the header
    error, first and at the line of the first line that is not blank, exactly
    when that line is not the header (or every line is blank); then the
    errors of the body; then the footer error, last and at the line after the
    last, exactly when no line from the start of the body on is the footer. *)
Theorem marker_errors `{Externals} (src : string) :
  exists bodyErrs,
    result_errors (parse src)
    = (if hasHeader (split LF src) then []
       else [mkParseError headerMessage (blankPrefix (split LF src) + 1)])
      ++ bodyErrs
      ++ (if hasFooter (split LF src) then []
          else [mkParseError footerMessage (length (split LF src) + 1)])
    /\ Forall (fun e => isBodyMessage (message e) = true) bodyErrs.
Proof. rewrite parse_errors. apply finalParser_errors. Qed.

(** *** What follows the footer *)

Lemma split_nonempty (c : ascii) (s : string) : split c s <> [].
Proof.
  induction s as [|d s IH]; simpl; [discriminate|].
  destruct (Ascii.eqb d c); [discriminate|]. now destruct (split c s).
Qed.

Lemma split_app (c : ascii) (a b : string) :
  split c (a +:+ String c b) = split c a ++ split c b.
Proof.
  induction a as [|d a IH]; simpl.
  - now rewrite Ascii.eqb_refl.
  - destruct (Ascii.eqb d c); [now rewrite IH|].
    rewrite IH. pose proof (split_nonempty c a). now destruct (split c a).
Qed.

Section WithExternals.
Context `{Externals}.

Lemma withLines_same (p : Parser) : withLines (lines p) p = p.
Proof. now destruct p. Qed.

(** The statements of the body do not read [lines]. *)
Lemma parseStatement_withLines (ls : list string) (content : string) (ln : nat)
    (p : Parser) :
  parseStatement content ln (withLines ls p)
  = (fst (parseStatement content ln p), withLines ls (snd (parseStatement content ln p))).
Proof.
  unfold parseStatement.
  destruct (negb (startsWith "=" content)); [reflexivity|].
  destruct (startsWith "=(" content && includes ")=" content).
  { unfold parseSpecialElement. destruct (matchSpecial content) as [w|]; [|reflexivity].
    destruct (String.eqb (toLowerCase w) "time"); reflexivity. }
  unfold parsePropertyOrElement.
  destruct (indexOf "=" (drop 1 content)) as [nameEnd|]; [|reflexivity].
  destruct (DOC_PROPERTIES_has _); [reflexivity|].
  destruct (String.eqb _ "title").
  { cbn [Parser.metadata withLines]. destruct (titleUnset (Parser.metadata p)); reflexivity. }
  destruct (isValidElementType _); reflexivity.
Qed.

Lemma attach_withLines (ls : list string) (node : NodeObj) (indent : nat) (p : Parser)
    (stack : list Frame) :
  attach node indent (withLines ls p) stack
  = (withLines ls (fst (attach node indent p stack)), snd (attach node indent p stack)).
Proof.
  unfold attach. destruct stack as [|top below]; [reflexivity|].
  destruct (0 <? indent); reflexivity.
Qed.

Lemma parseBody_step_withLines (ls : list string) (rawLine : string) (p : Parser)
    (stack : list Frame) :
  parseBody_step rawLine (withLines ls p) stack
  = match parseBody_step rawLine p stack with
    | Some (p', stack') => Some (withLines ls p', stack')
    | None => None
    end.
Proof.
  unfold parseBody_step.
  destruct (String.eqb (trim rawLine) "==CTIW=="); [reflexivity|].
  destruct (String.eqb (trim rawLine) EmptyString); [reflexivity|].
  destruct (parseIndentation rawLine) as [indent content].
  destruct (String.eqb content "=divide=" && (0 <? length stack)); [reflexivity|].
  cbn [currentLine withLines]. rewrite parseStatement_withLines.
  destruct (parseStatement content (currentLine p + 1) p) as [parsed p1]. cbn [fst snd].
  destruct parsed as [node|]; [|reflexivity].
  destruct node as [name v loc | ty props ch c i loc | ty loc]; [reflexivity | |].
  - cbn [heap withLines]. rewrite attach_withLines.
    now destruct (attach _ indent p1 _) as [p2 stack2].
  - cbn [heap withLines]. rewrite attach_withLines.
    now destruct (attach _ indent p1 _) as [p2 stack2].
Qed.

Lemma parseBody_loop_withLines (ls rest : list string) (p : Parser) (stack : list Frame) :
  parseBody_loop rest (withLines ls p) stack
  = (withLines ls (fst (parseBody_loop rest p stack)), snd (parseBody_loop rest p stack)).
Proof.
  revert p stack. induction rest as [|rawLine rest IH]; intros p stack; simpl; [reflexivity|].
  rewrite parseBody_step_withLines.
  destruct (parseBody_step rawLine p stack) as [[p' stack']|]; [apply IH | reflexivity].
Qed.

(** The loop of [parseBody] does not go past a footer line. *)
Lemma parseBody_loop_footer (pre : list string) (foot : string) (post : list string)
    (p : Parser) (stack : list Frame) :
  isFooterLine foot = true ->
  parseBody_loop (pre ++ foot :: post) p stack = parseBody_loop (pre ++ [foot]) p stack.
Proof.
  intros Hf. revert p stack. induction pre as [|l pre IH]; intros p stack; simpl.
  - pose proof (parseBody_step_errors foot p stack) as Hs.
    destruct (parseBody_step foot p stack) as [[p' stack']|]; [|reflexivity].
    destruct Hs as [Hs _]. congruence.
  - destruct (parseBody_step l p stack) as [[p' stack']|]; [apply IH | reflexivity].
Qed.

Lemma blankPrefix_footer (pre : list string) (foot : string) (post : list string) :
  isFooterLine foot = true ->
  blankPrefix (pre ++ foot :: post) = blankPrefix (pre ++ [foot])
  /\ blankPrefix (pre ++ [foot]) <= length pre.
Proof.
  intros Hf. induction pre as [|l pre [IH1 IH2]]; simpl.
  - rewrite (footer_not_blank foot Hf). auto.
  - destruct (String.eqb (trim l) EmptyString); [rewrite IH1|]; split; auto; lia.
Qed.

Lemma untilFooter_footer (pre : list string) (foot : string) :
  isFooterLine foot = true -> untilFooter (pre ++ [foot]) <= length pre.
Proof.
  intros Hf. induction pre as [|l pre IH]; simpl.
  - now rewrite Hf.
  - destruct (isFooterLine l); lia.
Qed.

(** A marker read at a line no later than the footer, over the two lists
    of lines. *)
Lemma parseMarker_footer (marker : string) (pre : list string) (foot : string)
    (post : list string) (q : Parser) :
  isFooterLine foot = true -> currentLine q <= length pre ->
  exists ok c,
    parseMarker marker (withLines (pre ++ [foot]) q) = (ok, withLines (pre ++ [foot]) (setCurrentLine c q))
    /\ parseMarker marker (withLines (pre ++ foot :: post) q)
       = (ok, withLines (pre ++ foot :: post) (setCurrentLine c q))
    /\ (marker = "=CTIW=" -> c <= length pre).
Proof.
  intros Hf Hq. rewrite !parseMarker_at. cbn [lines currentLine withLines].
  assert (Hd : forall tail, skipn (currentLine q) (pre ++ foot :: tail)
                            = skipn (currentLine q) pre ++ foot :: tail).
  { intros tail. rewrite skipn_app.
    replace (currentLine q - length pre) with 0 by lia. reflexivity. }
  rewrite (Hd post), (Hd []).
  destruct (blankPrefix_footer (skipn (currentLine q) pre) foot post Hf) as [Hb Hle].
  rewrite Hb. rewrite length_skipn in Hle.
  set (k := currentLine q + blankPrefix (skipn (currentLine q) pre ++ [foot])).
  assert (Hk : k <= length pre) by (unfold k; lia).
  assert (Hlook : (pre ++ foot :: post) !! k = (pre ++ [foot]) !! k).
  { destruct (decide (k = length pre)) as [->|Hne].
    - now rewrite !list_lookup_middle.
    - rewrite !lookup_app_l by lia. reflexivity. }
  rewrite Hlook.
  set (ok := match (pre ++ [foot]) !! k with
             | Some l => String.eqb (trim l) marker
             | None => false
             end).
  exists ok, (k + (if ok then 1 else 0)). split_and!; [reflexivity | reflexivity |].
  intros ->. unfold ok.
  destruct ((pre ++ [foot]) !! k) as [l|] eqn:El; [|lia].
  destruct (String.eqb (trim l) "=CTIW=") eqn:Eh; [|lia].
  destruct (decide (k = length pre)) as [Hkl|Hne]; [|lia].
  rewrite Hkl, list_lookup_middle in El by reflexivity. injection El as <-.
  unfold isFooterLine in Hf. apply String.eqb_eq in Hf, Eh. rewrite Hf in Eh. discriminate.
Qed.

Lemma parseBody_footer (pre : list string) (foot : string) (post : list string)
    (q : Parser) :
  isFooterLine foot = true -> currentLine q <= length pre ->
  exists q',
    parseBody (withLines (pre ++ [foot]) q) = withLines (pre ++ [foot]) q'
    /\ parseBody (withLines (pre ++ foot :: post) q) = withLines (pre ++ foot :: post) q'
    /\ currentLine q' <= length pre.
Proof.
  intros Hf Hq. unfold parseBody. cbn [lines currentLine withLines].
  assert (Hd : forall tail, skipn (currentLine q) (pre ++ foot :: tail)
                            = skipn (currentLine q) pre ++ foot :: tail).
  { intros tail. rewrite skipn_app.
    replace (currentLine q - length pre) with 0 by lia. reflexivity. }
  rewrite (Hd post), (Hd []), !parseBody_loop_withLines.
  rewrite (parseBody_loop_footer _ foot post q [] Hf). cbn [fst].
  eexists. split_and!; [reflexivity | reflexivity |].
  destruct (parseBody_loop_errors (skipn (currentLine q) pre ++ [foot]) q [])
    as (_ & -> & _).
  pose proof (untilFooter_footer (skipn (currentLine q) pre) foot Hf) as Hu.
  rewrite length_skipn in Hu. lia.
Qed.

Lemma addError_withLines (ls : list string) (msg : string) (q : Parser) :
  addError msg (withLines ls q) = withLines ls (addError msg q).
Proof. reflexivity. Qed.

(** The parsers [parse] ends with over the two lists of lines differ in
    [lines] only. *)
Lemma Parser_parse_footer (pre : list string) (foot : string) (post : list string) :
  isFooterLine foot = true ->
  exists q,
    snd (Parser_parse (withLines (pre ++ [foot]) (new EmptyString)))
    = withLines (pre ++ [foot]) q
    /\ snd (Parser_parse (withLines (pre ++ foot :: post) (new EmptyString)))
       = withLines (pre ++ foot :: post) q.
Proof.
  intros Hf. unfold Parser_parse, parseHeader, parseFooter.
  destruct (parseMarker_footer "=CTIW=" pre foot post (new EmptyString) Hf)
    as (ok1 & c1 & -> & -> & Hc1); [simpl; lia|].
  specialize (Hc1 eq_refl).
  set (q1 := setCurrentLine c1 (new EmptyString)).
  assert (H2 : exists q2, currentLine q2 <= length pre
                /\ forall ls, (if ok1 then withLines ls q1
                               else addError "Oops! Your CTIW code needs to start with =CTIW="
                                      (withLines ls q1)) = withLines ls q2).
  { destruct ok1;
      [exists q1 | exists (addError "Oops! Your CTIW code needs to start with =CTIW=" q1)];
      (split; [simpl; lia | intros ls; reflexivity]). }
  destruct H2 as (q2 & Hc2 & E2). rewrite !E2.
  destruct (parseBody_footer pre foot post q2 Hf Hc2) as (q3 & -> & -> & Hc3).
  destruct (parseMarker_footer "==CTIW==" pre foot post q3 Hf Hc3)
    as (ok4 & c4 & -> & -> & _).
  destruct ok4; cbn [snd];
    [exists (setCurrentLine c4 q3)
    | exists (addError "Don't forget to end your code with ==CTIW==" (setCurrentLine c4 q3))];
    split; reflexivity.
Qed.

Lemma parseLines_result (ls : list string) :
  parseLines ls
  = let p := snd (Parser_parse (withLines ls (new EmptyString))) in
    mkParseResult
      (createDocument (List.map (reify (heap p)) (body p)) (Parser.metadata p)
         (createLocation 1 1 (length (lines p)) 1))
      (errors p).
Proof.
  unfold parseLines, Parser_parse.
  destruct (parseHeader _) as [okHeader p1].
  destruct (parseFooter _) as [okFooter p4]. reflexivity.
Qed.

Lemma parse_parseLines (src : string) : parse src = parseLines (split LF src).
Proof. reflexivity. Qed.

End WithExternals.

(** X22.  Whatever follows the footer is ignored without a word: a source that
    goes on after its first footer line gives the same nodes, the same
    metadata and the same errors as the source cut after that line. *)
Theorem text_after_the_footer_is_ignored `{Externals} (body foot tail : string) :
  without LF foot = true -> isFooterLine foot = true ->
  let cut := parse (body +:+ String LF foot) in
  let whole := parse (body +:+ String LF (foot +:+ String LF tail)) in
  doc_children (document whole) = doc_children (document cut)
  /\ Ast.metadata (document whole) = Ast.metadata (document cut)
  /\ result_errors whole = result_errors cut.
Proof.
  intros Hline Hf. cbv zeta. rewrite !parse_parseLines.
  rewrite !split_app, (split_without LF foot Hline).
  change (split LF body ++ [foot] ++ split LF tail)
    with (split LF body ++ foot :: split LF tail).
  destruct (Parser_parse_footer (split LF body) foot (split LF tail) Hf) as (q & E1 & E2).
  rewrite !parseLines_result. cbv zeta. rewrite E1, E2. simpl. auto.
Qed.

Lemma text_after_the_footer_is_ignored_witness :
  result_errors (Base.parse "=CTIW=
=text=hi=
 ==CTIW==
=nonsense")
  = result_errors (Base.parse "=CTIW=
=text=hi=
 ==CTIW==").
Proof.
  exact (proj2 (proj2 (text_after_the_footer_is_ignored (H := Base.externals)
                         "=CTIW=
=text=hi=" " ==CTIW==" "=nonsense" eq_refl eq_refl))).
Defined.

End MarkerFacts.

(** ** The generator *)

Module OutputFacts.
Import JS JSFacts Ast Parser Codegen Notions ParserFacts ReifyFacts.
Import Lines LineFacts Tree TreeFacts Output.

(** *** Escaping *)

Lemma replaceAll_append (c : ascii) (by_ s t : string) :
  replaceAll c by_ (s +:+ t) = replaceAll c by_ s +:+ replaceAll c by_ t.
Proof.
  induction s as [|d s IH]; simpl; [reflexivity|].
  destruct (Ascii.eqb d c); rewrite IH; [now rewrite append_assoc | reflexivity].
Qed.

Lemma escapeHTML_append (s t : string) :
  escapeHTML (s +:+ t) = escapeHTML s +:+ escapeHTML t.
Proof. unfold escapeHTML. now rewrite !replaceAll_append. Qed.

Lemma escapeHTML_char (c : ascii) : escapeHTML (String c EmptyString) = escapeChar c.
Proof.
  unfold escapeHTML, escapeChar. simpl replaceAll at 5.
  destruct (Ascii.eqb c "&") eqn:E1; [reflexivity|].
  simpl replaceAll at 4.
  destruct (Ascii.eqb c "<") eqn:E2; [reflexivity|].
  simpl replaceAll at 3.
  destruct (Ascii.eqb c ">") eqn:E3; [reflexivity|].
  simpl replaceAll at 2.
  destruct (Ascii.eqb c DQUOTE) eqn:E4; [reflexivity|].
  simpl replaceAll.
  destruct (Ascii.eqb c "'") eqn:E5; reflexivity.
Qed.

Lemma escapeHTML_cons (c : ascii) (s : string) :
  escapeHTML (String c s) = escapeChar c +:+ escapeHTML s.
Proof.
  change (String c s) with (String c EmptyString +:+ s).
  now rewrite escapeHTML_append, escapeHTML_char.
Qed.

(** X23.  The five replacements of [escapeHTML], one after another, amount to
    one pass over the characters: [&], [<], [>], the double quote and the
    single quote each become their entity, any other character stays, and
    no entity is escaped again.  Hence escaping goes through a
    concatenation. *)
Theorem escapeHTML_is_one_pass (c : ascii) (s t : string) :
  escapeHTML (String c s) = escapeChar c +:+ escapeHTML s
  /\ escapeHTML (s +:+ t) = escapeHTML s +:+ escapeHTML t.
Proof. split; [apply escapeHTML_cons | apply escapeHTML_append]. Qed.

Lemma escapeChar_cases (c : ascii) :
  (c = "&"%char /\ escapeChar c = "&amp;")
  \/ (c = "<"%char /\ escapeChar c = "&lt;")
  \/ (c = ">"%char /\ escapeChar c = "&gt;")
  \/ (c = DQUOTE /\ escapeChar c = "&quot;")
  \/ (c = "'"%char /\ escapeChar c = "&#39;")
  \/ (c <> "&"%char /\ escapeChar c = String c EmptyString).
Proof.
  unfold escapeChar.
  destruct (Ascii.eqb_spec c "&"); [subst; auto|].
  destruct (Ascii.eqb_spec c "<"); [subst; auto 10|].
  destruct (Ascii.eqb_spec c ">"); [subst; auto 10|].
  destruct (Ascii.eqb_spec c DQUOTE); [subst; auto 10|].
  destruct (Ascii.eqb_spec c "'"); [subst; auto 10|].
  auto 10.
Qed.

Lemma escapeChar_nonempty (c : ascii) (x : string) : escapeChar c +:+ x <> EmptyString.
Proof.
  destruct (escapeChar_cases c) as [[_ E] | [[_ E] | [[_ E] | [[_ E] | [[_ E] | [_ E]]]]]];
    rewrite E; discriminate.
Qed.

Lemma escapeChar_inj (c d : ascii) (x y : string) :
  escapeChar c +:+ x = escapeChar d +:+ y -> c = d /\ x = y.
Proof.
  destruct (escapeChar_cases c) as [[Hc Ec] | [[Hc Ec] | [[Hc Ec] | [[Hc Ec] | [[Hc Ec] | [Hc Ec]]]]]];
    destruct (escapeChar_cases d) as [[Hd Ed] | [[Hd Ed] | [[Hd Ed] | [[Hd Ed] | [[Hd Ed] | [Hd Ed]]]]]];
    rewrite Ec, Ed; simpl; intros E; try discriminate E;
    try (injection E as E; now subst);
    try (injection E as E1 E2; subst; contradiction);
    try (injection E as E1 E2; subst; auto).
Qed.

(** X24.  [escapeHTML] loses nothing: two texts with the same escaped form are
    the same text. *)
Theorem escapeHTML_is_injective (s t : string) :
  escapeHTML s = escapeHTML t -> s = t.
Proof.
  revert t. induction s as [|c s IH]; intros [|d t] E.
  - reflexivity.
  - rewrite escapeHTML_cons in E. symmetry in E. now apply escapeChar_nonempty in E.
  - rewrite escapeHTML_cons in E. now apply escapeChar_nonempty in E.
  - rewrite !escapeHTML_cons in E. apply escapeChar_inj in E as [-> E].
    now rewrite (IH t E).
Qed.

Lemma escapeHTML_is_injective_witness :
  escapeHTML "a<b" = escapeHTML ("a" +:+ "<b") /\ "a<b" = "a" +:+ "<b".
Proof.
  split; [reflexivity|].
  apply (escapeHTML_is_injective "a<b" ("a" +:+ "<b")). reflexivity.
Defined.

(** *** Attributes *)

Lemma escapeChar_safe (c : ascii) : all isNotTagChar (escapeChar c) = true.
Proof.
  unfold escapeChar.
  destruct (Ascii.eqb c "&"); [reflexivity|].
  destruct (Ascii.eqb c "<") eqn:E1; [reflexivity|].
  destruct (Ascii.eqb c ">") eqn:E2; [reflexivity|].
  destruct (Ascii.eqb c DQUOTE); [reflexivity|].
  destruct (Ascii.eqb c "'") eqn:E3; [reflexivity|].
  simpl. unfold isNotTagChar. now rewrite E1, E2, E3.
Qed.

Lemma escapeHTML_safe (s : string) : all isNotTagChar (escapeHTML s) = true.
Proof.
  induction s as [|c s IH]; [reflexivity|].
  now rewrite escapeHTML_cons, all_append, escapeChar_safe, IH.
Qed.

Lemma all_join (p : ascii -> bool) (sep : string) (l : list string) :
  all p sep = true -> Forall (fun s => all p s = true) l -> all p (join sep l) = true.
Proof.
  intros Hsep Hl. induction Hl as [|x l Hx Hl IH]; [reflexivity|].
  destruct l as [|y l]; [exact Hx|].
  change (join sep (x :: y :: l)) with (x +:+ sep +:+ join sep (y :: l)).
  now rewrite !all_append, Hx, Hsep, IH.
Qed.

Lemma has_in (x : string) (l : list string) : has x l = true -> x ∈ l.
Proof.
  unfold has. induction l as [|y l IH]; simpl; [discriminate|].
  intros [->%String.eqb_eq | Hl]%orb_prop; [apply list_elem_of_here|].
  apply list_elem_of_further, IH, Hl.
Qed.

Lemma attribute_names_safe :
  Forall (fun k => all isNotTagChar k = true) HTML_ATTRIBUTES.
Proof. repeat constructor. Qed.

(** X25.  The attributes [generateAttributes] writes hold no [<], no [>] and no
    single quote, whatever the properties are: the names are those of the
    table of HTML attributes, and the values go through [escapeHTML]. *)
Theorem attributes_hold_no_tag (props : ElementProperties) :
  all isNotTagChar (generateAttributes props) = true.
Proof.
  unfold generateAttributes.
  assert (Hall : Forall (fun s => all isNotTagChar s = true)
            (List.concat
               (List.map
                  (fun kv : string * string =>
                     if has (fst kv) HTML_ATTRIBUTES
                     then [fst kv +:+ "=" +:+ q +:+ escapeHTML (snd kv) +:+ q]
                     else [])
                  props))).
  { induction props as [|[k v] props IH]; [constructor|].
    cbn [List.map List.concat fst snd].
    destruct (has k HTML_ATTRIBUTES) eqn:Hk; [|exact IH].
    apply Forall_app. split; [|exact IH]. apply Forall_singleton.
    pose proof attribute_names_safe as Hn. rewrite Forall_forall in Hn.
    rewrite !all_append, (Hn k (has_in k _ Hk)), escapeHTML_safe. reflexivity. }
  destruct (List.concat _) as [|a attrs]; [reflexivity|].
  rewrite all_append. simpl all at 1. now apply all_join.
Qed.

(** *** Values *)

Lemma all_hex_length (v : string) : isHexColor v = true -> String.length v = 6.
Proof. unfold isHexColor. now intros [E%Nat.eqb_eq _]%andb_prop. Qed.

Lemma isHexColor_hash (v : string) : isHexColor v = true -> isHexColor ("#" +:+ v) = false.
Proof.
  intros Hv. unfold isHexColor. simpl String.length.
  now rewrite (all_hex_length v Hv).
Qed.

Lemma all_px (p : ascii -> bool) (v : string) :
  p "p"%char = false -> all p (v +:+ "px") = false.
Proof.
  intros Hp. rewrite all_append. simpl. rewrite Hp. apply andb_false_r.
Qed.

(** X26.  [formatCSSValue] is stable: a value it has formatted, with its [#] or
    its [px], is left as it is when formatted again for the same
    property. *)
Theorem formatCSSValue_is_stable (propName value : string) :
  formatCSSValue propName (formatCSSValue propName value)
  = formatCSSValue propName value.
Proof.
  destruct ((includes "color" propName || String.eqb propName "background")
            && isHexColor value) eqn:E1.
  { assert (Hr : formatCSSValue propName value = "#" +:+ value)
      by (unfold formatCSSValue; now rewrite E1).
    rewrite Hr. apply andb_prop in E1 as [_ Hhex]. unfold formatCSSValue.
    rewrite (isHexColor_hash value Hhex), andb_false_r.
    unfold allDigits. change (all Lexer.isDigit ("#" +:+ value)) with false.
    now rewrite !andb_false_r. }
  destruct (has propName pixelProps && allDigits value) eqn:E2.
  { assert (Hr : formatCSSValue propName value = value +:+ "px")
      by (unfold formatCSSValue; now rewrite E1, E2).
    rewrite Hr. unfold formatCSSValue, isHexColor, allDigits.
    rewrite (all_px Lexer.isHexDigit value eq_refl), (all_px Lexer.isDigit value eq_refl).
    now rewrite !andb_false_r. }
  assert (Hr : formatCSSValue propName value = value)
    by (unfold formatCSSValue; now rewrite E1, E2).
  now rewrite !Hr.
Qed.

(** *** Searching the tree *)

Section WithExternals.
Context `{Externals}.

(** Induction on a node, with the property for the children. *)
Lemma node_ind (P : CTIWNode -> Prop) :
  (forall name v loc, P (Ast.Property name v loc)) ->
  (forall ty props children content ind loc,
     Forall P children -> P (Element ty props children content ind loc)) ->
  (forall ty loc, P (Special ty loc)) ->
  (forall m r loc, P (ErrorNode m r loc)) ->
  forall n, P n.
Proof.
  intros HP HE HS HR. fix IH 1. intros [name v loc | ty props children c i loc | ty loc | m r loc].
  - apply HP.
  - apply HE. revert children. fix IHl 1. intros [|child children].
    + constructor.
    + constructor; [apply IH | apply IHl].
  - apply HS.
  - apply HR.
Qed.

Lemma existsb_concat {A : Type} (p : A -> bool) (l : list (list A)) :
  existsb p (List.concat l) = existsb (existsb p) l.
Proof.
  induction l as [|x l IH]; simpl; [reflexivity|]. now rewrite existsb_app, IH.
Qed.

Lemma existsb_map {A B : Type} (p : B -> bool) (f : A -> B) (l : list A) :
  existsb p (List.map f l) = existsb (fun x => p (f x)) l.
Proof. induction l as [|x l IH]; simpl; [reflexivity|]. now rewrite IH. Qed.

Lemma existsb_ext_Forall {A : Type} (p r : A -> bool) (l : list A) :
  Forall (fun x => p x = r x) l -> existsb p l = existsb r l.
Proof. intros Hl. induction Hl as [|x l Hx Hl IH]; simpl; [reflexivity|]. now rewrite Hx, IH. Qed.

Lemma hasTimeElement_node_all (n : CTIWNode) :
  hasTimeElement_node n = existsb isTimeNode (allNodes n).
Proof.
  induction n as [name v loc | ty props children c i loc IH | ty loc | m r loc]
    using node_ind; simpl; try reflexivity.
  - rewrite existsb_concat, existsb_map. now apply existsb_ext_Forall.
  - now rewrite orb_false_r.
Qed.

Lemma concat_map_concat {A B : Type} (f : A -> list B) (l : list (list A)) :
  List.concat (List.map f (List.concat l))
  = List.concat (List.map (fun x => List.concat (List.map f x)) l).
Proof.
  induction l as [|x l IH]; simpl; [reflexivity|].
  now rewrite map_app, concat_app, IH.
Qed.

Lemma map_ext_Forall' {A B : Type} (f g : A -> B) (l : list A) :
  Forall (fun x => f x = g x) l -> List.map f l = List.map g l.
Proof. intros Hl. induction Hl as [|x l Hx Hl IH]; simpl; [reflexivity|]. now rewrite Hx, IH. Qed.

Lemma cssRulesOf_all (n : CTIWNode) :
  cssRulesOf n = List.concat (List.map ownRule (allNodes n)).
Proof.
  induction n as [name v loc | ty props children c i loc IH | ty loc | m r loc]
    using node_ind; try reflexivity.
  cbn [cssRulesOf allNodes List.map List.concat].
  rewrite concat_map_concat, map_map. f_equal.
  f_equal. now apply map_ext_Forall'.
Qed.

End WithExternals.

(** X27.  [hasTimeElement] finds the clock at any depth: it is true exactly when
    some node of the list, or a node below one, is the Special [time]. *)
Theorem hasTimeElement_searches_the_tree `{Externals} (nodes : list CTIWNode) :
  hasTimeElement nodes
  = existsb isTimeNode (List.concat (List.map allNodes nodes)).
Proof.
  unfold hasTimeElement. rewrite existsb_concat, existsb_map.
  apply existsb_ext_Forall, Forall_forall. intros n _. apply hasTimeElement_node_all.
Qed.

(** X28.  [generateCSS] writes the rules of the nodes at every depth, in the order
    of the document: one rule for each node, a node before the nodes below
    it, that is an Element with an id and at least one style. *)
Theorem generateCSS_covers_the_tree `{Externals} (nodes : list CTIWNode) :
  generateCSS nodes
  = join (newline +:+ "    ")
      (List.concat (List.map ownRule (List.concat (List.map allNodes nodes)))).
Proof.
  unfold generateCSS. f_equal. rewrite concat_map_concat, map_map. f_equal.
  apply map_ext. intros n. apply cssRulesOf_all.
Qed.

(** *** Parsed documents *)

Section WithExternals.
Context `{Externals}.

Lemma filter_all {A : Type} (p : A -> bool) (l : list A) :
  Forall (fun x => p x = true) l -> List.filter p l = l.
Proof.
  intros Hl. induction Hl as [|x l Hx Hl IH]; simpl; [reflexivity|]. now rewrite Hx, IH.
Qed.

Lemma isParsedNode_rendered (n : CTIWNode) :
  isParsedNode n -> isElementOrSpecial n = true.
Proof. destruct n; simpl; [contradiction | reflexivity | reflexivity | contradiction]. Qed.

Lemma store_rendered (src : string) (addrs : list nat) :
  Forall (fun a => a < length (heap (finalParser src))) addrs ->
  Forall (fun n => isElementOrSpecial n = true)
    (List.map (reify (heap (finalParser src))) addrs).
Proof.
  intros Hall. apply Forall_forall. intros n Hn.
  apply list_elem_of_In, in_map_iff in Hn as (a & <- & Ha%list_elem_of_In).
  rewrite Forall_forall in Hall.
  destruct (lookup_lt_is_Some_2 _ a (Hall a Ha)) as (o & Eo).
  exact (isParsedNode_rendered _ (proj1 (store_parsed src a o Eo))).
Qed.

End WithExternals.

End OutputFacts.

(** ** Where the lexer reads a value *)

Module ContextFacts.
Import JS JSFacts Lexer LexerFacts Scan ScanFacts ValueContext.

Lemma valuesFollowNames_snoc (before : list TokenType) (toks : list Token) (t : Token) :
  valuesFollowNames before (toks ++ [t])
  = valuesFollowNames before toks
    && (if bool_decide (type t = STRING) then afterName (lastTypes toks ++ before)
        else true).
Proof.
  revert before. induction toks as [|t0 toks IH]; intros before.
  - simpl. now rewrite andb_true_r.
  - change ((t0 :: toks) ++ [t]) with (t0 :: (toks ++ [t])).
    cbn [valuesFollowNames]. rewrite IH.
    unfold lastTypes. cbn [List.map rev]. rewrite <- !app_assoc. cbn [app].
    now rewrite andb_assoc.
Qed.

Lemma lastTypes_rev (toks : list Token) :
  lastTypes toks = List.map type (rev toks).
Proof. unfold lastTypes. now rewrite map_rev. Qed.

(** [updateValueContext] turns the value context on only after the
    primary pattern. *)
Lemma updateValueContext_context (lx : Lexer) :
  tokens (updateValueContext lx) = tokens lx
  /\ (inValueContext (updateValueContext lx) = true ->
      afterName (lastTypes (tokens lx)) = true).
Proof.
  unfold updateValueContext. rewrite lastTypes_rev.
  destruct (rev (tokens lx)) as [|t1 [|t2 [|t3 before]]]; simpl; try (split; [reflexivity | discriminate]).
  destruct (bool_decide (type t1 = EQUALS)) eqn:E1; simpl; [|split; [reflexivity | discriminate]].
  destruct (bool_decide (type t2 = IDENTIFIER)) eqn:E2; simpl; [|split; [reflexivity | discriminate]].
  destruct (bool_decide (type t3 = EQUALS)) eqn:E3; simpl; [|split; [reflexivity | discriminate]].
  apply bool_decide_eq_true_1 in E1, E2, E3. rewrite E1, E2, E3.
  destruct before as [|t4 before]; simpl; [auto|].
  destruct (bool_decide (type t4 = NEWLINE) || bool_decide (type t4 = DOT)
            || bool_decide (type t4 = CTIW_START)) eqn:E4; simpl; auto.
Qed.

Lemma contextInv_add (lx : Lexer) (ty : TokenType) (v : string) (l c : nat)
    (toks : list Token) :
  valuesFollowNames [] (tokens lx) = true -> ty <> STRING ->
  toks = tokens lx ++ [mkToken ty v l c] ->
  valuesFollowNames [] toks = true.
Proof.
  intros Hk Hty ->. rewrite valuesFollowNames_snoc, Hk. simpl.
  now rewrite bool_decide_eq_false_2.
Qed.

(** One call of [scanToken] keeps the invariant. *)
Lemma scanToken_context (lx : Lexer) : contextInv lx -> contextInv (scanToken lx).
Proof.
  intros [Hj Hk]. rewrite scanToken_skip. unfold scanToken.
  set (lx1 := skipWhitespace lx).
  assert (Hskip : skipWhitespace lx1 = lx1).
  { unfold lx1, skipWhitespace at 1.
    replace (remaining (skipWhitespace lx))
      with (drop (skipWhitespace_count (remaining lx)) (remaining lx))
      by (symmetry; apply remaining_advanceBy).
    rewrite skipWhitespace_count_idem. apply advanceBy_0. }
  rewrite Hskip.
  assert (H1 : contextInv lx1) by (split; [exact Hj | exact Hk]).
  assert (Hk1 : valuesFollowNames [] (tokens lx1) = true) by exact Hk.
  assert (Hj1 : inValueContext lx1 = true -> afterName (lastTypes (tokens lx1)) = true)
    by exact Hj.
  clearbody lx1. clear Hskip Hj Hk lx.
  destruct (isAtEndInternal lx1); [exact H1|].
  assert (Hoff : forall ty v c (lx' : Lexer),
            ty <> STRING -> inValueContext lx' = false ->
            tokens lx' = tokens lx1 ++ [mkToken ty v (cur_line lx1) c] ->
            contextInv lx').
  { intros ty v c lx' Hty Hflag Htok. split; [now rewrite Hflag|].
    now apply (contextInv_add lx1 ty v (cur_line lx1) c). }
  destruct (match_ "==CTIW==" lx1).
  { set (hs := existsb _ _).
    apply (Hoff (if hs then CTIW_END else CTIW_START) "==CTIW==" (cur_column lx1));
      [now destruct hs | reflexivity | reflexivity]. }
  destruct (match_ "==" lx1 && negb false).
  { eapply Hoff; [|reflexivity|reflexivity]. discriminate. }
  destruct (Ascii.eqb (current lx1) "=").
  { destruct (updateValueContext_context
                (addToken EQUALS "=" (cur_column lx1) (advance lx1))) as [Ht Hv].
    split; [rewrite Ht; exact Hv|]. rewrite Ht.
    now apply (contextInv_add lx1 EQUALS "=" (cur_line lx1) (cur_column lx1)). }
  destruct (Ascii.eqb (current lx1) ":").
  { eapply Hoff; [|reflexivity|reflexivity]. discriminate. }
  destruct (Ascii.eqb (current lx1) ".").
  { eapply Hoff; [|reflexivity|reflexivity]. discriminate. }
  destruct (Ascii.eqb (current lx1) "(").
  { eapply Hoff; [|reflexivity|reflexivity]. discriminate. }
  destruct (Ascii.eqb (current lx1) ")").
  { eapply Hoff; [|reflexivity|reflexivity]. discriminate. }
  destruct (Ascii.eqb (current lx1) LF).
  { eapply Hoff; [|reflexivity|reflexivity]. discriminate. }
  destruct (shouldScanString lx1) eqn:Hss.
  { assert (Hin : inValueContext lx1 = true).
    { unfold shouldScanString in Hss. now destruct (inValueContext lx1). }
    unfold scanString. split; [discriminate|].
    destruct (0 <? _); simpl; [|exact Hk1].
    rewrite valuesFollowNames_snoc, Hk1. simpl. rewrite app_nil_r. now apply Hj1. }
  destruct (isAlpha (current lx1)).
  { unfold scanIdentifierOrHexColor.
    destruct (_ && _); (eapply Hoff; [|reflexivity|reflexivity]); discriminate. }
  destruct (isDigit (current lx1)).
  { unfold scanNumberOrHexColor.
    destruct (_ && _); (eapply Hoff; [|reflexivity|reflexivity]); discriminate. }
  exact H1.
Qed.

Lemma scanAll_context (fuel : nat) (lx : Lexer) :
  contextInv lx -> contextInv (scanAll fuel lx).
Proof.
  revert lx. induction fuel as [|fuel IH]; intros lx Hinv; simpl.
  - now destruct (isAtEndInternal lx).
  - destruct (isAtEndInternal lx); [exact Hinv|]. apply IH, scanToken_context, Hinv.
Qed.

(** X7.  The lexer reads the text of a value only after the name of an element
    or of a property: every STRING token [tokenize] returns comes right after
    the tokens [=], IDENTIFIER, [=], the opening [=] being the first token or
    coming after a NEWLINE, a DOT or CTIW_START. *)
Theorem values_follow_names (src : string) :
  valuesFollowNames [] (fst (tokenize src)) = true.
Proof.
  unfold tokenize, Lexer_tokenize. simpl.
  assert (Hnew : contextInv (new src)) by (split; [discriminate | reflexivity]).
  destruct (scanAll_context (String.length src) (new src) Hnew) as [_ Hk].
  rewrite valuesFollowNames_snoc, Hk. reflexivity.
Qed.

End ContextFacts.

(** ** What the generator renders *)

Module RenderFacts.
Import JS JSFacts Ast Parser Codegen Notions GeneratorExamples GeneratorFacts.
Import ParserFacts ReifyFacts Tree TreeFacts Output OutputFacts Render.

(** *** Occurrences of a text in another *)

Lemma prefix_refl (p : string) : String.prefix p p = true.
Proof.
  induction p as [|c p IH]; [reflexivity|].
  rewrite LexerFacts.prefix_cons, Ascii.eqb_refl. exact IH.
Qed.

Lemma prefix_append (p s t : string) :
  String.prefix p s = true -> String.prefix p (s +:+ t) = true.
Proof.
  revert s. induction p as [|c p IH]; intros s Hp.
  - now destruct (s +:+ t).
  - destruct s as [|d s]; [discriminate|].
    change (String d s +:+ t) with (String d (s +:+ t)).
    rewrite LexerFacts.prefix_cons in Hp |- *.
    apply andb_prop in Hp as [-> Hp]. now apply IH.
Qed.

Lemma prefix_split (p s : string) :
  String.prefix p s = true -> exists b, s = p +:+ b.
Proof.
  revert s. induction p as [|c p IH]; intros s Hp.
  - now exists s.
  - destruct s as [|d s]; [discriminate|]. rewrite LexerFacts.prefix_cons in Hp.
    apply andb_prop in Hp as [E Hp].
    apply Ascii.eqb_eq in E. subst d. destruct (IH s Hp) as (b & ->).
    now exists b.
Qed.

Lemma includes_after (p s t : string) :
  includes p t = true -> includes p (s +:+ t) = true.
Proof.
  intros Hp. induction s as [|c s IH]; [exact Hp|].
  change (String c s +:+ t) with (String c (s +:+ t)). cbn [includes].
  rewrite IH. apply orb_true_r.
Qed.

Lemma includes_before (p s t : string) :
  includes p s = true -> includes p (s +:+ t) = true.
Proof.
  induction s as [|c s IH]; intros Hp.
  - cbn [includes] in Hp. rewrite orb_false_r in Hp.
    destruct p; [|discriminate]. now destruct (EmptyString +:+ t).
  - cbn [includes] in Hp. apply orb_prop in Hp as [Hp | Hp].
    + change (String c s +:+ t) with (String c (s +:+ t)).
      pose proof (prefix_append _ _ t Hp) as Hq.
      change (String c s +:+ t) with (String c (s +:+ t)) in Hq.
      cbn [includes]. now rewrite Hq.
    + change (String c s +:+ t) with (String c (s +:+ t)). cbn [includes].
      rewrite (IH Hp). apply orb_true_r.
Qed.

Lemma includes_refl (p : string) : includes p p = true.
Proof. destruct p; cbn [includes]; now rewrite prefix_refl. Qed.

Lemma includes_split (p s : string) :
  includes p s = true -> exists a b, s = a +:+ p +:+ b.
Proof.
  induction s as [|c s IH]; cbn [includes]; intros Hp.
  - rewrite orb_false_r in Hp. destruct (prefix_split _ _ Hp) as (b & E).
    now exists EmptyString, b.
  - apply orb_prop in Hp as [Hp | Hp].
    + destruct (prefix_split _ _ Hp) as (b & E). now exists EmptyString, b.
    + destruct (IH Hp) as (a & b & ->). now exists (String c a), b.
Qed.

Lemma includes_trans (p s t : string) :
  includes p s = true -> includes s t = true -> includes p t = true.
Proof.
  intros (a & b & ->)%includes_split (c & d & ->)%includes_split.
  apply includes_after, includes_before, includes_after, includes_before, includes_refl.
Qed.

Lemma includes_join (x sep : string) (l : list string) :
  x ∈ l -> includes x (join sep l) = true.
Proof.
  induction l as [|y l IH]; [intros Hx; now apply elem_of_nil in Hx|].
  intros [-> | Hx]%elem_of_cons.
  - destruct l as [|z l]; [apply includes_refl|].
    change (join sep (y :: z :: l)) with (y +:+ sep +:+ join sep (z :: l)).
    apply includes_before, includes_refl.
  - destruct l as [|z l]; [now apply elem_of_nil in Hx|].
    change (join sep (y :: z :: l)) with (y +:+ sep +:+ join sep (z :: l)).
    now apply includes_after, includes_after, IH.
Qed.

Section WithExternals.
Context `{Externals}.

(** *** Elements without a case of their own *)

Lemma validChildren_map (indent : string) (children : list CTIWNode) :
  List.concat
    (List.map (fun child => if isElementOrSpecial child
                            then [generateElement child indent] else [])
       children)
  = List.map (fun child => generateElement child indent)
      (List.filter isElementOrSpecial children).
Proof.
  induction children as [|c children IH]; simpl; [reflexivity|].
  destruct (isElementOrSpecial c); simpl; now rewrite IH.
Qed.

(** [generateElement] past its four cases: the tag is looked up in the
    table. *)
Lemma generateElement_generic (kind : string) (props : ElementProperties)
    (children : list CTIWNode) (content : option string) (ind : nat)
    (loc : SourceLocation) (indent : string) :
  has kind bespokeKinds = false ->
  generateElement (Element kind props children content ind loc) indent
  = renderAs (lookupOr ELEMENT_TAG_MAP kind kind) props children content indent.
Proof.
  intros Hb. unfold bespokeKinds in Hb. rewrite !has_cons in Hb.
  apply orb_false_elim in Hb as [H1 Hb]. apply orb_false_elim in Hb as [H2 Hb].
  apply orb_false_elim in Hb as [H3 Hb]. apply orb_false_elim in Hb as [H4 _].
  cbn [generateElement]. rewrite H1, H2, H3, H4.
  unfold renderAs, openTag, textOf.
  set (tag := lookupOr ELEMENT_TAG_MAP kind kind).
  destruct (has tag SELF_CLOSING_ELEMENTS); [reflexivity|].
  rewrite validChildren_map.
  destruct (List.filter isElementOrSpecial children) as [|c valid];
    rewrite ?append_assoc; reflexivity.
Qed.


(** *** The page *)

(** The page holds the line of every node of its body. *)
Lemma page_holds_node (doc : DocumentNode) (n : CTIWNode) :
  n ∈ doc_children doc -> isElementOrSpecial n = true ->
  includes ("  " +:+ generateElement n "  ") (generateHTML doc) = true.
Proof.
  intros Hn Hv. unfold generateHTML.
  repeat match goal with
         | |- includes _ (?a +:+ _) = true =>
             lazymatch a with
             | join _ _ => fail
             | _ => apply includes_after
             end
         end.
  apply includes_before, includes_join.
  apply list_elem_of_In, in_map_iff. exists n. split; [reflexivity|].
  apply filter_In. split; [now apply list_elem_of_In | exact Hv].
Qed.


(** *** Every node below a rendered node is rendered *)

Lemma generateElement_nonempty (n : CTIWNode) (indent : string) :
  isElementOrSpecial n = true -> generateElement n indent <> EmptyString.
Proof.
  destruct n as [name v loc | ty props children c i loc | ty loc | m r loc];
    try discriminate; intros _.
  - destruct (has ty bespokeKinds) eqn:Hb.
    + unfold bespokeKinds in Hb. rewrite !has_cons in Hb. cbn [generateElement].
      destruct (String.eqb ty "password"); [discriminate|].
      destruct (String.eqb ty "input"); [discriminate|].
      destruct (String.eqb ty "img"); [discriminate|].
      destruct (String.eqb ty "link"); [discriminate|].
      discriminate.
    + rewrite (generateElement_generic _ _ _ _ _ _ _ Hb). unfold renderAs, openTag.
      destruct (has _ SELF_CLOSING_ELEMENTS); [discriminate|].
      destruct (List.filter isElementOrSpecial children); discriminate.
  - cbn [generateElement]. unfold generateSpecialElement.
    destruct (String.eqb ty "time"); discriminate.
Qed.

(** A node whose nodes are Elements and Specials, only divides among them
    having children, holds the rendering of every node below it. *)
Lemma rendered_within (t : CTIWNode) :
  Forall (fun n => isElementOrSpecial n = true
                   /\ (nodeChildren n = [] \/ isDivideElement n = true))
    (allNodes t) ->
  forall indent n, n ∈ allNodes t ->
  exists indent', includes (generateElement n indent') (generateElement t indent) = true.
Proof.
  induction t as [name v loc | ty props children c i loc IH | ty loc | m r loc]
    using node_ind; intros Hall indent n Hn.
  - apply Forall_cons in Hall as [[Hv _] _]. discriminate.
  - rewrite allNodes_unfold in Hn, Hall. cbn [nodeChildren] in Hn, Hall.
    apply Forall_cons in Hall as [[_ Hdiv] Hall].
    apply elem_of_cons in Hn as [-> | Hn]; [exists indent; apply includes_refl|].
    apply list_elem_of_In, in_concat in Hn as (l & Hl & Hn).
    apply in_map_iff in Hl as (child & <- & Hchild).
    destruct Hdiv as [Hnil | Hdiv]; [simpl in Hnil; subst children; contradiction|].
    simpl in Hdiv. apply String.eqb_eq in Hdiv. subst ty.
    assert (Hsub : Forall (fun n0 => isElementOrSpecial n0 = true
                            /\ (nodeChildren n0 = [] \/ isDivideElement n0 = true))
                     (allNodes child)).
    { apply Forall_forall. intros x Hx. rewrite Forall_forall in Hall. apply Hall.
      apply list_elem_of_In, in_concat. exists (allNodes child).
      split; [now apply in_map | now apply list_elem_of_In]. }
    rewrite Forall_forall in IH.
    destruct (IH child (proj2 (list_elem_of_In _ _) Hchild) Hsub (indent +:+ "  ") n
                (proj2 (list_elem_of_In _ _) Hn)) as (indent' & Hin).
    exists indent'. apply (includes_trans _ _ _ Hin).
    assert (Hv : isElementOrSpecial child = true).
    { rewrite Forall_forall in Hsub. apply Hsub. rewrite allNodes_unfold.
      apply list_elem_of_here. }
    rewrite (generateElement_generic "divide" _ _ _ _ _ _ eq_refl).
    change (lookupOr ELEMENT_TAG_MAP "divide" "divide") with "div".
    unfold renderAs. change (has "div" SELF_CLOSING_ELEMENTS) with false. cbv iota.
    assert (Hvalid : child ∈ List.filter isElementOrSpecial children).
    { apply list_elem_of_In, filter_In. split; [exact Hchild | exact Hv]. }
    destruct (List.filter isElementOrSpecial children) as [|c0 valid] eqn:Ef;
      [now apply elem_of_nil in Hvalid|].
    do 4 apply includes_after. apply includes_before, includes_join.
    apply list_elem_of_In, in_map_iff. exists child.
    split; [reflexivity | now apply list_elem_of_In].
  - rewrite allNodes_unfold in Hn. cbn [nodeChildren] in Hn. simpl in Hn.
    apply list_elem_of_singleton in Hn. subst n. exists indent. apply includes_refl.
  - apply Forall_cons in Hall as [[Hv _] _]. discriminate.
Qed.

(** The nodes of a parsed document are Elements and Specials, and only
    divides have children. *)
Lemma parsed_nodes_shape (src : string) (n : CTIWNode) :
  n ∈ documentNodes (document (parse src)) ->
  isElementOrSpecial n = true /\ (nodeChildren n = [] \/ isDivideElement n = true).
Proof.
  intros Hn. split.
  - destruct (documentNodes_store src n Hn) as (j & o & Eo & ->).
    exact (isParsedNode_rendered _ (proj1 (store_parsed src j o Eo))).
  - destruct (documentNodes_readOff src n Hn) as (j & o & Eo & _ & Hdiv & Hch).
    destruct (Parser_parse_inv src) as [_ Hinv]. fold (finalParser src) in Hinv.
    destruct (objChildren o) as [|c ch] eqn:Ech.
    + left. now rewrite Hch.
    + right. rewrite Hdiv. apply (inv_children_divide _ _ _ Hinv j o Eo).
      now rewrite Ech.
Qed.

End WithExternals.



(** X29.  The generator renders every node of a parsed document: the page
    [generateHTML] returns for the document [parse] returns holds, for every
    node of the tree at any depth, the text [generateElement] writes for that
    node at some indentation, and that text is not empty. *)
Theorem parsed_nodes_are_all_rendered `{Externals} (src : string) :
  Forall (fun n =>
            exists indent,
              generateElement n indent <> EmptyString
              /\ includes (generateElement n indent)
                   (generateHTML (document (parse src))) = true)
    (documentNodes (document (parse src))).
Proof.
  apply Forall_forall. intros n Hn.
  pose proof Hn as Hin. unfold documentNodes in Hin.
  apply list_elem_of_In, in_concat in Hin as (l & Hl & Hin).
  apply in_map_iff in Hl as (t & <- & Ht).
  assert (Hall : Forall (fun n0 => isElementOrSpecial n0 = true
                          /\ (nodeChildren n0 = [] \/ isDivideElement n0 = true))
                   (allNodes t)).
  { apply Forall_forall. intros x Hx. apply (parsed_nodes_shape src).
    unfold documentNodes. apply list_elem_of_In, in_concat. exists (allNodes t).
    split; [now apply in_map | now apply list_elem_of_In]. }
  destruct (rendered_within t Hall "  " n (proj2 (list_elem_of_In _ _) Hin))
    as (indent & Hinc).
  exists indent. split.
  - apply generateElement_nonempty. exact (proj1 (parsed_nodes_shape src n Hn)).
  - apply (includes_trans _ _ _ Hinc).
    apply (includes_trans _ ("  " +:+ generateElement t "  ")).
    + apply includes_after, includes_refl.
    + apply page_holds_node; [now apply list_elem_of_In|].
      rewrite Forall_forall in Hall. apply Hall. rewrite allNodes_unfold.
      apply list_elem_of_here.
Qed.

End RenderFacts.

(** ** Where the nodes of a document are attached *)

Module PlacementFacts.
Import JS JSFacts Ast Parser Notions ParserFacts ReifyFacts ContainerFacts.
Import Lines LineFacts StatementFacts Tree TreeFacts Markers MarkerFacts Placement.

Lemma linesUnder_snoc (parent : option nat) (pls : list Placed) (pl : Placed) :
  linesUnder parent (pls ++ [pl])
  = linesUnder parent pls
    ++ (if bool_decide (parentLine pl = parent) then [placed_line pl] else []).
Proof.
  unfold linesUnder. rewrite List.filter_app, List.map_app. simpl.
  now destruct (bool_decide (parentLine pl = parent)).
Qed.

Lemma linesUnder_app (parent : option nat) (a b : list Placed) :
  linesUnder parent (a ++ b) = linesUnder parent a ++ linesUnder parent b.
Proof. unfold linesUnder. now rewrite List.filter_app, List.map_app. Qed.

(** No placed line hangs under a line that is still to come. *)
Lemma linesUnder_fresh (cl ln : nat) (pls : list Placed) :
  Forall (fun pl => Forall (fun l => l <= cl) (placed_open pl)) pls -> cl < ln ->
  linesUnder (Some ln) pls = [].
Proof.
  intros Hall Hlt. unfold linesUnder.
  induction Hall as [|pl pls Hpl Hall IH]; [reflexivity|]. simpl.
  destruct (bool_decide (parentLine pl = Some ln)) eqn:E; [|exact IH].
  apply bool_decide_eq_true_1 in E. unfold parentLine in E.
  destruct (0 <? placed_indent pl); [|discriminate].
  destruct (placed_open pl) as [|l rest]; [discriminate|].
  injection E as ->. apply Forall_cons in Hpl as [Hl _]. lia.
Qed.

Section WithExternals.
Context `{Externals}.

(** *** Lines of the objects of the store *)

Lemma lineAt_lookup (h : list NodeObj) (a : nat) (o : NodeObj) :
  h !! a = Some o -> lineAt h a = objLine o.
Proof. intros E. unfold lineAt. now rewrite E. Qed.

Lemma lineAt_app_l (h : list NodeObj) (node : NodeObj) (a : nat) :
  a < length h -> lineAt (h ++ [node]) a = lineAt h a.
Proof. intros Ha. unfold lineAt. now rewrite lookup_app_l. Qed.

Lemma lineAt_app_new (h : list NodeObj) (node : NodeObj) :
  lineAt (h ++ [node]) (length h) = objLine node.
Proof. unfold lineAt. now rewrite lookup_app_r, Nat.sub_diag by lia. Qed.

Lemma lineAt_alter (h : list NodeObj) (c t a : nat) :
  lineAt (alter (pushChild c) t h) a = lineAt h a.
Proof.
  unfold lineAt. destruct (decide (t = a)) as [->|Hne].
  - rewrite list_lookup_alter_eq. destruct (h !! a) as [o|]; [|reflexivity].
    simpl. apply objLine_pushChild.
  - now rewrite list_lookup_alter_ne.
Qed.

Lemma map_lineAt_same (h h' : list NodeObj) (l : list nat) :
  (forall a, a < length h -> lineAt h' a = lineAt h a) ->
  Forall (fun a => a < length h) l ->
  List.map (lineAt h') l = List.map (lineAt h) l.
Proof.
  intros Hsame Hl. apply map_ext_in. intros a Ha%list_elem_of_In.
  rewrite Forall_forall in Hl. apply Hsame. now apply Hl.
Qed.

Lemma lineAt_inj (h : list NodeObj) (a b : nat) :
  increasing (List.map objLine h) = true -> a < length h -> b < length h ->
  lineAt h a = lineAt h b -> a = b.
Proof.
  intros Hinc Ha Hb E.
  destruct (Nat.lt_trichotomy a b) as [Hlt | [-> | Hlt]]; [|reflexivity|].
  - pose proof (lineAt_increasing h a b Hinc Hlt Hb). lia.
  - pose proof (lineAt_increasing h b a Hinc Hlt Ha). lia.
Qed.

(** The node of a statement does not depend on the parser it is read in. *)
Lemma parseStatement_node (content : string) (ln : nat) (p : Parser) :
  fst (parseStatement content ln p) = statementNode content ln.
Proof.
  unfold statementNode, parseStatement.
  destruct (negb (startsWith "=" content)); [reflexivity|].
  destruct (startsWith "=(" content && includes ")=" content).
  { unfold parseSpecialElement. destruct (matchSpecial content) as [w|]; [|reflexivity].
    destruct (String.eqb (toLowerCase w) "time"); reflexivity. }
  unfold parsePropertyOrElement.
  destruct (indexOf "=" (drop 1 content)) as [nameEnd|]; [|reflexivity].
  destruct (DOC_PROPERTIES_has _); [reflexivity|].
  destruct (String.eqb _ "title"); [reflexivity|].
  destruct (isValidElementType _); reflexivity.
Qed.

(** *** The invariant, step by step *)

Lemma placeInv_mono (cl cl' : nat) (h : list NodeObj) (bd : list nat)
    (stack : list Frame) (pls : list Placed) (open : list nat) :
  placeInv cl h bd stack pls open -> cl <= cl' -> placeInv cl' h bd stack pls open.
Proof.
  intros [Hh Hs Hb Hc Ho Hos Ha] Hle. split; auto.
  - eapply Forall_impl; [exact Ho|]. simpl. intros; lia.
  - eapply Forall_impl; [exact Hos|]. simpl. intros pl Hpl.
    eapply Forall_impl; [exact Hpl|]. simpl. intros; lia.
Qed.

(** Nothing hangs under the line being read. *)
Lemma placed_fresh (cl indent : nat) (pls : list Placed) (open : list nat) :
  Forall (fun l => l <= cl) open ->
  Forall (fun pl => Forall (fun l => l <= cl) (placed_open pl)) pls ->
  linesUnder (Some (cl + 1)) (pls ++ [mkPlaced (cl + 1) indent open]) = [].
Proof.
  intros Ho Hos. apply (linesUnder_fresh cl); [|lia].
  apply Forall_app. split; [exact Hos|]. now apply Forall_singleton.
Qed.

Lemma placed_bounds (cl indent : nat) (pls : list Placed) (open : list nat) (d : bool) :
  Forall (fun l => l <= cl) open ->
  Forall (fun pl => Forall (fun l => l <= cl) (placed_open pl)) pls ->
  Forall (fun l => l <= cl + 1) (if d then (cl + 1) :: open else open)
  /\ Forall (fun pl => Forall (fun l => l <= cl + 1) (placed_open pl))
       (pls ++ [mkPlaced (cl + 1) indent open]).
Proof.
  intros Ho Hos.
  assert (Ho' : Forall (fun l => l <= cl + 1) open)
    by (eapply Forall_impl; [exact Ho|]; simpl; intros; lia).
  split.
  - destruct d; [apply Forall_cons; split; [lia | exact Ho'] | exact Ho'].
  - apply Forall_app. split; [|now apply Forall_singleton].
    eapply Forall_impl; [exact Hos|]. simpl. intros pl Hpl.
    eapply Forall_impl; [exact Hpl|]. simpl. intros; lia.
Qed.

Lemma place_push_body (cl : nat) (h : list NodeObj) (bd : list nat) (stack : list Frame)
    (pls : list Placed) (open : list nat) (node : NodeObj) (indent : nat) :
  placeInv cl h bd stack pls open ->
  Forall (fun a => a < length h) bd ->
  (forall a o c, h !! a = Some o -> c ∈ objChildren o -> c < length h) ->
  Forall (fun a => a < length h) (List.map element stack) ->
  objLine node = cl + 1 -> objChildren node = [] ->
  parentLine (mkPlaced (cl + 1) indent open) = None ->
  placeInv (cl + 1) (h ++ [node]) (bd ++ [length h])
    (if isDivide node then mkFrame (length h) indent :: stack else stack)
    (pls ++ [mkPlaced (cl + 1) indent open])
    (if isDivide node then (cl + 1) :: open else open).
Proof.
  intros [Hh Hs Hb Hc Ho Hos Ha] Hbd Hfwd Hst Hline Hch Hpar.
  pose proof (placed_fresh cl indent pls open Ho Hos) as Hfresh.
  destruct (placed_bounds cl indent pls open (isDivide node) Ho Hos) as [Ho' Hos'].
  assert (Hsame : forall a, a < length h -> lineAt (h ++ [node]) a = lineAt h a)
    by (intros a; apply lineAt_app_l).
  assert (Hnew : lineAt (h ++ [node]) (length h) = cl + 1)
    by now rewrite lineAt_app_new.
  split; auto.
  - rewrite !List.map_app. simpl. now rewrite Hh, Hline.
  - rewrite <- Hs, <- (map_lineAt_same h (h ++ [node]) _ Hsame Hst).
    destruct (isDivide node); simpl; [now rewrite Hnew | reflexivity].
  - rewrite List.map_app, linesUnder_snoc, Hpar. simpl. rewrite Hnew.
    now rewrite (map_lineAt_same h _ _ Hsame Hbd), Hb.
  - intros a o [E | [_ E]]%lookup_app_Some.
    + rewrite (map_lineAt_same h _ _ Hsame).
      * rewrite (Hc a o E), linesUnder_snoc, Hpar. simpl. now rewrite app_nil_r.
      * apply Forall_forall. intros c Hin. exact (Hfwd a o c E Hin).
    + apply list_lookup_singleton_Some in E as [_ <-].
      rewrite Hch, Hline. simpl. now rewrite Hfresh.
  - intros a Hlt. rewrite length_app in Hlt. simpl in Hlt.
    destruct (decide (a = length h)) as [->|Hne].
    + left. apply elem_of_app. right. now apply list_elem_of_singleton.
    + destruct (Ha a ltac:(lia)) as [Hin | (a' & o' & E & Hin)].
      * left. apply elem_of_app. now left.
      * right. exists a', o'. split; [|exact Hin].
        apply lookup_app_l_Some. exact E.
Qed.

Lemma place_push_child (cl : nat) (h : list NodeObj) (bd : list nat)
    (top : Frame) (below : list Frame)
    (pls : list Placed) (open : list nat) (node : NodeObj) (indent : nat) :
  placeInv cl h bd (top :: below) pls open ->
  increasing (List.map objLine h) = true ->
  Forall (fun a => a < length h) bd ->
  (forall a o c, h !! a = Some o -> c ∈ objChildren o -> c < length h) ->
  stackAllDivide h (top :: below) ->
  objLine node = cl + 1 -> objChildren node = [] -> 0 < indent ->
  placeInv (cl + 1) (alter (pushChild (length h)) (element top) (h ++ [node])) bd
    (if isDivide node then mkFrame (length h) indent :: top :: below else top :: below)
    (pls ++ [mkPlaced (cl + 1) indent open])
    (if isDivide node then (cl + 1) :: open else open).
Proof.
  intros [Hh Hs Hb Hc Ho Hos Ha] Hinc Hbd Hfwd Hstack Hline Hch Hpos.
  pose proof (placed_fresh cl indent pls open Ho Hos) as Hfresh.
  destruct (placed_bounds cl indent pls open (isDivide node) Ho Hos) as [Ho' Hos'].
  set (t := element top). set (h' := alter (pushChild (length h)) t (h ++ [node])).
  assert (Hst : Forall (fun a => a < length h) (List.map element (top :: below))).
  { apply Forall_forall. intros a Hin.
    apply list_elem_of_In, in_map_iff in Hin as (f & <- & Hf%list_elem_of_In).
    unfold stackAllDivide in Hstack. rewrite Forall_forall in Hstack.
    eapply elementTypeAt_lt, Hstack, Hf. }
  assert (Ht : t < length h) by (apply Forall_cons in Hst as [Ht _]; exact Ht).
  assert (Htop : elementTypeAt h t = Some "divide")
    by (apply Forall_cons in Hstack as [Htop _]; exact Htop).
  assert (Hsame : forall a, a < length h -> lineAt h' a = lineAt h a).
  { intros a Hlt. unfold h'. rewrite lineAt_alter. now apply lineAt_app_l. }
  assert (Hnew : lineAt h' (length h) = cl + 1).
  { unfold h'. now rewrite lineAt_alter, lineAt_app_new. }
  assert (Hpar : parentLine (mkPlaced (cl + 1) indent open) = Some (lineAt h t)).
  { unfold parentLine. simpl. apply Nat.ltb_lt in Hpos. rewrite Hpos, <- Hs. reflexivity. }
  split; auto.
  - unfold h'. rewrite (map_alter_same objLine); [|intros o; apply objLine_pushChild].
    rewrite !List.map_app. simpl. now rewrite Hh, Hline.
  - rewrite <- Hs, <- (map_lineAt_same h h' _ Hsame Hst).
    destruct (isDivide node); simpl; [now rewrite Hnew | reflexivity].
  - rewrite (map_lineAt_same h _ _ Hsame Hbd), Hb, linesUnder_snoc, Hpar. simpl.
    now rewrite app_nil_r.
  - intros a o E.
    destruct (lookup_pushed h node t a o E Ht)
      as [[_ ->] | [(Hlt & Hne & E') | (-> & o0 & E' & ->)]].
    + rewrite Hch, Hline. simpl. now rewrite Hfresh.
    + rewrite (map_lineAt_same h _ _ Hsame).
      * rewrite (Hc a o E'), linesUnder_snoc, Hpar.
        rewrite bool_decide_eq_false_2; [now rewrite app_nil_r|].
        intros [= Heq]. apply Hne. apply (lineAt_inj h); auto.
        now rewrite Heq, (lineAt_lookup h a o E').
      * apply Forall_forall. intros c Hin. exact (Hfwd a o c E' Hin).
    + rewrite pushChild_children by now apply (isDivide_type h t o0 E').
      rewrite List.map_app. simpl. rewrite Hnew, objLine_pushChild.
      rewrite (map_lineAt_same h _ _ Hsame).
      * rewrite (Hc t o0 E'), linesUnder_snoc, Hpar, (lineAt_lookup h t o0 E').
        now rewrite bool_decide_eq_true_2.
      * apply Forall_forall. intros c Hin. exact (Hfwd t o0 c E' Hin).
  - intros a Hlt. unfold h' in Hlt. rewrite length_alter, length_app in Hlt. simpl in Hlt.
    destruct (lookup_lt_is_Some_2 h t Ht) as (o0 & E0).
    assert (Et : h' !! t = Some (pushChild (length h) o0)).
    { unfold h'. rewrite list_lookup_alter_eq, lookup_app_l, E0 by exact Ht. reflexivity. }
    assert (Hd : isDivide o0 = true) by now apply (isDivide_type h t o0 E0).
    destruct (decide (a = length h)) as [->|Hne].
    + right. exists t, (pushChild (length h) o0). split; [exact Et|].
      rewrite pushChild_children by exact Hd.
      apply elem_of_app. right. now apply list_elem_of_singleton.
    + destruct (Ha a ltac:(lia)) as [Hin | (a' & o' & E & Hin)]; [now left|].
      right. destruct (decide (a' = t)) as [->|Hne'].
      * exists t, (pushChild (length h) o0). split; [exact Et|].
        rewrite pushChild_children by exact Hd.
        apply elem_of_app. left. congruence.
      * exists a', o'. split; [|exact Hin].
        unfold h'. rewrite list_lookup_alter_ne by congruence.
        apply lookup_app_l_Some. exact E.
Qed.

(** [attach] keeps the invariant: the node is placed at its line, with the
    containers open before it. *)
Lemma attach_place (node : NodeObj) (indent : nat) (p : Parser) (stack : list Frame)
    (pls : list Placed) (open : list nat) :
  heapInv (lines p) (heap p) (body p) -> stackAllDivide (heap p) stack ->
  increasing (List.map objLine (heap p)) = true ->
  placeInv (currentLine p) (heap p) (body p) stack pls open ->
  objLine node = currentLine p + 1 -> objChildren node = [] ->
  let r := attach node indent p stack in
  placeInv (currentLine p + 1) (heap (fst r)) (body (fst r)) (snd r)
    (pls ++ [mkPlaced (currentLine p + 1) indent open])
    (if isDivide node then (currentLine p + 1) :: open else open).
Proof.
  intros Hinv Hstack Hst Hpl Hline Hch. unfold attach.
  pose proof (inv_body _ _ _ Hinv) as Hbody.
  assert (Hfwd : forall a o c, heap p !! a = Some o -> c ∈ objChildren o ->
                 c < length (heap p)).
  { intros a o c E Hc. pose proof (inv_forward _ _ _ Hinv a o c E Hc). lia. }
  assert (Hel : Forall (fun a => a < length (heap p)) (List.map element stack)).
  { apply Forall_forall. intros a Hin.
    apply list_elem_of_In, in_map_iff in Hin as (f & <- & Hf%list_elem_of_In).
    unfold stackAllDivide in Hstack. rewrite Forall_forall in Hstack.
    eapply elementTypeAt_lt, Hstack, Hf. }
  destruct stack as [|top below]; cbn [fst snd heap body].
  - apply place_push_body; auto.
    unfold parentLine. simpl. rewrite <- (pi_stack _ _ _ _ _ _ Hpl). simpl.
    now destruct (0 <? indent).
  - destruct (0 <? indent) eqn:Hpos; cbn [heap body].
    + apply Nat.ltb_lt in Hpos. apply place_push_child; auto.
    + apply place_push_body; auto. unfold parentLine. simpl. now rewrite Hpos.
Qed.

(** One turn of the loop of [parseBody] does what [bodyLine] says. *)
Lemma parseBody_step_place (rawLine : string) (p : Parser) (stack : list Frame)
    (p' : Parser) (stack' : list Frame) (pls : list Placed) (open : list nat) :
  heapInv (lines p) (heap p) (body p) -> stackAllDivide (heap p) stack ->
  storeInvOf p ->
  placeInv (currentLine p) (heap p) (body p) stack pls open ->
  parseBody_step rawLine p stack = Some (p', stack') ->
  isFooterLine rawLine = false
  /\ placeInv (currentLine p + 1) (heap p') (body p') stack'
       (pls ++ fst (bodyLine (currentLine p + 1) rawLine open))
       (snd (bodyLine (currentLine p + 1) rawLine open)).
Proof.
  intros Hinv Hstack Hst Hpl. unfold parseBody_step, bodyLine, isFooterLine.
  assert (Hnext : placeInv (currentLine p + 1) (heap p) (body p) stack pls open)
    by (apply (placeInv_mono (currentLine p)); [exact Hpl | lia]).
  destruct (String.eqb (trim rawLine) "==CTIW=="); [discriminate|].
  destruct (String.eqb (trim rawLine) EmptyString).
  { intros [= <- <-]. simpl. now rewrite app_nil_r. }
  destruct (parseIndentation rawLine) as [indent content].
  assert (Hlen : length open = length stack)
    by (rewrite <- (pi_stack _ _ _ _ _ _ Hpl), !length_map; reflexivity).
  rewrite Hlen.
  destruct (String.eqb content "=divide=" && (0 <? length stack)).
  { intros [= <- <-]. simpl. rewrite app_nil_r. split; [reflexivity|].
    destruct Hnext as [Hh Hs Hb Hc Ho Hos Ha]. split; auto.
    - rewrite <- Hs. now destruct stack.
    - destruct open; [exact Ho | now apply Forall_cons in Ho]. }
  pose proof (parseStatement_effect content (currentLine p + 1) p) as Heff.
  pose proof (parseStatement_node content (currentLine p + 1) p) as Hnode.
  destruct (parseStatement content (currentLine p + 1) p) as [parsed p1].
  simpl in Heff, Hnode. destruct Heff as (Hl & Hc & Hh & Hb & _ & _ & Hfresh).
  rewrite <- Hnode.
  destruct parsed as [node|].
  2:{ intros [= <- <-]. simpl. rewrite app_nil_r, Hh, Hb. auto. }
  destruct (Hfresh node eq_refl) as (Hch & Hstart & _).
  rewrite Hh, (popNonDivide_allDivide _ _ _ Hstack).
  assert (Hatt : forall node', node' = node ->
            forall p2 stack2, attach node' indent p1 stack = (p2, stack2) ->
            placeInv (currentLine p + 1) (heap p2) (body p2) stack2
              (pls ++ [mkPlaced (currentLine p + 1) indent open])
              (if isDivide node then (currentLine p + 1) :: open else open)).
  { intros node' -> p2 stack2 Ea.
    pose proof (attach_place node indent p1 stack pls open) as Ha.
    rewrite Ea, Hl, Hc, Hh, Hb in Ha. apply Ha; auto.
    exact (inv_lines _ _ _ _ _ Hst). }
  destruct node as [name v loc | ty props ch c i loc | ty loc].
  - intros [= <- <-]. simpl. rewrite app_nil_r, Hh, Hb. auto.
  - destruct (attach _ indent p1 stack) as [p2 stack2] eqn:Ea.
    intros [= <- <-]. split; [reflexivity|]. simpl. eapply Hatt; eauto.
  - destruct (attach _ indent p1 stack) as [p2 stack2] eqn:Ea.
    intros [= <- <-]. split; [reflexivity|]. simpl. eapply Hatt; eauto.
Qed.

Lemma parseBody_step_footer (rawLine : string) (p : Parser) (stack : list Frame) :
  parseBody_step rawLine p stack = None -> isFooterLine rawLine = true.
Proof.
  unfold parseBody_step, isFooterLine.
  destruct (String.eqb (trim rawLine) "==CTIW=="); [reflexivity|].
  destruct (String.eqb (trim rawLine) EmptyString); [discriminate|].
  destruct (parseIndentation rawLine) as [indent content].
  destruct (String.eqb content "=divide=" && (0 <? length stack)); [discriminate|].
  destruct (parseStatement content (currentLine p + 1) p) as [[node|] p1];
    [|discriminate].
  destruct node; [discriminate | |]; now destruct (attach _ _ _ _).
Qed.

(** The loop of [parseBody] does what [bodyLines] says. *)
Lemma parseBody_loop_place (rest : list string) (p : Parser) (stack : list Frame)
    (pls : list Placed) (open : list nat) :
  skipn (currentLine p) (lines p) = rest ->
  heapInv (lines p) (heap p) (body p) -> stackAllDivide (heap p) stack ->
  storeInvOf p ->
  placeInv (currentLine p) (heap p) (body p) stack pls open ->
  let r := parseBody_loop rest p stack in
  let s := bodyLines (currentLine p + 1) rest open in
  exists cl,
    placeInv cl (heap (fst r)) (body (fst r)) (snd r) (pls ++ fst s) (snd s).
Proof.
  revert p stack pls open.
  induction rest as [|rawLine rest IH]; intros p stack pls open Hrest Hinv Hstack Hst Hpl.
  - simpl. rewrite app_nil_r. eauto.
  - simpl.
    assert (Hline : lines p !! currentLine p = Some rawLine).
    { pose proof (lookup_drop (lines p) (currentLine p) 0) as E.
      rewrite Hrest, Nat.add_0_r in E. now rewrite <- E. }
    destruct (parseBody_step rawLine p stack) as [[p' stack']|] eqn:Hstep.
    2:{ rewrite (parseBody_step_footer _ _ _ Hstep). simpl. rewrite app_nil_r. eauto. }
    destruct (parseBody_step_inv rawLine p stack p' stack' Hline Hinv Hstack Hstep)
      as (Hl & Hc & Hi & Hs & _).
    pose proof (parseBody_step_store rawLine p stack p' stack' Hline Hinv Hstack Hst Hstep)
      as Hst'.
    destruct (parseBody_step_place rawLine p stack p' stack' pls open
                Hinv Hstack Hst Hpl Hstep) as [Hfoot Hpl'].
    rewrite Hfoot.
    destruct (bodyLine (currentLine p + 1) rawLine open) as [placed open1].
    simpl in Hpl'. rewrite <- Hc in Hpl'.
    assert (Hrest' : skipn (currentLine p') (lines p') = rest).
    { rewrite Hl, Hc. replace (currentLine p + 1) with (S (currentLine p)) by lia.
      rewrite <- (Nat.add_1_r (currentLine p)), <- drop_drop, Hrest. reflexivity. }
    destruct (IH p' stack' (pls ++ placed) open1 Hrest' Hi Hs Hst' Hpl') as (cl & Hfin).
    rewrite Hc, (Nat.add_1_r (currentLine p + 1)) in Hfin.
    destruct (bodyLines (S (currentLine p + 1)) rest open1) as [more open2].
    simpl in Hfin |- *. rewrite <- app_assoc in Hfin. eauto.
Qed.

Lemma placeInv_empty (cl : nat) : placeInv cl [] [] [] [] [].
Proof.
  split; auto.
  - intros a o E. now rewrite lookup_nil in E.
  - simpl. intros a Ha. lia.
Qed.

(** The parser [parseBody] starts from. *)
Lemma bodyParser_start (src : string) :
  lines (bodyParser src) = split LF src
  /\ currentLine (bodyParser src) = bodyStart (split LF src)
  /\ heap (bodyParser src) = [] /\ body (bodyParser src) = []
  /\ storeInvOf (bodyParser src).
Proof.
  unfold bodyParser.
  pose proof (parseMarker_store "=CTIW=" (new src) (storeInv_new src)) as S1.
  fold (parseHeader (new src)) in S1. revert S1.
  replace (parseHeader (new src))
    with (hasHeader (split LF src), setCurrentLine (bodyStart (split LF src)) (new src))
    by (unfold parseHeader; rewrite parseMarker_at; reflexivity).
  cbn [snd]. intros S1. unfold bodyStart in *.
  destruct (hasHeader (split LF src)); simpl; split_and!; auto.
  now apply addError_store.
Qed.

Lemma finalParser_body (src : string) :
  heap (finalParser src) = heap (parseBody (bodyParser src))
  /\ body (finalParser src) = body (parseBody (bodyParser src)).
Proof.
  unfold finalParser, Parser_parse, bodyParser.
  destruct (parseHeader (new src)) as [okHeader p1].
  set (p2 := if okHeader then p1 else _).
  pose proof (parseMarker_effect "==CTIW==" (parseBody p2)) as H4.
  fold (parseFooter (parseBody p2)) in H4.
  destruct (parseFooter (parseBody p2)) as [okFooter p4]. simpl in H4.
  destruct H4 as (_ & Hh4 & Hb4 & _).
  destruct okFooter; simpl; rewrite Hh4, Hb4; auto.
Qed.

(** The store [parse] ends with holds the nodes as [placedLines] places
    them, and the stack [parseBody] ends with, the containers [openAtEnd]
    lists. *)
Lemma finalParser_place (src : string) :
  exists cl,
    placeInv cl (heap (finalParser src)) (body (finalParser src))
      (openContainers (bodyParser src)) (placedLines src) (openAtEnd src).
Proof.
  destruct (finalParser_body src) as [-> ->].
  destruct (bodyParser_start src) as (Hl & Hc & Hh & Hb & Hst).
  pose proof (parseBody_loop_place
                (skipn (currentLine (bodyParser src)) (lines (bodyParser src)))
                (bodyParser src) [] [] [] eq_refl) as Hloop.
  rewrite Hh, Hb in Hloop.
  specialize (Hloop (heapInv_empty _) (Forall_nil_2 _) Hst (placeInv_empty _)).
  cbv zeta in Hloop. rewrite Hl, Hc in Hloop.
  unfold parseBody, openContainers, placedLines, openAtEnd. rewrite Hl, Hc.
  exact Hloop.
Qed.

(** *** From the store to the tree *)

Lemma allNodes_self (n : CTIWNode) : n ∈ allNodes n.
Proof. rewrite allNodes_unfold. apply list_elem_of_here. Qed.

Lemma allNodes_child (t n c : CTIWNode) :
  n ∈ allNodes t -> c ∈ nodeChildren n -> c ∈ allNodes t.
Proof.
  revert n c. induction t as [| ty props children content ind loc IH | |] using OutputFacts.node_ind;
    intros n c Hn Hc.
  1,3,4: simpl in Hn; apply list_elem_of_singleton in Hn as ->; simpl in Hc;
         now apply elem_of_nil in Hc.
  rewrite allNodes_unfold in Hn |- *. simpl nodeChildren in *.
  apply elem_of_cons in Hn as [-> | Hn].
  - simpl in Hc. apply list_elem_of_further, list_elem_of_In, in_concat.
    exists (allNodes c). split; [|apply list_elem_of_In, allNodes_self].
    apply in_map. now apply list_elem_of_In.
  - apply list_elem_of_further.
    apply list_elem_of_In, in_concat in Hn as (l & Hl & Hn).
    apply in_map_iff in Hl as (t & <- & Ht).
    apply list_elem_of_In, in_concat. exists (allNodes t). split; [now apply in_map|].
    apply list_elem_of_In. rewrite Forall_forall in IH.
    apply (IH t (proj2 (list_elem_of_In _ _) Ht) n c); [|exact Hc].
    now apply list_elem_of_In.
Qed.

Lemma documentNodes_top (d : DocumentNode) (t : CTIWNode) :
  t ∈ doc_children d -> t ∈ documentNodes d.
Proof.
  intros Ht. unfold documentNodes. apply list_elem_of_In, in_concat.
  exists (allNodes t). split; [apply in_map; now apply list_elem_of_In|].
  apply list_elem_of_In, allNodes_self.
Qed.

Lemma documentNodes_child (d : DocumentNode) (n c : CTIWNode) :
  n ∈ documentNodes d -> c ∈ nodeChildren n -> c ∈ documentNodes d.
Proof.
  unfold documentNodes. intros Hn Hc.
  apply list_elem_of_In, in_concat in Hn as (l & Hl & Hn).
  apply in_map_iff in Hl as (t & <- & Ht).
  apply list_elem_of_In, in_concat. exists (allNodes t). split; [now apply in_map|].
  apply list_elem_of_In. apply (allNodes_child t n c); [now apply list_elem_of_In | exact Hc].
Qed.

(** The children of the tree at an address are the trees at the addresses
    the object lists. *)
Lemma reify_children (src : string) (j : nat) (o : NodeObj) :
  heap (finalParser src) !! j = Some o ->
  nodeChildren (reify (heap (finalParser src)) j)
  = List.map (reify (heap (finalParser src))) (objChildren o).
Proof.
  intros Eo. destruct (store_tree src j o Eo) as (_ & (_ & _ & Hch) & _).
  rewrite Hch. apply map_ext. intros c. unfold reify. now rewrite Nat.sub_0_r.
Qed.

Lemma reify_lines (src : string) (addrs : list nat) :
  Forall (fun a => a < length (heap (finalParser src))) addrs ->
  List.map nodeLine (List.map (reify (heap (finalParser src))) addrs)
  = List.map (lineAt (heap (finalParser src))) addrs.
Proof.
  intros Hall. rewrite map_map. apply map_ext_in. intros a Ha%list_elem_of_In.
  rewrite Forall_forall in Hall. apply reify_line. now apply Hall.
Qed.

(** Every object of the store is a node of the document. *)
Lemma store_attached (src : string) (a : nat) :
  a < length (heap (finalParser src)) ->
  reify (heap (finalParser src)) a ∈ documentNodes (document (parse src)).
Proof.
  destruct (finalParser_place src) as (cl & Hpl).
  pose proof (pi_attached _ _ _ _ _ _ Hpl) as Hatt.
  induction a as [a IH] using lt_wf_ind. intros Ha.
  destruct (Hatt a Ha) as [Hin | (a' & o' & E & Hin)].
  - apply documentNodes_top. rewrite parse_document.
    apply list_elem_of_In, in_map. now apply list_elem_of_In.
  - pose proof (store_forward src a' o' a E Hin) as Hlt.
    apply (documentNodes_child _ (reify (heap (finalParser src)) a')).
    + apply IH; lia.
    + rewrite (reify_children src a' o' E).
      apply list_elem_of_In, in_map. now apply list_elem_of_In.
Qed.

(** The top level of a parsed document holds the lines placed under no
    container. *)
Lemma top_level_lines (src : string) :
  List.map nodeLine (doc_children (document (parse src)))
  = linesUnder None (placedLines src).
Proof.
  destruct (finalParser_place src) as (cl & Hpl).
  destruct (Parser_parse_inv src) as [_ Hinv]. fold (finalParser src) in Hinv.
  rewrite parse_document, reify_lines by exact (inv_body _ _ _ Hinv).
  exact (pi_body _ _ _ _ _ _ Hpl).
Qed.

(** The children of a node of a parsed document are the lines placed under
    its line. *)
Lemma children_lines (src : string) (n : CTIWNode) :
  n ∈ documentNodes (document (parse src)) ->
  List.map nodeLine (nodeChildren n)
  = linesUnder (Some (nodeLine n)) (placedLines src).
Proof.
  intros Hn. destruct (documentNodes_store src n Hn) as (j & o & Eo & ->).
  destruct (finalParser_place src) as (cl & Hpl).
  rewrite (reify_children src j o Eo), reify_lines.
  - rewrite (pi_children _ _ _ _ _ _ Hpl j o Eo).
    rewrite reify_line by (eapply lookup_lt_Some, Eo).
    now rewrite (lineAt_lookup _ j o Eo).
  - apply Forall_forall. intros c Hc. pose proof (store_forward src j o c Eo Hc). lia.
Qed.

(** Every placed line is the line of a node of the document. *)
Lemma placed_lines_nodes (src : string) (pl : Placed) :
  pl ∈ placedLines src ->
  exists n, n ∈ documentNodes (document (parse src)) /\ nodeLine n = placed_line pl.
Proof.
  intros Hin. destruct (finalParser_place src) as (cl & Hpl).
  pose proof (pi_heap _ _ _ _ _ _ Hpl) as Hh.
  apply list_elem_of_lookup in Hin as (i & Ei).
  pose proof (lookup_map placed_line _ i pl Ei) as El. rewrite <- Hh in El.
  assert (Hi : i < length (heap (finalParser src))).
  { apply lookup_lt_Some in El. now rewrite length_map in El. }
  exists (reify (heap (finalParser src)) i). split; [now apply store_attached|].
  rewrite reify_line by exact Hi. unfold lineAt.
  destruct (heap (finalParser src) !! i) as [o|] eqn:Eo.
  - rewrite (lookup_map objLine _ i o Eo) in El. now injection El.
  - apply lookup_ge_None in Eo. lia.
Qed.

(** What hangs under [parent] is a placed line whose parent is [parent]. *)
Lemma linesUnder_elem (parent : option nat) (pls : list Placed) (l : nat) :
  l ∈ linesUnder parent pls <->
  exists pl, pl ∈ pls /\ parentLine pl = parent /\ placed_line pl = l.
Proof.
  unfold linesUnder. rewrite list_elem_of_In, in_map_iff. split.
  - intros (pl & <- & [Hin Hb]%filter_In). exists pl.
    apply bool_decide_eq_true_1 in Hb. split_and!; auto. now apply list_elem_of_In.
  - intros (pl & Hin & Hp & <-). exists pl. split; [reflexivity|].
    apply filter_In. split; [now apply list_elem_of_In | now apply bool_decide_eq_true_2].
Qed.

(** No two placed lines of a source have the same number. *)
Lemma placed_unique (src : string) (pl pl' : Placed) :
  pl ∈ placedLines src -> pl' ∈ placedLines src ->
  placed_line pl = placed_line pl' -> pl = pl'.
Proof.
  intros [i Ei]%list_elem_of_lookup [j Ej]%list_elem_of_lookup Heq.
  destruct (finalParser_place src) as (cl & Hpl).
  pose proof (inv_lines _ _ _ _ _ (Parser_parse_store src)) as Hinc.
  rewrite (pi_heap _ _ _ _ _ _ Hpl) in Hinc.
  pose proof (lookup_map placed_line _ i pl Ei) as Li.
  pose proof (lookup_map placed_line _ j pl' Ej) as Lj.
  destruct (Nat.lt_trichotomy i j) as [Hlt | [-> | Hlt]].
  - pose proof (increasing_lookup _ i j _ _ Hinc Hlt Li Lj). lia.
  - congruence.
  - pose proof (increasing_lookup _ j i _ _ Hinc Hlt Lj Li). lia.
Qed.

(** A line placed under a container is a child of the node of that
    container. *)
Lemma placed_parent (src : string) (pl : Placed) (l : nat) :
  pl ∈ placedLines src -> parentLine pl = Some l ->
  exists n c, n ∈ documentNodes (document (parse src)) /\ c ∈ nodeChildren n
              /\ nodeLine n = l /\ nodeLine c = placed_line pl.
Proof.
  intros Hin Hpar. destruct (finalParser_place src) as (cl & Hpl).
  destruct (Parser_parse_inv src) as [_ Hinv]. fold (finalParser src) in Hinv.
  set (h := heap (finalParser src)) in *.
  pose proof (pi_heap _ _ _ _ _ _ Hpl) as Hh.
  pose proof Hin as [i Ei]%list_elem_of_lookup.
  pose proof (lookup_map placed_line _ i pl Ei) as El. rewrite <- Hh in El.
  assert (Hi : i < length h).
  { apply lookup_lt_Some in El. now rewrite length_map in El. }
  assert (Hline : lineAt h i = placed_line pl).
  { unfold lineAt. destruct (h !! i) as [o|] eqn:Eo.
    - rewrite (lookup_map objLine _ i o Eo) in El. now injection El.
    - apply lookup_ge_None in Eo. lia. }
  assert (Hfrom : forall parent addrs, i ∈ addrs ->
            List.map (lineAt h) addrs = linesUnder parent (placedLines src) ->
            parentLine pl = parent).
  { intros parent addrs Hi' Hl.
    assert (Hx : placed_line pl ∈ linesUnder parent (placedLines src)).
    { rewrite <- Hl, <- Hline. apply list_elem_of_In, in_map. now apply list_elem_of_In. }
    apply linesUnder_elem in Hx as (pl' & Hin' & Hp' & Heq).
    now rewrite <- (placed_unique src pl' pl Hin' Hin Heq). }
  destruct (pi_attached _ _ _ _ _ _ Hpl i Hi) as [Hb | (a' & o' & E & Hc)].
  - pose proof (Hfrom None _ Hb (pi_body _ _ _ _ _ _ Hpl)). congruence.
  - pose proof (Hfrom _ _ Hc (pi_children _ _ _ _ _ _ Hpl a' o' E)) as Hp.
    rewrite Hpar in Hp. injection Hp as ->.
    exists (reify h a'), (reify h i). split_and!.
    + apply store_attached. eapply lookup_lt_Some, E.
    + unfold h. rewrite (reify_children src a' o' E).
      apply list_elem_of_In, in_map. now apply list_elem_of_In.
    + unfold h. rewrite reify_line by (eapply lookup_lt_Some, E).
      apply lineAt_lookup, E.
    + unfold h. now rewrite reify_line.
Qed.

(** Every child of a node of a parsed document was read from a line of
    level 1 at least. *)
Lemma children_depth (src : string) (n : CTIWNode) :
  n ∈ documentNodes (document (parse src)) ->
  Forall (fun c => 0 < nestingDepth src c) (nodeChildren n).
Proof.
  intros Hn.
  destruct (documentNodes_readOff src n Hn) as (j & o & Eo & _ & _ & Hch).
  destruct (Parser_parse_inv src) as [_ Hinv]. fold (finalParser src) in Hinv.
  rewrite Hch. apply Forall_forall. intros ct Hct.
  apply list_elem_of_In, in_map_iff in Hct as (c & <- & Hc%list_elem_of_In).
  pose proof (inv_forward _ _ _ Hinv j o c Eo Hc) as Hlt.
  destruct (lookup_lt_is_Some_2 (heap (finalParser src)) c) as (oc & Eoc); [lia|].
  destruct (reifyFrom_readOff (heap (finalParser src)) 0) with (i := c) (o := oc)
    as (t & Et & Hloc & _); [|exact Eoc|].
  { intros i oi d E Hd. pose proof (inv_forward _ _ _ Hinv i oi d E Hd). lia. }
  rewrite Nat.sub_0_r, (nth_lookup_Some _ _ _ _ Et).
  unfold nestingDepth. rewrite Hloc.
  exact (inv_child_depth _ _ _ Hinv j o c oc Eo Hc Eoc).
Qed.

(** The level of a placed line is the level of that line of the source. *)
Lemma bodyLines_indent (ls : list string) (k : nat) (rest : list string)
    (open : list nat) :
  skipn k ls = rest ->
  Forall (fun pl => placed_indent pl = depthOfLine ls (placed_line pl))
    (fst (bodyLines (k + 1) rest open)).
Proof.
  revert k open. induction rest as [|raw rest IH]; intros k open Hrest; [constructor|].
  assert (Hline : ls !! k = Some raw).
  { pose proof (lookup_drop ls k 0) as E. rewrite Hrest, Nat.add_0_r in E. now rewrite <- E. }
  assert (Hrest' : skipn (S k) ls = rest).
  { rewrite <- (Nat.add_1_r k), <- drop_drop, Hrest. reflexivity. }
  simpl. destruct (isFooterLine raw); [constructor|].
  assert (Hone : Forall (fun pl => placed_indent pl = depthOfLine ls (placed_line pl))
                   (fst (bodyLine (k + 1) raw open))).
  { unfold bodyLine. destruct (String.eqb (trim raw) EmptyString); [constructor|].
    destruct (parseIndentation raw) as [indent content] eqn:Hind.
    destruct (String.eqb content "=divide=" && (0 <? length open)); [constructor|].
    destruct (statementNode content (k + 1)) as [node|]; [|constructor].
    destruct (isNodeObj node); [|constructor].
    apply Forall_singleton. unfold depthOfLine. cbn [placed_line placed_indent].
    replace (k + 1 - 1) with k by lia. rewrite Hline, Hind. reflexivity. }
  destruct (bodyLine (k + 1) raw open) as [placed open1].
  specialize (IH (S k) open1 Hrest'). rewrite (Nat.add_1_r k) in *.
  rewrite <- (Nat.add_1_r (S k)).
  destruct (bodyLines (S k + 1) rest open1) as [more open2].
  simpl in *. now apply Forall_app.
Qed.

(** *** Indentation is read for being 0 or above, and for nothing else *)

Lemma stackAllDivide_elements (h : list NodeObj) (stack stack' : list Frame) :
  List.map element stack = List.map element stack' ->
  stackAllDivide h stack -> stackAllDivide h stack'.
Proof.
  revert stack'. induction stack as [|f stack IH]; intros [|f' stack'] Hel Hs;
    try discriminate; [constructor|].
  simpl in Hel. injection Hel as Hf Hel. apply Forall_cons in Hs as [Hf' Hs].
  apply Forall_cons. split; [now rewrite <- Hf | now apply IH].
Qed.

Lemma attach_reindented (node : NodeObj) (indent indent' : nat) (p : Parser)
    (stack stack' : list Frame) :
  stack = [] \/ (0 <? indent) = (0 <? indent') ->
  List.map element stack = List.map element stack' ->
  fst (attach node indent p stack) = fst (attach node indent' p stack')
  /\ List.map element (snd (attach node indent p stack))
     = List.map element (snd (attach node indent' p stack')).
Proof.
  intros Hp Hel. unfold attach.
  destruct stack as [|top below], stack' as [|top' below']; try discriminate.
  - simpl. split; [reflexivity | now destruct (isDivide node)].
  - destruct Hp as [? | Hp]; [discriminate|].
    simpl in Hel. injection Hel as Ht Hb. rewrite <- Hp, <- Ht. cbn [fst snd].
    split; [reflexivity|]. destruct (isDivide node); simpl; congruence.
Qed.

(** One turn of the loop keeps the frames of the stack on divides. *)
Lemma parseBody_step_stack (rawLine : string) (p : Parser) (stack : list Frame)
    (p' : Parser) (stack' : list Frame) :
  stackAllDivide (heap p) stack ->
  parseBody_step rawLine p stack = Some (p', stack') ->
  stackAllDivide (heap p') stack'.
Proof.
  intros Hstack. unfold parseBody_step.
  destruct (String.eqb (trim rawLine) "==CTIW=="); [discriminate|].
  destruct (String.eqb (trim rawLine) EmptyString); [now intros [= <- <-]|].
  destruct (parseIndentation rawLine) as [indent content].
  destruct (String.eqb content "=divide=" && (0 <? length stack)).
  { intros [= <- <-]. simpl.
    destruct stack; [exact Hstack | now apply Forall_cons in Hstack]. }
  pose proof (parseStatement_effect content (currentLine p + 1) p) as Heff.
  destruct (parseStatement content (currentLine p + 1) p) as [parsed p1].
  simpl in Heff. destruct Heff as (_ & _ & Hh & _).
  destruct parsed as [node|]; [|intros [= <- <-]; simpl; now rewrite Hh].
  rewrite Hh, (popNonDivide_allDivide _ _ _ Hstack).
  destruct node as [name v loc | ty props ch c i loc | ty loc].
  - intros [= <- <-]. simpl. now rewrite Hh.
  - pose proof (attach_stack (ElementObj ty props ch c i loc) indent p1 stack) as Hatt.
    rewrite Hh in Hatt. specialize (Hatt Hstack).
    destruct (attach _ indent p1 stack) as [p2 stack2]. intros [= <- <-]. apply Hatt.
  - pose proof (attach_stack (SpecialObj ty loc) indent p1 stack) as Hatt.
    rewrite Hh in Hatt. specialize (Hatt Hstack).
    destruct (attach _ indent p1 stack) as [p2 stack2]. intros [= <- <-]. apply Hatt.
Qed.

(** One turn of the loop on two lines that differ in indentation only. *)
Lemma parseBody_step_reindented (raw raw' : string) (p : Parser)
    (stack stack' : list Frame) :
  sameStatement raw raw' -> stackAllDivide (heap p) stack ->
  List.map element stack = List.map element stack' ->
  match parseBody_step raw p stack, parseBody_step raw' p stack' with
  | Some (q, s), Some (q', s') => q = q' /\ List.map element s = List.map element s'
  | None, None => True
  | _, _ => False
  end.
Proof.
  intros (Hb & _ & Hf & Hc & Hp) Hstack Hel.
  pose proof (stackAllDivide_elements _ _ _ Hel Hstack) as Hstack'.
  unfold parseBody_step, isFooterLine in *. rewrite <- Hf, <- Hb.
  destruct (String.eqb (trim raw) "==CTIW=="); [exact I|].
  destruct (String.eqb (trim raw) EmptyString); [auto|].
  destruct (parseIndentation raw) as [indent content].
  destruct (parseIndentation raw') as [indent' content'].
  simpl in Hc, Hp. subst content'.
  assert (Hlen : length stack' = length stack)
    by (rewrite <- (length_map element stack'), <- Hel, length_map; reflexivity).
  rewrite Hlen.
  destruct (String.eqb content "=divide=" && (0 <? length stack)) eqn:Hclose.
  { split; [reflexivity|].
    destruct stack, stack'; try discriminate; [reflexivity|].
    simpl in Hel |- *. now injection Hel. }
  assert (Hp' : stack = [] \/ (0 <? indent) = (0 <? indent')).
  { destruct Hp as [-> | Hp]; [left | now right].
    simpl in Hclose. now destruct stack. }
  pose proof (parseStatement_effect content (currentLine p + 1) p) as Heff.
  destruct (parseStatement content (currentLine p + 1) p) as [parsed p1].
  simpl in Heff. destruct Heff as (_ & _ & Hh & _).
  destruct parsed as [node|]; [|auto].
  rewrite Hh, (popNonDivide_allDivide _ _ _ Hstack),
    (popNonDivide_allDivide _ _ _ Hstack').
  destruct node as [name v loc | ty props ch c i loc | ty loc]; [auto | |].
  - destruct (attach_reindented (ElementObj ty props ch c i loc) indent indent' p1
                stack stack' Hp' Hel) as [E1 E2].
    destruct (attach _ indent p1 stack) as [p2 stack2].
    destruct (attach _ indent' p1 stack') as [p2' stack2'].
    simpl in E1, E2. subst p2'. auto.
  - destruct (attach_reindented (SpecialObj ty loc) indent indent' p1
                stack stack' Hp' Hel) as [E1 E2].
    destruct (attach _ indent p1 stack) as [p2 stack2].
    destruct (attach _ indent' p1 stack') as [p2' stack2'].
    simpl in E1, E2. subst p2'. auto.
Qed.

Lemma parseBody_loop_reindented (rest rest' : list string) (p : Parser)
    (stack stack' : list Frame) :
  Forall2 sameStatement rest rest' -> stackAllDivide (heap p) stack ->
  List.map element stack = List.map element stack' ->
  fst (parseBody_loop rest p stack) = fst (parseBody_loop rest' p stack').
Proof.
  intros Hall. revert p stack stack'.
  induction Hall as [|raw raw' rest rest' Hsame Hall IH]; intros p stack stack' Hstack Hel;
    [reflexivity|].
  simpl.
  pose proof (parseBody_step_reindented raw raw' p stack stack' Hsame Hstack Hel) as Hstep.
  pose proof (parseBody_step_stack raw p stack) as Hs.
  destruct (parseBody_step raw p stack) as [[q s]|],
    (parseBody_step raw' p stack') as [[q' s']|]; try contradiction; [|reflexivity].
  destruct Hstep as [<- Hel']. apply IH; [|exact Hel'].
  exact (Hs q s Hstack eq_refl).
Qed.

Lemma blankPrefix_reindented (rest rest' : list string) :
  Forall2 sameStatement rest rest' -> blankPrefix rest = blankPrefix rest'.
Proof.
  induction 1 as [|raw raw' rest rest' (Hb & _) _ IH]; [reflexivity|].
  simpl. rewrite <- Hb, IH. reflexivity.
Qed.

(** A marker read over two lists of lines that differ in indentation
    only. *)
Lemma parseMarker_reindented (marker : string) (ls ls' : list string) (q : Parser) :
  Forall2 sameStatement ls ls' -> marker = "=CTIW=" \/ marker = "==CTIW==" ->
  exists ok c,
    parseMarker marker (withLines ls q) = (ok, withLines ls (setCurrentLine c q))
    /\ parseMarker marker (withLines ls' q) = (ok, withLines ls' (setCurrentLine c q)).
Proof.
  intros Hall Hm. rewrite !parseMarker_at. cbn [lines currentLine withLines].
  rewrite <- (blankPrefix_reindented _ _ (Forall2_drop _ _ _ (currentLine q) Hall)).
  set (k := currentLine q + blankPrefix (skipn (currentLine q) ls)).
  assert (Hok : match ls' !! k with
                | Some l => String.eqb (trim l) marker
                | None => false
                end
                = match ls !! k with
                  | Some l => String.eqb (trim l) marker
                  | None => false
                  end).
  { pose proof (Forall2_length _ _ _ Hall) as Hlen.
    destruct (ls !! k) as [l|] eqn:El, (ls' !! k) as [l'|] eqn:El'.
    - destruct (Forall2_lookup_lr _ _ _ _ _ _ Hall El El') as (_ & Hh & Hf & _).
      unfold isHeaderLine, isFooterLine in *. destruct Hm as [-> | ->]; congruence.
    - apply lookup_lt_Some in El. apply lookup_ge_None in El'. lia.
    - apply lookup_ge_None in El. apply lookup_lt_Some in El'. lia.
    - reflexivity. }
  rewrite Hok. eexists _, _. split; reflexivity.
Qed.

(** The parsers [parse] ends with over the two lists of lines differ in
    [lines] only. *)
Lemma Parser_parse_reindented (ls ls' : list string) :
  Forall2 sameStatement ls ls' ->
  exists q,
    snd (Parser_parse (withLines ls (new EmptyString))) = withLines ls q
    /\ snd (Parser_parse (withLines ls' (new EmptyString))) = withLines ls' q.
Proof.
  intros Hall. unfold Parser_parse, parseHeader, parseFooter.
  destruct (parseMarker_reindented "=CTIW=" ls ls' (new EmptyString) Hall)
    as (ok1 & c1 & -> & ->); [now left|].
  set (q1 := setCurrentLine c1 (new EmptyString)).
  assert (H2 : exists q2, heap q2 = []
                /\ forall l, (if ok1 then withLines l q1
                              else addError "Oops! Your CTIW code needs to start with =CTIW="
                                     (withLines l q1)) = withLines l q2).
  { destruct ok1;
      [exists q1 | exists (addError "Oops! Your CTIW code needs to start with =CTIW=" q1)];
      (split; [reflexivity | intros l; reflexivity]). }
  destruct H2 as (q2 & Hh2 & E2). rewrite !E2.
  assert (H3 : exists q3, parseBody (withLines ls q2) = withLines ls q3
                          /\ parseBody (withLines ls' q2) = withLines ls' q3).
  { unfold parseBody. cbn [lines currentLine withLines].
    rewrite !parseBody_loop_withLines. cbn [fst].
    rewrite (parseBody_loop_reindented _ _ q2 [] []
               (Forall2_drop _ _ _ (currentLine q2) Hall) (Forall_nil_2 _) eq_refl).
    eexists. split; reflexivity. }
  destruct H3 as (q3 & -> & ->).
  destruct (parseMarker_reindented "==CTIW==" ls ls' q3 Hall)
    as (ok4 & c4 & -> & ->); [now right|].
  destruct ok4; cbn [snd];
    [exists (setCurrentLine c4 q3)
    | exists (addError "Don't forget to end your code with ==CTIW==" (setCurrentLine c4 q3))];
    split; reflexivity.
Qed.

Lemma parse_reindented (src src' : string) :
  Forall2 sameStatement (split LF src) (split LF src') -> parse src' = parse src.
Proof.
  intros Hall. rewrite !parse_parseLines, !parseLines_result.
  destruct (Parser_parse_reindented _ _ Hall) as (q & -> & ->).
  cbn [lines heap body Parser.metadata errors withLines].
  now rewrite (Forall2_length _ _ _ Hall).
Qed.

End WithExternals.

(** C4, as amended.  The tree of every parsed document is the one the rule
    of attachment gives: a node belongs to the innermost container open
    before its line when one is open and its own indentation level is above
    0, whatever the level of that container, and to the top level
    otherwise.  The top-level list holds the lines placed under no
    container, in order; the children of every node are the lines placed
    under its line, in order, each of them read from a line of level 1 at
    least; every line that gives a node is a node of the tree; and the
    level the rule reads is the nesting depth of the line, the leading dots
    divided by two. *)
Theorem C4_children_are_indented `{Externals} (src : string) :
  List.map nodeLine (doc_children (document (parse src)))
  = linesUnder None (placedLines src)
  /\ Forall (fun n =>
               List.map nodeLine (nodeChildren n)
               = linesUnder (Some (nodeLine n)) (placedLines src)
               /\ Forall (fun c => 0 < nestingDepth src c) (nodeChildren n))
       (documentNodes (document (parse src)))
  /\ Forall (fun pl =>
               exists n, n ∈ documentNodes (document (parse src))
                         /\ nodeLine n = placed_line pl)
       (placedLines src)
  /\ Forall (fun pl => placed_indent pl = depthOfLine (split LF src) (placed_line pl))
       (placedLines src).
Proof.
  split_and!.
  - apply top_level_lines.
  - apply Forall_forall. intros n Hn. split; [now apply children_lines|].
    now apply children_depth.
  - apply Forall_forall. intros pl Hpl. now apply placed_lines_nodes.
  - unfold placedLines. apply bodyLines_indent. reflexivity.
Qed.

(** C4 on [nestedSource]: the two divides and the text at level 0 are at the
    top level; the texts at levels 3 and 1 that follow the second divide,
    opened at level 1, are its children. *)
Lemma C4_children_are_indented_witness :
  List.map nodeLine (doc_children (document (Base.parse nestedSource))) = [2; 5; 7]
  /\ linesUnder (Some 5) (@placedLines Base.externals nestedSource) = [6; 8].
Proof.
  split.
  - exact (eq_trans (proj1 (@C4_children_are_indented Base.externals nestedSource))
             eq_refl).
  - reflexivity.
Defined.

(** C6.  Containers are closed by the bare keyword, and by nothing else.
    The container a node is attached to is the innermost of the containers
    the keyword rule leaves open before its line ([bodyLine]: a bare
    [=divide=] closes the innermost one whatever the indentation of the
    line, no other line closes any): a line placed under a container is a
    child, in the parsed tree, of the node of that container; and the
    frames on the stack when the body ends are those containers.  Further,
    the indentation of a line is read for being 0 or above and for nothing
    else: two sources whose lines carry the same statements, with the same
    answer to [indent > 0], parse to the same result, so that no dedent
    closes a container and a close at any level closes one. *)
Theorem C6_close_by_keyword_only `{Externals} (src : string) :
  List.map (lineAt (heap (finalParser src)))
    (List.map element (openContainers (bodyParser src)))
  = openAtEnd src
  /\ (forall pl l, pl ∈ placedLines src -> parentLine pl = Some l ->
        exists n c, n ∈ documentNodes (document (parse src)) /\ c ∈ nodeChildren n
                    /\ nodeLine n = l /\ nodeLine c = placed_line pl)
  /\ (forall src', Forall2 sameStatement (split LF src) (split LF src') ->
        parse src' = parse src).
Proof.
  split_and!.
  - destruct (finalParser_place src) as (cl & Hpl). exact (pi_stack _ _ _ _ _ _ Hpl).
  - intros pl l. apply placed_parent.
  - intros src'. apply parse_reindented.
Qed.

(** C6 on [nestedSource]: the text on line 8, at level 1 after a text at
    level 0, is a child of the divide of line 5, which no dedent closed; and
    [reindentedSource], where the close is at level 3 and the texts are at
    other levels above 0, parses to the same result. *)
Lemma C6_close_by_keyword_only_witness :
  (exists n c, n ∈ documentNodes (document (Base.parse nestedSource))
               /\ c ∈ nodeChildren n /\ nodeLine n = 5 /\ nodeLine c = 8)
  /\ Base.parse reindentedSource = Base.parse nestedSource.
Proof.
  split.
  - refine (proj1 (proj2 (@C6_close_by_keyword_only Base.externals nestedSource))
              (mkPlaced 8 1 [5]) 5 _ eq_refl).
    vm_compute. repeat constructor.
  - apply (proj2 (proj2 (@C6_close_by_keyword_only Base.externals nestedSource))).
    let l := eval vm_compute in (split LF nestedSource) in
    change (split LF nestedSource) with l.
    let l := eval vm_compute in (split LF reindentedSource) in
    change (split LF reindentedSource) with l.
    repeat (constructor;
            [split_and!; try (vm_compute; reflexivity);
             (left; vm_compute; reflexivity) || (right; vm_compute; reflexivity)|]).
    constructor.
Defined.

End PlacementFacts.

(** ** Title declarations, in any document *)

Module DeclaredFacts.
Import JS JSFacts Ast Parser Notions ParserFacts ReifyFacts ContainerFacts.
Import Lines LineFacts StatementFacts Tree TreeFacts Markers MarkerFacts.
Import Placement PlacementFacts Declared.




Section WithExternals.
Context `{Externals}.














End WithExternals.



End DeclaredFacts.

(** ** Runs of the pipeline do not depend on one another *)

Module SessionFacts.
Import JS JSFacts Ast Parser Notions ParserFacts ReifyFacts Session.


Section WithExternals.
Context `{Externals}.














(** *** Reading the tree off a store that held other objects *)









End WithExternals.



End SessionFacts.
